(** * tcp-record-channel: the framing codec and the connection lifecycle

    A shallow embedding of [src/index.js] (class [Channel]) and the properties
    of its specification.

    Modelling conventions.
    - A JavaScript string is represented by the sequence of its UTF-8 bytes
      ([string], one [ascii] per byte), so [Buffer.from] and
      [Buffer.prototype.toString] are the two directions of the byte/character
      bijection.  This is exact for well-formed text; the replacement of
      malformed sequences by U+FFFD is not modelled, and lengths are byte
      lengths.
    - A [Buffer] is a [list byte].
    - Sockets are objects with identity: they live in a store indexed by
      [Socket_id], and the private [WeakMap] [#buffer] is a finite map from
      socket identities to buffers.
    - Private members [#buffer], [#transmit], [#findRecordSeparator] and
      [#createClient] carry the prefix [priv_]. *)

From Stdlib Require Import ZArith Strings.Byte Ascii String List Lia.
From stdpp Require Import base option list gmap strings.

Open Scope string_scope.
Open Scope list_scope.
Open Scope Z_scope.

Abbreviation Buffer := (list byte).
Abbreviation Socket_id := nat.

(** ** JavaScript and Node primitives used by the class *)

Module JS.

(** [Array.prototype.join] on an array of strings. *)
Fixpoint Array_join (sep : string) (units : list string) : string :=
  match units with
  | [] => ""
  | u :: rest =>
      match rest with
      | [] => u
      | _ :: _ => u +:+ sep +:+ Array_join sep rest
      end
  end.

(** [String.prototype.startsWith]. *)
Fixpoint startsWith (s sep : string) : bool :=
  match sep, s with
  | EmptyString, _ => true
  | String _ _, EmptyString => false
  | String a sep', String c s' => if Ascii.eqb a c then startsWith s' sep' else false
  end.

(** The scan of [String.prototype.split] for a non-empty separator: [skip]
    counts the characters of a matched separator still to be passed over. *)
Fixpoint split_scan (sep : string) (skip : nat) (s : string) : list string :=
  match s with
  | EmptyString => [EmptyString]
  | String c s' =>
      match skip with
      | S k => split_scan sep k s'
      | O =>
          if startsWith s sep
          then EmptyString :: split_scan sep (Nat.pred (String.length sep)) s'
          else match split_scan sep O s' with
               | piece :: pieces => String c piece :: pieces
               | [] => [String c EmptyString]
               end
      end
  end.

(** [String.prototype.split(sep)].  With the empty separator the string is
    cut into its characters and the empty string gives the empty array; the
    characters are the bytes of the representation here, which are the UTF-16
    code units of the source for ASCII text only. *)
Definition String_split (s sep : string) : list string :=
  match sep with
  | EmptyString => map (fun c => String c EmptyString) (list_ascii_of_string s)
  | String _ _ => split_scan sep O s
  end.

(** [Buffer.from(string)] and [buf.toString()], on well-formed UTF-8: the
    bytes of the text and the text of the bytes.  The runtime's [toString]
    replaces an ill-formed sequence by U+FFFD; that is not represented, so
    a property that rests on [toString] losing nothing is stated for
    well-formed bytes ([well_formed_utf8] below). *)
Definition Buffer_from (s : string) : Buffer := list_byte_of_string s.
Definition Buffer_toString (b : Buffer) : string := string_of_list_byte b.

(** [Buffer.concat(list)]. *)
Definition Buffer_concat (parts : list Buffer) : Buffer := concat parts.

(** An index argument of [buf.slice]: negative indices count from the end,
    and everything is clamped to the buffer. *)
Definition clamp_index (len i : Z) : Z :=
  if i <? 0 then Z.max 0 (len + i) else Z.min i len.

(** [buf.slice(start, end)] and [buf.slice(start)]. *)
Definition Buffer_slice (b : Buffer) (start end_ : Z) : Buffer :=
  let len := Z.of_nat (length b) in
  let s := clamp_index len start in
  let e := clamp_index len end_ in
  take (Z.to_nat (e - s)) (drop (Z.to_nat s) b).

Definition Buffer_slice_from (b : Buffer) (start : Z) : Buffer :=
  Buffer_slice b start (Z.of_nat (length b)).

Fixpoint bytes_startWith (b needle : Buffer) : bool :=
  match needle, b with
  | [], _ => true
  | _ :: _, [] => false
  | x :: needle', y :: b' => if Byte.eqb x y then bytes_startWith b' needle' else false
  end.

Fixpoint indexOf_at (needle b : Buffer) (offset : Z) : Z :=
  if bytes_startWith b needle then offset
  else match b with
       | [] => -1
       | _ :: b' => indexOf_at needle b' (offset + 1)
       end.

(** [buf.indexOf(string)]: the byte index of the first occurrence of the
    encoded string, [-1] when there is none, [0] for the empty string. *)
Definition Buffer_indexOf (b : Buffer) (value : string) : Z :=
  indexOf_at (Buffer_from value) b 0.

End JS.

Import JS.

(** ** Errors *)

(** The descriptor installed by [Object.defineProperty(error, 'socket',
    { value: socket })]: the three flags default to [false]. *)
Record PropertyDescriptor := {
  value : Socket_id;
  enumerable : bool;
  writable_flag : bool;
  configurable : bool
}.

Inductive Error : Type :=
| mkError (message : string) (code : option string) (cause : option Cause)
          (record : option (list string)) (socket : option PropertyDescriptor)
with Cause : Type :=
| CauseText (s : string)
| CauseError (e : Error)
| CauseErrors (es : list Error).

Definition message (e : Error) := let 'mkError m _ _ _ _ := e in m.
Definition code (e : Error) := let 'mkError _ c _ _ _ := e in c.
Definition cause (e : Error) := let 'mkError _ _ c _ _ := e in c.
Definition record (e : Error) := let 'mkError _ _ _ r _ := e in r.
Definition socket (e : Error) := let 'mkError _ _ _ _ s := e in s.

Definition set_record (r : list string) (e : Error) : Error :=
  let 'mkError m c k _ s := e in mkError m c k (Some r) s.

(** [new Error(message)]. *)
Definition new_Error (m : string) : Error := mkError m None None None None.

(** ** Configuration *)

Record Config := {
  START_OF_TRANSMISSION : string;
  RECORD_SEPARATOR : string;
  UNIT_SEPARATOR : string;
  KEEP_ALIVE : Z
}.

(** The defaults of the constructor: STX, RS and US of ASCII, one minute. *)
Definition default_config : Config := {|
  START_OF_TRANSMISSION := String "002"%char EmptyString;
  RECORD_SEPARATOR := String "030"%char EmptyString;
  UNIT_SEPARATOR := String "031"%char EmptyString;
  KEEP_ALIVE := 60000
|}.

(** The object a caller passes to the constructor: any subset of the keys. *)
Record ConfigOptions := {
  opt_START_OF_TRANSMISSION : option string;
  opt_RECORD_SEPARATOR : option string;
  opt_UNIT_SEPARATOR : option string;
  opt_KEEP_ALIVE : option Z
}.

(** [Object.assign(defaults, config)]. *)
Definition constructor (opts : option ConfigOptions) : Config :=
  match opts with
  | None => default_config
  | Some o => {|
      START_OF_TRANSMISSION :=
        default (START_OF_TRANSMISSION default_config) (opt_START_OF_TRANSMISSION o);
      RECORD_SEPARATOR :=
        default (RECORD_SEPARATOR default_config) (opt_RECORD_SEPARATOR o);
      UNIT_SEPARATOR :=
        default (UNIT_SEPARATOR default_config) (opt_UNIT_SEPARATOR o);
      KEEP_ALIVE := default (KEEP_ALIVE default_config) (opt_KEEP_ALIVE o)
    |}
  end.

(** ** The codec *)

(** [encode(units)]. *)
Definition encode (cfg : Config) (units : list string) : Buffer :=
  let record := Array_join (UNIT_SEPARATOR cfg) units in
  Buffer_from (record +:+ RECORD_SEPARATOR cfg).

(** ** Sockets, promises and the state of the program *)

(** The functions the class registers on a socket. *)
Inductive Listener : Type :=
| buffer_bound      (* this.buffer.bind(this, socket) *)
| client_on_close   (* the 'close' closure of #createClient *)
| client_on_error   (* the 'error' closure of #createClient *)
| client_on_data.   (* the 'data' closure of #createClient *)

Inductive EventName : Type := ev_data | ev_close | ev_error.

#[export] Instance EventName_eq_dec : EqDecision EventName.
Proof. solve_decision. Defined.

#[export] Instance Listener_eq_dec : EqDecision Listener.
Proof. solve_decision. Defined.

Record Registration := {
  reg_event : EventName;
  reg_once : bool;
  reg_listener : Listener
}.

#[export] Instance Registration_eq_dec : EqDecision Registration.
Proof. solve_decision. Defined.

(** What the class reads and changes of a [net.Socket] or [tls.TLSSocket].
    [readableFlowing] is [null], [false] or [true]; [unread] holds the chunks
    the transport has delivered and no 'data' event has handed out yet. *)
Record Socket := {
  authorized : bool;
  writable : bool;
  destroyed : bool;
  readableFlowing : option bool;
  keepAlive : option Z;
  listeners : list Registration;
  unread : list Buffer
}.

(** The socket [connect(config)] returns. *)
Definition new_socket : Socket := {|
  authorized := false;
  writable := true;
  destroyed := false;
  readableFlowing := None;
  keepAlive := None;
  listeners := [];
  unread := []
|}.

Inductive Promise : Type :=
| Pending
| Fulfilled (s : Socket_id)
| Rejected (e : Error).

(** The channel ([config], [#buffer], the 'record' events it has emitted),
    the sockets, the promises of [#createClient] (one per client socket) and
    the chunks written to the transport, in order. *)
Record State := {
  config : Config;
  priv_buffer : gmap Socket_id Buffer;
  sockets : gmap Socket_id Socket;
  promises : gmap Socket_id Promise;
  emitted : list (list string * Socket_id);
  wire : list (Socket_id * Buffer)
}.

Definition new_Channel (opts : option ConfigOptions) : State := {|
  config := constructor opts;
  priv_buffer := ∅;
  sockets := ∅;
  promises := ∅;
  emitted := [];
  wire := []
|}.

Definition set_priv_buffer (f : gmap Socket_id Buffer -> gmap Socket_id Buffer)
    (st : State) : State :=
  {| config := config st; priv_buffer := f (priv_buffer st);
     sockets := sockets st; promises := promises st;
     emitted := emitted st; wire := wire st |}.

Definition set_sockets (f : gmap Socket_id Socket -> gmap Socket_id Socket)
    (st : State) : State :=
  {| config := config st; priv_buffer := priv_buffer st;
     sockets := f (sockets st); promises := promises st;
     emitted := emitted st; wire := wire st |}.

Definition set_promises (f : gmap Socket_id Promise -> gmap Socket_id Promise)
    (st : State) : State :=
  {| config := config st; priv_buffer := priv_buffer st;
     sockets := sockets st; promises := f (promises st);
     emitted := emitted st; wire := wire st |}.

Definition set_emitted (f : list (list string * Socket_id) -> list (list string * Socket_id))
    (st : State) : State :=
  {| config := config st; priv_buffer := priv_buffer st;
     sockets := sockets st; promises := promises st;
     emitted := f (emitted st); wire := wire st |}.

Definition set_wire (f : list (Socket_id * Buffer) -> list (Socket_id * Buffer))
    (st : State) : State :=
  {| config := config st; priv_buffer := priv_buffer st;
     sockets := sockets st; promises := promises st;
     emitted := emitted st; wire := f (wire st) |}.

(** A call returns a value, or throws, both in a new state (an exception
    undoes nothing), or does not return. *)
Inductive Result (A : Type) : Type :=
| Ok (a : A) (st : State)
| Throw (e : Error) (st : State)
| Diverges.
Arguments Ok {A} a st.
Arguments Throw {A} e st.
Arguments Diverges {A}.

Definition and_then {A B} (r : Result A) (k : A -> State -> Result B) : Result B :=
  match r with
  | Ok a st => k a st
  | Throw e st => Throw e st
  | Diverges => Diverges
  end.

(** The state a call ends in, when it ends. *)
Definition final_state {A} (r : Result A) : option State :=
  match r with
  | Ok _ st => Some st
  | Throw _ st => Some st
  | Diverges => None
  end.

(** The [TypeError] the runtime raises when a property of [undefined] is
    read ([undefined.indexOf], [undefined.writable], [undefined.authorized],
    and [undefined.length] inside [Buffer.concat]): an error with a message
    and no [code]. *)
Definition TypeError (m : string) : Error :=
  mkError m None None None None.

(** *** Methods of a socket *)

Definition update_socket (s : Socket_id) (f : Socket -> Socket) (st : State) : State :=
  set_sockets (alter f s) st.

Definition with_listeners (f : list Registration -> list Registration) (sk : Socket) : Socket :=
  {| authorized := authorized sk; writable := writable sk; destroyed := destroyed sk;
     readableFlowing := readableFlowing sk; keepAlive := keepAlive sk;
     listeners := f (listeners sk); unread := unread sk |}.

Definition with_flowing (b : option bool) (sk : Socket) : Socket :=
  {| authorized := authorized sk; writable := writable sk; destroyed := destroyed sk;
     readableFlowing := b; keepAlive := keepAlive sk;
     listeners := listeners sk; unread := unread sk |}.

Definition with_unread (f : list Buffer -> list Buffer) (sk : Socket) : Socket :=
  {| authorized := authorized sk; writable := writable sk; destroyed := destroyed sk;
     readableFlowing := readableFlowing sk; keepAlive := keepAlive sk;
     listeners := listeners sk; unread := f (unread sk) |}.

(** [socket.on(name, f)] and [socket.once(name, f)]: a 'data' listener starts
    the flow unless the socket was paused explicitly. *)
Definition add_listener (name : EventName) (once : bool) (f : Listener) (sk : Socket) : Socket :=
  let sk' := with_listeners (fun l => l ++ [{| reg_event := name; reg_once := once; reg_listener := f |}]) sk in
  match name, readableFlowing sk with
  | ev_data, Some false => sk'
  | ev_data, _ => with_flowing (Some true) sk'
  | _, _ => sk'
  end.

Definition socket_on (s : Socket_id) (name : EventName) (f : Listener) : State -> State :=
  update_socket s (add_listener name false f).

Definition socket_once (s : Socket_id) (name : EventName) (f : Listener) : State -> State :=
  update_socket s (add_listener name true f).

Definition socket_removeAllListeners (s : Socket_id) (name : EventName) : State -> State :=
  update_socket s
    (with_listeners (filter (fun r => reg_event r ≠ name))).

Definition socket_resume (s : Socket_id) : State -> State :=
  update_socket s (with_flowing (Some true)).

Definition socket_pause (s : Socket_id) : State -> State :=
  update_socket s (with_flowing (Some false)).

Definition socket_setKeepAlive (s : Socket_id) (delay : Z) : State -> State :=
  update_socket s (fun sk =>
    {| authorized := authorized sk; writable := writable sk; destroyed := destroyed sk;
       readableFlowing := readableFlowing sk; keepAlive := Some delay;
       listeners := listeners sk; unread := unread sk |}).

(** [socket.destroy()]: the stream is closed for reading and writing. *)
Definition destroy_socket (sk : Socket) : Socket :=
  {| authorized := authorized sk; writable := false; destroyed := true;
     readableFlowing := readableFlowing sk; keepAlive := keepAlive sk;
     listeners := listeners sk; unread := unread sk |}.

Definition socket_destroy (s : Socket_id) : State -> State :=
  update_socket s destroy_socket.

(** [socket.write(chunk)]. *)
Definition socket_write (s : Socket_id) (chunk : Buffer) : State -> State :=
  set_wire (fun w => w ++ [(s, chunk)]).

(** ** The class [Channel] *)

(** [init(socket)]. *)
Definition init (socket : Socket_id) (st : State) : State :=
  set_priv_buffer <[socket := Buffer_from ""]> st.

(** [this.emit('record', units, socket)]. *)
Definition emit_record (units : list string) (socket : Socket_id) : State -> State :=
  set_emitted (fun l => l ++ [(units, socket)]).

(** [#findRecordSeparator(socket)]. *)
Definition priv_findRecordSeparator (socket : Socket_id) (st : State) : Result Z :=
  match priv_buffer st !! socket with
  | Some buffered => Ok (Buffer_indexOf buffered (RECORD_SEPARATOR (config st))) st
  | None => Throw (TypeError "Cannot read properties of undefined (reading 'indexOf')") st
  end.

(** The generator [decode(socket, buffer)], in two parts.  [decode_enter] is
    the statement before the loop; [decode_next] is one turn of the loop, up
    to its [yield] ([Some units]) or to the end of the generator ([None]). *)
Definition decode_enter (socket : Socket_id) (buffer : Buffer) (st : State) : Result unit :=
  match priv_buffer st !! socket with
  | Some buffered =>
      Ok tt (set_priv_buffer <[socket := Buffer_concat [buffered; buffer]]> st)
  | None =>
      Throw (TypeError "Cannot read properties of undefined (reading 'length')") st
  end.

Definition decode_next (socket : Socket_id) (st : State) : Result (option (list string)) :=
  and_then (priv_findRecordSeparator socket st) (fun index st =>
    if index =? -1 then Ok None st
    else
      match priv_buffer st !! socket with
      | Some buffered =>
          let record := Buffer_slice buffered 0 index in
          let units := String_split (Buffer_toString record) (UNIT_SEPARATOR (config st)) in
          Ok (Some units)
             (set_priv_buffer <[socket := Buffer_slice_from buffered (index + 1)]> st)
      | None => Throw (TypeError "Cannot read properties of undefined (reading 'slice')") st
      end).

(** The number of turns after which a loop over the buffer of [socket] that
    has not ended never will: every turn that yields removes at least one
    byte, unless the record separator is empty. *)
Definition turns (socket : Socket_id) (st : State) : nat :=
  S (length (default [] (priv_buffer st !! socket))).

(** The generator run to its end: all the records it yields. *)
Fixpoint decode_loop (fuel : nat) (socket : Socket_id) (st : State) : Result (list (list string)) :=
  match fuel with
  | O => Diverges
  | S fuel' =>
      and_then (decode_next socket st) (fun y st =>
        match y with
        | None => Ok [] st
        | Some units =>
            and_then (decode_loop fuel' socket st) (fun rest st => Ok (units :: rest) st)
        end)
  end.

Definition decode (socket : Socket_id) (buffer : Buffer) (st : State) : Result (list (list string)) :=
  and_then (decode_enter socket buffer st) (fun _ st =>
    decode_loop (turns socket st) socket st).

(** [buffer(socket, buffer)]: the [for ... of] over the generator, emitting
    after every [yield]. *)
Fixpoint buffer_loop (fuel : nat) (socket : Socket_id) (st : State) : Result unit :=
  match fuel with
  | O => Diverges
  | S fuel' =>
      and_then (decode_next socket st) (fun y st =>
        match y with
        | None => Ok tt st
        | Some units => buffer_loop fuel' socket (emit_record units socket st)
        end)
  end.

Definition buffer (socket : Socket_id) (buffer : Buffer) (st : State) : Result unit :=
  and_then (decode_enter socket buffer st) (fun _ st =>
    buffer_loop (turns socket st) socket st).

(** *** Transmitting *)

Definition E_TRANSMIT : string := "E_TCP_RECORD_CHANNEL_TRANSMIT".
Definition E_BROADCAST : string := "E_TCP_RECORD_CHANNEL_BROADCAST".
Definition E_CLIENT_CONNECT : string := "E_TCP_RECORD_CHANNEL_CLIENT_CONNECT".
Definition E_CLOSED_BEFORE_READY : string := "E_TCP_RECORD_CHANNEL_CLOSED_BEFORE_READY".
Definition E_INVALID_READY_SIGNAL : string := "E_TCP_RECORD_CHANNEL_INVALID_READY_SIGNAL".

(** The error [#transmit] builds for a socket that is not writable. *)
Definition transmit_error (socket : Socket_id) : Error :=
  mkError "Could not write record to socket" (Some E_TRANSMIT)
    (Some (CauseText "Socket is not writable")) None
    (Some {| value := socket; enumerable := false;
             writable_flag := false; configurable := false |}).

(** [#transmit(socket, record)]. *)
Definition priv_transmit (socket : Socket_id) (record : Buffer) (st : State) : Result unit :=
  match sockets st !! socket with
  | None => Throw (TypeError "Cannot read properties of undefined (reading 'writable')") st
  | Some sk =>
      if writable sk
      then Ok tt (socket_write socket record st)
      else Throw (transmit_error socket) st
  end.

(** [transmit(socket, units)]. *)
Definition transmit (socket : Socket_id) (units : list string) (st : State) : Result unit :=
  let record := encode (config st) units in
  match priv_transmit socket record st with
  | Throw error st' =>
      if decide (code error = Some E_TRANSMIT)
      then Throw (set_record units error) st'
      else Throw error st'
  | r => r
  end.

Definition broadcast_error (units : list string) (reasons : list Error) : Error :=
  mkError "Could not broadcast record to all sockets" (Some E_BROADCAST)
    (Some (CauseErrors reasons)) (Some units) None.

(** The [for ... of] of [broadcast], with its [try] and [catch]. *)
Fixpoint broadcast_loop (record : Buffer) (sockets : list Socket_id)
    (reasons : list Error) (st : State) : Result (list Error) :=
  match sockets with
  | [] => Ok reasons st
  | socket :: rest =>
      match priv_transmit socket record st with
      | Ok _ st' => broadcast_loop record rest reasons st'
      | Throw reason st' => broadcast_loop record rest (reasons ++ [reason]) st'
      | Diverges => Diverges
      end
  end.

(** [broadcast(sockets, units)]. *)
Definition broadcast (sockets : list Socket_id) (units : list string) (st : State) : Result unit :=
  let record := encode (config st) units in
  and_then (broadcast_loop record sockets [] st) (fun reasons st =>
    match reasons with
    | [] => Ok tt st
    | _ :: _ => Throw (broadcast_error units reasons) st
    end).

(** *** Accepting a connection *)

(** [onConnection(plugin, socket)].  The plugin is the caller's authorization
    callback; it acts on the socket it is given and the method goes on when
    it has completed. *)
Definition onConnection (plugin : option (Socket -> Socket)) (socket : Socket_id)
    (st : State) : Result unit :=
  let st := match plugin with
            | Some f => update_socket socket f st
            | None => st
            end in
  match sockets st !! socket with
  | None => Throw (TypeError "Cannot read properties of undefined (reading 'authorized')") st
  | Some sk =>
      if authorized sk
      then
        let st := init socket st in
        let st := socket_on socket ev_data buffer_bound st in
        let st := socket_setKeepAlive socket (KEEP_ALIVE (config st)) st in
        let st := socket_resume socket st in
        priv_transmit socket (Buffer_from (START_OF_TRANSMISSION (config st))) st
      else Ok tt (socket_destroy socket st)
  end.

(** *** Connecting as a client *)

(** [net.connect(config)] and [tls.connect(config)]: a new socket object. *)
Definition connect (st : State) : Socket_id * State :=
  let socket := fresh (dom (sockets st)) in
  (socket, set_sockets <[socket := new_socket]> st).

(** The [reject] and [accept] of the promise: a settled promise stays. *)
Definition settle (socket : Socket_id) (outcome : Promise) : State -> State :=
  set_promises (alter (fun p => match p with Pending => outcome | _ => p end) socket).

Definition reject (socket : Socket_id) (e : Error) : State -> State :=
  settle socket (Rejected e).

Definition accept (socket : Socket_id) : State -> State :=
  settle socket (Fulfilled socket).

Definition client_connect_error (m : string) (c : Error) : Error :=
  mkError m (Some E_CLIENT_CONNECT) (Some (CauseError c)) None None.

Definition closed_before_ready : Error :=
  mkError "Connection closed before ready" (Some E_CLOSED_BEFORE_READY) None None None.

Definition invalid_ready_signal (b : Buffer) : Error :=
  mkError ("Invalid ready signal: " +:+ Buffer_toString b)
    (Some E_INVALID_READY_SIGNAL) None None None.

(** [#createClient(config, connect)]: the body of the promise's executor.
    The promise is filed under the socket it is about. *)
Definition priv_createClient (connect : State -> Socket_id * State) (st : State)
    : Socket_id * State :=
  let '(socket, st) := connect st in
  let st := set_promises <[socket := Pending]> st in
  let st := init socket st in
  let st := socket_setKeepAlive socket (KEEP_ALIVE (config st)) st in
  let st := socket_once socket ev_close client_on_close st in
  let st := socket_once socket ev_error client_on_error st in
  let st := socket_once socket ev_data client_on_data st in
  (socket, st).

Definition createTlsClient : State -> Socket_id * State := priv_createClient connect.
Definition createNetClient : State -> Socket_id * State := priv_createClient connect.

(** *** Events of a socket *)

(** The argument an event hands to its listeners. *)
Inductive Payload : Type :=
| with_data (chunk : Buffer)
| with_nothing
| with_reason (reason : Error).

(** The bodies of the listeners.  A listener is only ever registered under
    the event whose argument it expects; on any other it does nothing. *)
Definition call_listener (f : Listener) (socket : Socket_id) (arg : Payload)
    (st : State) : Result unit :=
  match f, arg with
  | buffer_bound, with_data chunk => buffer socket chunk st
  | client_on_close, _ =>
      Ok tt (reject socket
               (client_connect_error "Could not connect to server" closed_before_ready) st)
  | client_on_error, with_reason reason =>
      Ok tt (reject socket
               (client_connect_error "Error when connecting to server" reason) st)
  | client_on_data, with_data chunk =>
      let st := socket_pause socket st in
      if String.eqb (START_OF_TRANSMISSION (config st)) (Buffer_toString chunk)
      then
        let st := socket_removeAllListeners socket ev_close st in
        let st := socket_removeAllListeners socket ev_error st in
        let st := socket_on socket ev_data buffer_bound st in
        let st := socket_resume socket st in
        Ok tt (accept socket st)
      else
        let st := socket_destroy socket st in
        Ok tt (reject socket
                 (client_connect_error "Server not ready" (invalid_ready_signal chunk)) st)
  | _, _ => Ok tt st
  end.

(** Taking a [once] registration off the list: the first equal entry. *)
Fixpoint remove_first (r : Registration) (l : list Registration) : list Registration :=
  match l with
  | [] => []
  | x :: l' => if decide (x = r) then l' else x :: remove_first r l'
  end.

(** [socket.emit(name, arg)]: the listeners registered when the event fires
    are called in order; a [once] listener is taken off before its call. *)
Fixpoint call_all (rs : list Registration) (socket : Socket_id) (arg : Payload)
    (st : State) : Result unit :=
  match rs with
  | [] => Ok tt st
  | r :: rest =>
      let st := if reg_once r
                then update_socket socket (with_listeners (remove_first r)) st
                else st in
      and_then (call_listener (reg_listener r) socket arg st) (fun _ st =>
        call_all rest socket arg st)
  end.

Definition socket_emit (socket : Socket_id) (name : EventName) (arg : Payload)
    (st : State) : Result unit :=
  match sockets st !! socket with
  | None => Ok tt st
  | Some sk =>
      call_all (filter (fun r => reg_event r = name) (listeners sk)) socket arg st
  end.

(** What the transport and the servers do to the program.  [Arrive] queues a
    chunk on a live socket; [Flow] hands the oldest queued chunk to the 'data'
    listeners of a flowing socket; [Close] and [Fail] end the socket and fire
    'close' and 'error'; [Connection] is the 'connection' or
    'secureConnection' event of a server made by [createNetServer] or
    [createTlsServer]. *)
Inductive Transport : Type :=
| Arrive (s : Socket_id) (chunk : Buffer)
| Flow (s : Socket_id)
| Close (s : Socket_id)
| Fail (s : Socket_id) (reason : Error)
| Connection (plugin : option (Socket -> Socket)) (s : Socket_id).

Definition step (ev : Transport) (st : State) : Result unit :=
  match ev with
  | Arrive s chunk =>
      Ok tt (update_socket s
               (fun sk => if destroyed sk then sk
                          else with_unread (fun q => q ++ [chunk]) sk) st)
  | Flow s =>
      match sockets st !! s with
      | None => Ok tt st
      | Some sk =>
          if destroyed sk then Ok tt st
          else match readableFlowing sk, unread sk with
               | Some true, chunk :: rest =>
                   socket_emit s ev_data (with_data chunk)
                     (update_socket s (with_unread (fun _ => rest)) st)
               | _, _ => Ok tt st
               end
      end
  | Close s => socket_emit s ev_close with_nothing (socket_destroy s st)
  | Fail s reason => socket_emit s ev_error (with_reason reason) (socket_destroy s st)
  | Connection plugin s => onConnection plugin s st
  end.

(** A sequence of events, until one of them throws. *)
Fixpoint run (evs : list Transport) (st : State) : Result unit :=
  match evs with
  | [] => Ok tt st
  | ev :: rest => and_then (step ev st) (fun _ st => run rest st)
  end.

(** * The vocabulary of the properties *)

(** [String.prototype.includes], to say which units are free of a separator. *)
Fixpoint String_includes (s sub : string) : bool :=
  startsWith s sub ||
  match s with
  | EmptyString => false
  | String _ s' => String_includes s' sub
  end.

(** No unit contains the record separator or the unit separator. *)
Definition separator_free (cfg : Config) (units : list string) : bool :=
  forallb (fun u => negb (String_includes u (RECORD_SEPARATOR cfg))
                    && negb (String_includes u (UNIT_SEPARATOR cfg))) units.

(** What a byte sequence holds when it is cut at every occurrence of the
    byte [r]: the complete frames, in order, and the unfinished rest.  This
    is the description the loop of [decode] is compared with. *)
Fixpoint frames (r : byte) (b : Buffer) : list Buffer * Buffer :=
  match b with
  | [] => ([], [])
  | x :: b' =>
      let '(ps, rest) := frames r b' in
      if Byte.eqb x r then ([] :: ps, rest)
      else match ps with
           | [] => ([], x :: rest)
           | p :: ps' => ((x :: p) :: ps', rest)
           end
  end.

(** The units of one frame. *)
Definition units_of (cfg : Config) (frame : Buffer) : list string :=
  String_split (Buffer_toString frame) (UNIT_SEPARATOR cfg).

(** The two separators are one byte each, and differ. *)
Definition distinct_single_bytes (cfg : Config) : bool :=
  (String.length (RECORD_SEPARATOR cfg) =? 1)%nat
  && (String.length (UNIT_SEPARATOR cfg) =? 1)%nat
  && negb (String.eqb (RECORD_SEPARATOR cfg) (UNIT_SEPARATOR cfg)).

(** A change of state carried under the outcome of a call. *)
Definition map_state {A} (f : State -> State) (r : Result A) : Result A :=
  match r with
  | Ok a st => Ok a (f st)
  | Throw e st => Throw e (f st)
  | Diverges => Diverges
  end.

(** The 'record' events of one call of [buffer] that yields [recs]. *)
Definition notifications (s : Socket_id) (recs : list (list string))
    : list (list string * Socket_id) :=
  map (fun units => (units, s)) recs.

(** [decode] called once per chunk, in order: all the records yielded. *)
Fixpoint decode_each (s : Socket_id) (chunks : list Buffer) (st : State)
    : Result (list (list string)) :=
  match chunks with
  | [] => Ok [] st
  | chunk :: rest =>
      and_then (decode s chunk st) (fun recs st =>
        and_then (decode_each s rest st) (fun more st => Ok (recs ++ more) st))
  end.

(** The socket is an object of the store. *)
Definition is_socket (st : State) (s : Socket_id) : bool :=
  match sockets st !! s with
  | Some _ => true
  | None => false
  end.

(** [socket.writable], read in the state [st]. *)
Definition is_writable (st : State) (s : Socket_id) : bool :=
  match sockets st !! s with
  | Some sk => writable sk
  | None => false
  end.

(** The records the channel has emitted for the socket [s]. *)
Definition records_for (s : Socket_id) (l : list (list string * Socket_id))
    : list (list string) :=
  map fst (filter (fun p => p.2 = s) l).

(** From [st] to [st'] only the buffer of [s'] and the records emitted for
    [s'] have changed. *)
Definition touches_only (s' : Socket_id) (st st' : State) : Prop :=
  config st' = config st
  /\ sockets st' = sockets st
  /\ promises st' = promises st
  /\ wire st' = wire st
  /\ (forall s, s ≠ s' -> priv_buffer st' !! s = priv_buffer st !! s)
  /\ (forall s, s ≠ s' -> records_for s (emitted st') = records_for s (emitted st)).

(** A plugin of the kind the tests use: [(socket) => socket.authorized = b]. *)
Definition set_authorized (b : bool) (sk : Socket) : Socket :=
  {| authorized := b; writable := writable sk; destroyed := destroyed sk;
     readableFlowing := readableFlowing sk; keepAlive := keepAlive sk;
     listeners := listeners sk; unread := unread sk |}.

(** The socket is in the store, it has no reassembly buffer, and no record
    has been emitted for it. *)
Definition quiet (s : Socket_id) (st : State) : Prop :=
  is_socket st s = true
  /\ priv_buffer st !! s = None
  /\ records_for s (emitted st) = [].

(** The socket is destroyed and not writable. *)
Definition dead (s : Socket_id) (st : State) : Prop :=
  exists sk, sockets st !! s = Some sk /\ destroyed sk = true /\ writable sk = false.

(** No event of the list is a server's connection event for [s]. *)
Definition no_connection (s : Socket_id) (evs : list Transport) : bool :=
  forallb (fun ev => match ev with
                     | Connection _ s' => negb (Nat.eqb s' s)
                     | _ => true
                     end) evs.

(** The function keeps a destroyed socket destroyed and unwritable. *)
Definition keeps_dead (g : Socket -> Socket) : Prop :=
  forall sk, destroyed sk = true -> writable sk = false ->
             destroyed (g sk) = true /\ writable (g sk) = false.

(** An event other than a connection event for [s]. *)
Definition not_connection_for (s : Socket_id) (ev : Transport) : Prop :=
  match ev with
  | Connection _ s' => s' ≠ s
  | _ => True
  end.

(** The four registrations the class makes on a socket. *)
Definition close_registration : Registration :=
  {| reg_event := ev_close; reg_once := true; reg_listener := client_on_close |}.

Definition error_registration : Registration :=
  {| reg_event := ev_error; reg_once := true; reg_listener := client_on_error |}.

Definition data_registration : Registration :=
  {| reg_event := ev_data; reg_once := true; reg_listener := client_on_data |}.

Definition buffer_registration : Registration :=
  {| reg_event := ev_data; reg_once := false; reg_listener := buffer_bound |}.

(** The client socket as [#createClient] leaves it, and as the 'data'
    listener leaves it once the marker has come. *)
Definition connecting_socket (cfg : Config) : Socket :=
  {| authorized := false; writable := true; destroyed := false;
     readableFlowing := Some true; keepAlive := Some (KEEP_ALIVE cfg);
     listeners := [close_registration; error_registration; data_registration];
     unread := [] |}.

Definition ready_socket (cfg : Config) : Socket :=
  {| authorized := false; writable := true; destroyed := false;
     readableFlowing := Some true; keepAlive := Some (KEEP_ALIVE cfg);
     listeners := [buffer_registration];
     unread := [] |}.

(** The three errors [#createClient] rejects its promise with, written out
    with their messages and codes, and those of their causes. *)
Definition closed_rejection : Error :=
  mkError "Could not connect to server"
    (Some "E_TCP_RECORD_CHANNEL_CLIENT_CONNECT")
    (Some (CauseError
             (mkError "Connection closed before ready"
                (Some "E_TCP_RECORD_CHANNEL_CLOSED_BEFORE_READY") None None None)))
    None None.

Definition invalid_rejection (chunk : Buffer) : Error :=
  mkError "Server not ready"
    (Some "E_TCP_RECORD_CHANNEL_CLIENT_CONNECT")
    (Some (CauseError
             (mkError ("Invalid ready signal: " +:+ Buffer_toString chunk)
                (Some "E_TCP_RECORD_CHANNEL_INVALID_READY_SIGNAL") None None None)))
    None None.

Definition failed_rejection (reason : Error) : Error :=
  mkError "Error when connecting to server"
    (Some "E_TCP_RECORD_CHANNEL_CLIENT_CONNECT")
    (Some (CauseError reason))
    None None.

(** The socket an event is about. *)
Definition event_socket (ev : Transport) : Socket_id :=
  match ev with
  | Arrive s _ => s
  | Flow s => s
  | Close s => s
  | Fail s _ => s
  | Connection _ s => s
  end.

(** The chunks that have arrived for [s], in order. *)
Fixpoint arrivals (s : Socket_id) (evs : list Transport) : list Buffer :=
  match evs with
  | [] => []
  | Arrive s' chunk :: evs' =>
      if decide (s' = s) then chunk :: arrivals s evs' else arrivals s evs'
  | _ :: evs' => arrivals s evs'
  end.

(** An event that closes or fails the socket [s]. *)
Definition ends (s : Socket_id) (ev : Transport) : Prop :=
  ev = Close s \/ exists reason, ev = Fail s reason.

(** The client socket while it waits for the marker, with the chunks that
    have arrived and that no 'data' event has handed out. *)
Definition connecting_with (cfg : Config) (queued : list Buffer) : Socket :=
  with_unread (fun _ => queued) (connecting_socket cfg).

(** An error the promise of the client socket [s] can hold after the events
    [seen]: the closed-before-ready rejection, and the socket has closed; or
    the invalid-ready-signal rejection for the first chunk that arrived, which
    is not the marker, and the socket is destroyed; or the rejection whose
    cause is a reason the transport has reported for [s], as it was
    reported. *)
Definition rejection_ok (s : Socket_id) (cfg : Config) (seen : list Transport)
    (st : State) (e : Error) : Prop :=
  (e = closed_rejection /\ Close s ∈ seen)
  \/ (exists chunk,
        e = invalid_rejection chunk
        /\ head (arrivals s seen) = Some chunk
        /\ Buffer_toString chunk ≠ START_OF_TRANSMISSION cfg
        /\ dead s st)
  \/ (exists reason, e = failed_rejection reason /\ Fail s reason ∈ seen).

(** What the promise of the client socket [s] can hold after the events
    [seen].  Pending: the socket has neither closed nor failed, it still
    carries the three listeners of [#createClient], and every chunk that has
    arrived is queued on it.  Fulfilled: with the socket itself, and the first
    chunk that arrived is the marker.  Rejected: as above. *)
Definition promise_ok (s : Socket_id) (cfg : Config) (seen : list Transport)
    (st : State) (p : Promise) : Prop :=
  match p with
  | Pending =>
      sockets st !! s = Some (connecting_with cfg (arrivals s seen))
      /\ Forall (fun ev => ~ ends s ev) seen
  | Fulfilled s' =>
      s' = s
      /\ exists chunk,
           head (arrivals s seen) = Some chunk
           /\ Buffer_toString chunk = START_OF_TRANSMISSION cfg
  | Rejected e => rejection_ok s cfg seen st e
  end.

(** The configuration is [cfg] and the promise of [s] is as it can be. *)
Definition client_inv (s : Socket_id) (cfg : Config) (seen : list Transport)
    (st : State) : Prop :=
  config st = cfg
  /\ exists p, promises st !! s = Some p /\ promise_ok s cfg seen st p.

(** The configuration, the socket [s] and its promise are the same in the
    two states. *)
Definition leaves_alone (s : Socket_id) (st st' : State) : Prop :=
  config st' = config st
  /\ sockets st' !! s = sockets st !! s
  /\ promises st' !! s = promises st !! s.

(** The chunks delivered one after the other: each arrives and is handed to
    the 'data' listeners before the next. *)
Fixpoint deliveries (s : Socket_id) (chunks : list Buffer) : list Transport :=
  match chunks with
  | [] => []
  | chunk :: rest => Arrive s chunk :: Flow s :: deliveries s rest
  end.

(** [buffer] called once per chunk, in order. *)
Fixpoint buffer_each (s : Socket_id) (chunks : list Buffer) (st : State) : Result unit :=
  match chunks with
  | [] => Ok tt st
  | chunk :: rest => and_then (buffer s chunk st) (fun _ st => buffer_each s rest st)
  end.

(** The state [st0] with a client socket [s], its promise and its empty
    buffer added. *)
Definition with_client (s : Socket_id) (sk : Socket) (p : Promise) (st0 : State) : State :=
  {| config := config st0;
     priv_buffer := <[s := []]> (priv_buffer st0);
     sockets := <[s := sk]> (sockets st0);
     promises := <[s := p]> (promises st0);
     emitted := emitted st0;
     wire := wire st0 |}.

(** Running the methods on a state whose client socket is known. *)
Ltac exec :=
  repeat first
    [ progress cbn [run step and_then call_all call_listener remove_first final_state
                    sockets promises priv_buffer config emitted wire
                    destroyed readableFlowing unread listeners authorized writable keepAlive
                    reg_once reg_event reg_listener fst snd app]
    | progress unfold update_socket, socket_pause, socket_resume, socket_on, socket_once,
        socket_removeAllListeners, socket_destroy, socket_setKeepAlive, settle, accept,
        reject, init, with_client, connect, priv_createClient, set_sockets, set_promises,
        set_priv_buffer, socket_emit, add_listener, with_unread, with_listeners,
        with_flowing, destroy_socket, new_socket, connecting_socket, ready_socket,
        close_registration, error_registration, data_registration, buffer_registration
    | rewrite alter_insert_eq
    | rewrite lookup_insert_eq
    | rewrite insert_insert_eq
    | rewrite filter_cons
    | rewrite filter_nil
    | rewrite decide_True by reflexivity
    | rewrite decide_False by discriminate ].

(** Running the methods on any state in which the socket of [s] ([Hs]) and
    its promise ([Hp]) are known. *)
Ltac exec_on Hs Hp :=
  repeat first
    [ progress cbn [run step and_then call_all call_listener remove_first final_state
                    sockets promises priv_buffer config emitted wire
                    destroyed readableFlowing unread listeners authorized writable keepAlive
                    reg_once reg_event reg_listener fst snd app
                    fmap option_fmap option_map]
    | progress unfold update_socket, socket_pause, socket_resume, socket_on, socket_once,
        socket_removeAllListeners, socket_destroy, socket_setKeepAlive, settle, accept,
        reject, set_sockets, set_promises, socket_emit, add_listener, with_unread,
        with_listeners, with_flowing, destroy_socket, connecting_with, connecting_socket,
        ready_socket, close_registration, error_registration, data_registration,
        buffer_registration
    | rewrite lookup_alter_eq
    | rewrite Hs
    | rewrite Hp
    | rewrite filter_cons
    | rewrite filter_nil
    | rewrite decide_True by reflexivity
    | rewrite decide_False by discriminate ].

(** The promise of [s] is no longer pending. *)
Definition settled (s : Socket_id) (st : State) : Prop :=
  exists p, promises st !! s = Some p /\ p ≠ Pending.

(** The socket the method goes on with once the plugin has completed. *)
Definition apply_plugin (plugin : option (Socket -> Socket)) (sk : Socket) : Socket :=
  match plugin with
  | Some f => f sk
  | None => sk
  end.

(** Well-formed UTF-8, by the table of the Unicode standard: one byte
    00..7F; two bytes C2..DF 80..BF; three bytes E0 A0..BF 80..BF,
    E1..EC 80..BF 80..BF, ED 80..9F 80..BF, EE..EF 80..BF 80..BF; four bytes
    F0 90..BF 80..BF 80..BF, F1..F3 80..BF 80..BF 80..BF,
    F4 80..8F 80..BF 80..BF.  On such bytes [toString] replaces nothing. *)
Definition in_range (lo hi : N) (x : byte) : bool :=
  ((lo <=? Byte.to_N x) && (Byte.to_N x <=? hi))%N.

Definition is_ascii (x : byte) : bool := in_range 0x00 0x7f x.

Definition continuation (x : byte) : bool := in_range 0x80 0xbf x.

Definition lead2 (x : byte) : bool := in_range 0xc2 0xdf x.

Definition lead3 (x y : byte) : bool :=
  in_range 0xe0 0xe0 x && in_range 0xa0 0xbf y
  || in_range 0xe1 0xec x && continuation y
  || in_range 0xed 0xed x && in_range 0x80 0x9f y
  || in_range 0xee 0xef x && continuation y.

Definition lead4 (x y : byte) : bool :=
  in_range 0xf0 0xf0 x && in_range 0x90 0xbf y
  || in_range 0xf1 0xf3 x && continuation y
  || in_range 0xf4 0xf4 x && in_range 0x80 0x8f y.

Fixpoint well_formed_utf8 (b : Buffer) : bool :=
  match b with
  | [] => true
  | x :: b1 =>
      if is_ascii x then well_formed_utf8 b1
      else
        match b1 with
        | [] => false
        | y :: b2 =>
            if lead2 x then continuation y && well_formed_utf8 b2
            else
              match b2 with
              | [] => false
              | z :: b3 =>
                  if lead3 x y then continuation z && well_formed_utf8 b3
                  else
                    match b3 with
                    | [] => false
                    | w :: b4 =>
                        lead4 x y && continuation z && continuation w
                        && well_formed_utf8 b4
                    end
              end
        end
  end.

(** The string is one ASCII character. *)
Definition single_ascii (s : string) : bool :=
  match s with
  | String c EmptyString => is_ascii (byte_of_ascii c)
  | _ => false
  end.

(** Every unit of every record is well-formed text. *)
Definition well_formed_records (recs : list (list string)) : Prop :=
  Forall (Forall (fun u => well_formed_utf8 (Buffer_from u) = true)) recs.

(** The separator occurs in the buffer at the byte index [i]. *)
Definition occurs_at (needle b : Buffer) (i : nat) : Prop :=
  exists t, drop i b = needle ++ t.

(** * The earlier variant of the class

    [src/unnamed/part_002] is the class before the readiness marker: a
    client socket is usable as soon as it is made, and a server writes
    nothing of its own.  The codec, [init] and [buffer] are the same. *)

Module Immediate.

(** [onConnection(plugin, socket)]. *)
Definition onConnection (plugin : option (Socket -> Socket)) (socket : Socket_id)
    (st : State) : Result unit :=
  let st := match plugin with
            | Some f => update_socket socket f st
            | None => st
            end in
  match sockets st !! socket with
  | None => Throw (TypeError "Cannot read properties of undefined (reading 'authorized')") st
  | Some sk =>
      if authorized sk
      then
        let st := init socket st in
        let st := socket_on socket ev_data buffer_bound st in
        let st := socket_setKeepAlive socket (KEEP_ALIVE (config st)) st in
        Ok tt (socket_resume socket st)
      else Ok tt (socket_destroy socket st)
  end.

(** [createTlsClient(config)] and [createNetClient(config)]. *)
Definition createTlsClient (st : State) : Socket_id * State :=
  let '(socket, st) := connect st in
  let st := init socket st in
  let st := socket_on socket ev_data buffer_bound st in
  let st := socket_setKeepAlive socket (KEEP_ALIVE (config st)) st in
  (socket, st).

Definition createNetClient (st : State) : Socket_id * State :=
  let '(socket, st) := connect st in
  let st := init socket st in
  let st := socket_on socket ev_data buffer_bound st in
  let st := socket_setKeepAlive socket (KEEP_ALIVE (config st)) st in
  (socket, st).

End Immediate.

(** The state [st0] with a socket [s] and its buffer [b] added. *)
Definition with_socket (s : Socket_id) (sk : Socket) (b : Buffer) (st0 : State) : State :=
  {| config := config st0;
     priv_buffer := <[s := b]> (priv_buffer st0);
     sockets := <[s := sk]> (sockets st0);
     promises := promises st0;
     emitted := emitted st0;
     wire := wire st0 |}.

(** The socket [onConnection] leaves when it has admitted [sk]. *)
Definition admitted_socket (cfg : Config) (sk : Socket) : Socket :=
  {| authorized := authorized sk; writable := writable sk; destroyed := destroyed sk;
     readableFlowing := Some true; keepAlive := Some (KEEP_ALIVE cfg);
     listeners := listeners sk ++ [buffer_registration];
     unread := unread sk |}.

(** * Properties *)

(** ** Strings and buffers *)

Section StringFacts.

Lemma list_ascii_app (a b : string) :
  list_ascii_of_string (a +:+ b) = list_ascii_of_string a ++ list_ascii_of_string b.
Proof. induction a as [|c a IH]; simpl; [reflexivity | now rewrite IH]. Qed.

Lemma Buffer_from_app (a b : string) :
  Buffer_from (a +:+ b) = Buffer_from a ++ Buffer_from b.
Proof.
  unfold Buffer_from, list_byte_of_string.
  now rewrite list_ascii_app, map_app.
Qed.

Lemma Buffer_from_char (c : ascii) :
  Buffer_from (String c EmptyString) = [byte_of_ascii c].
Proof. reflexivity. Qed.

Lemma length_Buffer_from (s : string) :
  length (Buffer_from s) = String.length s.
Proof.
  unfold Buffer_from, list_byte_of_string. rewrite length_map.
  induction s as [|c s IH]; simpl; [reflexivity | now rewrite IH].
Qed.

Lemma Buffer_toString_from (s : string) : Buffer_toString (Buffer_from s) = s.
Proof. apply string_of_list_byte_of_string. Qed.

Lemma byte_of_ascii_inj (a b : ascii) : byte_of_ascii a = byte_of_ascii b -> a = b.
Proof.
  intros H. rewrite <- (ascii_of_byte_of_ascii a), <- (ascii_of_byte_of_ascii b).
  now rewrite H.
Qed.

Lemma elem_of_Buffer_from (c : ascii) (s : string) :
  byte_of_ascii c ∈ Buffer_from s <-> c ∈ list_ascii_of_string s.
Proof.
  unfold Buffer_from, list_byte_of_string. rewrite list_elem_of_fmap. split.
  - intros (a & Heq & Hin). apply byte_of_ascii_inj in Heq. now subst.
  - intros Hin. now exists c.
Qed.

Lemma String_includes_char (c : ascii) (s : string) :
  String_includes s (String c EmptyString) = false <-> c ∉ list_ascii_of_string s.
Proof.
  induction s as [|a s IH]; simpl.
  - split; [intros _; apply not_elem_of_nil | reflexivity].
  - rewrite not_elem_of_cons, <- IH.
    destruct (Ascii.eqb_spec c a) as [->|Hne]; simpl.
    + destruct s; simpl; split; intros H; try discriminate; now destruct H.
    + tauto.
Qed.

Lemma length_string_1 (s : string) :
  String.length s = 1%nat -> exists c, s = String c EmptyString.
Proof.
  destruct s as [|c [|d s]]; simpl; intros H; try discriminate. now exists c.
Qed.

End StringFacts.

(** ** Searching and slicing with a one-byte separator *)

Section BufferFacts.

Lemma bytes_startWith_single (r x : byte) (b : Buffer) :
  bytes_startWith (x :: b) [r] = Byte.eqb r x.
Proof.
  cbn [bytes_startWith]. destruct (Byte.eqb r x); [now destruct b | reflexivity].
Qed.

Lemma byte_eqb_refl (r : byte) : Byte.eqb r r = true.
Proof. now apply byte_dec_lb. Qed.

Lemma byte_eqb_neq (r x : byte) : r ≠ x -> Byte.eqb r x = false.
Proof.
  intros Hne. destruct (Byte.eqb r x) eqn:E; [|reflexivity].
  now apply byte_dec_bl in E.
Qed.

Lemma indexOf_at_found (r : byte) (p t : Buffer) (off : Z) :
  r ∉ p -> indexOf_at [r] (p ++ r :: t) off = off + Z.of_nat (length p).
Proof.
  revert off. induction p as [|x p IH]; intros off Hp.
  - cbn [app indexOf_at]. rewrite bytes_startWith_single, byte_eqb_refl.
    simpl. lia.
  - apply not_elem_of_cons in Hp as [Hx Hp].
    cbn [app indexOf_at]. rewrite bytes_startWith_single, byte_eqb_neq by assumption.
    rewrite IH by assumption. simpl length. lia.
Qed.

Lemma indexOf_at_absent (r : byte) (b : Buffer) (off : Z) :
  r ∉ b -> indexOf_at [r] b off = -1.
Proof.
  revert off. induction b as [|x b IH]; intros off Hb; [reflexivity|].
  apply not_elem_of_cons in Hb as [Hx Hb].
  cbn [indexOf_at]. rewrite bytes_startWith_single, byte_eqb_neq by assumption.
  now apply IH.
Qed.

Lemma clamp_index_inside (len i : Z) : 0 <= i <= len -> clamp_index len i = i.
Proof.
  intros H. unfold clamp_index. destruct (Z.ltb_spec i 0); lia.
Qed.

Lemma Buffer_slice_prefix (p t : Buffer) :
  Buffer_slice (p ++ t) 0 (Z.of_nat (length p)) = p.
Proof.
  unfold Buffer_slice. rewrite length_app.
  rewrite !clamp_index_inside by lia.
  rewrite Z.sub_0_r, Nat2Z.id. change (Z.to_nat 0) with O.
  rewrite drop_0. now rewrite take_app_length.
Qed.

Lemma Buffer_slice_from_suffix (p : Buffer) (x : byte) (t : Buffer) :
  Buffer_slice_from (p ++ x :: t) (Z.of_nat (length p) + 1) = t.
Proof.
  unfold Buffer_slice_from, Buffer_slice.
  rewrite length_app. simpl length.
  rewrite !clamp_index_inside by lia.
  replace (Z.to_nat (Z.of_nat (length p) + 1)) with (length p + 1)%nat by lia.
  replace (Z.to_nat (Z.of_nat (length p + S (length t)) - (Z.of_nat (length p) + 1)))
    with (length t) by lia.
  rewrite <- drop_drop, drop_app_length. simpl. rewrite drop_0.
  apply firstn_all.
Qed.

(** A buffer either holds the byte, after a first stretch without it, or
    does not hold it at all. *)
Lemma first_occurrence (r : byte) (b : Buffer) :
  r ∉ b \/ exists p t, b = p ++ r :: t /\ r ∉ p.
Proof.
  induction b as [|x b IH].
  - left. apply not_elem_of_nil.
  - destruct (Byte.eqb r x) eqn:E.
    + apply byte_dec_bl in E. subst x. right. exists [], b. split; [reflexivity|].
      apply not_elem_of_nil.
    + apply eqb_false in E. destruct IH as [Hb | (p & t & -> & Hp)].
      * left. now apply not_elem_of_cons.
      * right. exists (x :: p), t. split; [reflexivity|].
        now apply not_elem_of_cons.
Qed.

End BufferFacts.

(** ** Splitting on a one-character separator *)

Section SplitFacts.

Lemma split_scan_nonempty (sep : string) (skip : nat) (s : string) :
  split_scan sep skip s ≠ [].
Proof.
  revert skip. induction s as [|c s IH]; intros skip; cbn [split_scan]; [discriminate|].
  destruct skip; [|apply IH].
  destruct (startsWith (String c s) sep); [discriminate|].
  destruct (split_scan sep 0 s); discriminate.
Qed.

Lemma String_split_nonempty (s sep : string) :
  sep ≠ EmptyString -> String_split s sep ≠ [].
Proof.
  destruct sep; [congruence|]. intros _. apply split_scan_nonempty.
Qed.

Lemma split_scan_absent (u : ascii) (x : string) :
  u ∉ list_ascii_of_string x ->
  split_scan (String u EmptyString) 0 x = [x].
Proof.
  induction x as [|c x IH]; simpl; intros Hx; [reflexivity|].
  apply not_elem_of_cons in Hx as [Hc Hx].
  destruct (Ascii.eqb_spec u c) as [->|_]; [congruence|].
  now rewrite IH.
Qed.

Lemma split_scan_cut (u : ascii) (x rest : string) :
  u ∉ list_ascii_of_string x ->
  split_scan (String u EmptyString) 0 (x +:+ String u rest)
  = x :: split_scan (String u EmptyString) 0 rest.
Proof.
  induction x as [|c x IH]; simpl; intros Hx.
  - rewrite Ascii.eqb_refl. now destruct rest.
  - apply not_elem_of_cons in Hx as [Hc Hx].
    destruct (Ascii.eqb_spec u c) as [->|_]; [congruence|].
    now rewrite IH.
Qed.

Lemma String_split_join (u : ascii) (units : list string) :
  units ≠ [] ->
  Forall (fun x => u ∉ list_ascii_of_string x) units ->
  String_split (Array_join (String u EmptyString) units) (String u EmptyString) = units.
Proof.
  unfold String_split. induction units as [|x units IH]; [congruence|].
  intros _ Hall. apply Forall_cons in Hall as [Hx Hall].
  destruct units as [|y units].
  - simpl. now apply split_scan_absent.
  - cbn [Array_join]. change (String u "" +:+ ?s) with (String u s).
    rewrite split_scan_cut by assumption. f_equal. now apply IH.
Qed.

Lemma Array_join_free (c u : ascii) (units : list string) :
  c ≠ u ->
  Forall (fun x => c ∉ list_ascii_of_string x) units ->
  c ∉ list_ascii_of_string (Array_join (String u EmptyString) units).
Proof.
  intros Hcu. induction units as [|x units IH]; intros Hall.
  - apply not_elem_of_nil.
  - apply Forall_cons in Hall as [Hx Hall]. destruct units as [|y units]; [assumption|].
    cbn [Array_join]. rewrite list_ascii_app. apply not_elem_of_app. split; [assumption|].
    change (String u "" +:+ ?s) with (String u s). cbn [list_ascii_of_string].
    apply not_elem_of_cons. split; [assumption|]. now apply IH.
Qed.

End SplitFacts.

(** ** The decoding loop against a direct description of the frames *)

Section FrameFacts.

Variable r : byte.

Lemma frames_absent (b : Buffer) : r ∉ b -> frames r b = ([], b).
Proof.
  induction b as [|x b IH]; intros Hb; [reflexivity|].
  apply not_elem_of_cons in Hb as [Hx Hb].
  cbn [frames]. rewrite IH by assumption.
  now rewrite byte_eqb_neq by congruence.
Qed.

Lemma frames_found (p t : Buffer) :
  r ∉ p -> frames r (p ++ r :: t) = (p :: (frames r t).1, (frames r t).2).
Proof.
  induction p as [|x p IH]; intros Hp.
  - cbn [app frames]. rewrite byte_eqb_refl. now destruct (frames r t).
  - apply not_elem_of_cons in Hp as [Hx Hp].
    cbn [app frames]. rewrite IH by assumption.
    now rewrite byte_eqb_neq by congruence.
Qed.

Lemma frames_app (b c : Buffer) :
  frames r (b ++ c)
  = ((frames r b).1 ++ (frames r ((frames r b).2 ++ c)).1,
     (frames r ((frames r b).2 ++ c)).2).
Proof.
  remember (length b) as n eqn:Hn. revert b Hn.
  induction n as [n IH] using lt_wf_ind. intros b Hn.
  destruct (first_occurrence r b) as [Hb | (p & t & -> & Hp)].
  - rewrite (frames_absent b Hb). simpl. now destruct (frames r (b ++ c)).
  - rewrite <- app_assoc, <- app_comm_cons.
    rewrite !frames_found by assumption. cbn [fst snd].
    rewrite (IH (length t)) with (b := t); [reflexivity | | reflexivity].
    subst n. rewrite length_app. simpl. lia.
Qed.

Lemma frames_rest_free (b : Buffer) : r ∉ (frames r b).2.
Proof.
  induction b as [|x b IH]; [apply not_elem_of_nil|].
  cbn [frames]. destruct (frames r b) as [ps rest]. simpl in IH.
  destruct (Byte.eqb x r) eqn:E; [assumption|].
  apply eqb_false in E.
  destruct ps; simpl; [|assumption].
  apply not_elem_of_cons. split; [congruence | assumption].
Qed.

(** A sequence of finished frames followed by an unfinished one. *)
Lemma frames_concat (ps : list Buffer) (rest : Buffer) :
  Forall (fun p => r ∉ p) ps -> r ∉ rest ->
  frames r (concat (map (fun p => p ++ [r]) ps) ++ rest) = (ps, rest).
Proof.
  intros Hps Hrest. induction Hps as [|p ps Hp _ IH].
  - simpl. now apply frames_absent.
  - cbn [map concat]. rewrite <- !app_assoc. cbn [app].
    rewrite frames_found by assumption. now rewrite IH.
Qed.

End FrameFacts.

Section StateFacts.

Lemma set_priv_buffer_insert_id (s : Socket_id) (b : Buffer) (st : State) :
  priv_buffer st !! s = Some b -> set_priv_buffer <[s := b]> st = st.
Proof.
  intros H. destruct st. unfold set_priv_buffer. simpl in *.
  now rewrite insert_id.
Qed.

Lemma set_priv_buffer_insert_insert (s : Socket_id) (b1 b2 : Buffer) (st : State) :
  set_priv_buffer <[s := b2]> (set_priv_buffer <[s := b1]> st)
  = set_priv_buffer <[s := b2]> st.
Proof.
  destruct st. unfold set_priv_buffer. simpl. now rewrite insert_insert_eq.
Qed.

End StateFacts.

Section DecodeFacts.

Variable s : Socket_id.
Variable c : ascii.

Lemma decode_next_absent (st : State) (b : Buffer) :
  RECORD_SEPARATOR (config st) = String c EmptyString ->
  priv_buffer st !! s = Some b ->
  byte_of_ascii c ∉ b ->
  decode_next s st = Ok None st.
Proof.
  intros Hrs Hb Hfree. unfold decode_next, priv_findRecordSeparator.
  rewrite Hb, Hrs. cbn [and_then]. unfold Buffer_indexOf.
  rewrite Buffer_from_char, indexOf_at_absent by assumption. reflexivity.
Qed.

Lemma decode_next_found (st : State) (p t : Buffer) :
  RECORD_SEPARATOR (config st) = String c EmptyString ->
  priv_buffer st !! s = Some (p ++ byte_of_ascii c :: t) ->
  byte_of_ascii c ∉ p ->
  decode_next s st
  = Ok (Some (units_of (config st) p)) (set_priv_buffer <[s := t]> st).
Proof.
  intros Hrs Hb Hfree. unfold decode_next, priv_findRecordSeparator.
  rewrite Hb, Hrs. cbn [and_then]. unfold Buffer_indexOf.
  rewrite Buffer_from_char, indexOf_at_found by assumption.
  rewrite Z.add_0_l.
  destruct (Z.eqb_spec (Z.of_nat (length p)) (-1)) as [E|_]; [lia|].
  rewrite Hb, Buffer_slice_prefix, Buffer_slice_from_suffix. reflexivity.
Qed.

(** With a one-byte record separator the loop ends within [length b + 1]
    turns, having yielded the units of every finished frame and kept the
    unfinished rest. *)
Lemma decode_loop_frames (fuel : nat) (st : State) (b : Buffer) :
  RECORD_SEPARATOR (config st) = String c EmptyString ->
  priv_buffer st !! s = Some b ->
  (length b < fuel)%nat ->
  decode_loop fuel s st
  = Ok (map (units_of (config st)) (frames (byte_of_ascii c) b).1)
       (set_priv_buffer <[s := (frames (byte_of_ascii c) b).2]> st).
Proof.
  revert st b. induction fuel as [|fuel IH]; intros st b Hrs Hb Hlen; [lia|].
  cbn [decode_loop].
  destruct (first_occurrence (byte_of_ascii c) b) as [Hfree | (p & t & -> & Hp)].
  - rewrite (decode_next_absent st b), (frames_absent _ b) by assumption.
    cbn [and_then fst snd map]. now rewrite set_priv_buffer_insert_id.
  - rewrite (decode_next_found st p t), frames_found by assumption.
    cbn [and_then fst snd map].
    rewrite (IH (set_priv_buffer <[s := t]> st) t).
    + cbn [and_then]. now rewrite set_priv_buffer_insert_insert.
    + assumption.
    + destruct st; simpl. apply lookup_insert_eq.
    + rewrite length_app in Hlen. simpl in Hlen. lia.
Qed.

Lemma decode_frames (st : State) (b chunk : Buffer) :
  RECORD_SEPARATOR (config st) = String c EmptyString ->
  priv_buffer st !! s = Some b ->
  decode s chunk st
  = Ok (map (units_of (config st)) (frames (byte_of_ascii c) (b ++ chunk)).1)
       (set_priv_buffer <[s := (frames (byte_of_ascii c) (b ++ chunk)).2]> st).
Proof.
  intros Hrs Hb. unfold decode, decode_enter. rewrite Hb. cbn [and_then].
  unfold Buffer_concat. cbn [concat]. rewrite app_nil_r.
  rewrite (decode_loop_frames _ _ (b ++ chunk)).
  - now rewrite set_priv_buffer_insert_insert.
  - destruct st; assumption.
  - destruct st; simpl. apply lookup_insert_eq.
  - unfold turns. destruct st; simpl. rewrite lookup_insert_eq. simpl. lia.
Qed.

End DecodeFacts.

(** ** Hypotheses on the configuration *)

Section ConfigFacts.

Lemma distinct_single_bytes_spec (cfg : Config) :
  distinct_single_bytes cfg = true ->
  exists c u, RECORD_SEPARATOR cfg = String c EmptyString
              /\ UNIT_SEPARATOR cfg = String u EmptyString /\ c ≠ u.
Proof.
  unfold distinct_single_bytes. intros H.
  apply andb_prop in H as [H Hne]. apply andb_prop in H as [Hr Hu].
  apply Nat.eqb_eq, length_string_1 in Hr as [c Hc].
  apply Nat.eqb_eq, length_string_1 in Hu as [u Hu].
  exists c, u. repeat split; try assumption.
  rewrite Hc, Hu in Hne. intros ->. now rewrite String.eqb_refl in Hne.
Qed.

Lemma separator_free_spec (cfg : Config) (c u : ascii) (units : list string) :
  RECORD_SEPARATOR cfg = String c EmptyString ->
  UNIT_SEPARATOR cfg = String u EmptyString ->
  separator_free cfg units = true ->
  Forall (fun x => c ∉ list_ascii_of_string x) units
  /\ Forall (fun x => u ∉ list_ascii_of_string x) units.
Proof.
  intros Hc Hu. unfold separator_free. rewrite Hc, Hu.
  induction units as [|x units IH]; intros H; [split; constructor|].
  cbn [forallb] in H. apply andb_prop in H as [Hx H].
  apply andb_prop in Hx as [Hxc Hxu].
  apply negb_true_iff, String_includes_char in Hxc.
  apply negb_true_iff, String_includes_char in Hxu.
  destruct (IH H). split; now constructor.
Qed.

(** The encoding of separator-free units is one frame, then the separator. *)
Lemma encode_one_frame (cfg : Config) (c u : ascii) (units : list string) :
  RECORD_SEPARATOR cfg = String c EmptyString ->
  UNIT_SEPARATOR cfg = String u EmptyString ->
  c ≠ u ->
  separator_free cfg units = true ->
  encode cfg units
  = Buffer_from (Array_join (UNIT_SEPARATOR cfg) units) ++ [byte_of_ascii c]
  /\ byte_of_ascii c ∉ Buffer_from (Array_join (UNIT_SEPARATOR cfg) units).
Proof.
  intros Hc Hu Hne Hfree.
  destruct (separator_free_spec cfg c u units Hc Hu Hfree) as [Hfc _].
  split.
  - unfold encode. now rewrite Buffer_from_app, Hc, Buffer_from_char.
  - rewrite elem_of_Buffer_from, Hu. now apply Array_join_free.
Qed.

Lemma units_of_join (cfg : Config) (c u : ascii) (units : list string) :
  RECORD_SEPARATOR cfg = String c EmptyString ->
  UNIT_SEPARATOR cfg = String u EmptyString ->
  separator_free cfg units = true ->
  (0 < length units)%nat ->
  units_of cfg (Buffer_from (Array_join (UNIT_SEPARATOR cfg) units)) = units.
Proof.
  intros Hc Hu Hfree Hlen.
  destruct (separator_free_spec cfg c u units Hc Hu Hfree) as [_ Hfu].
  unfold units_of. rewrite Buffer_toString_from, Hu.
  apply String_split_join; [|assumption].
  destruct units; simpl in Hlen; [lia | discriminate].
Qed.

End ConfigFacts.

(** ** The codec: round trip, packing, fragmentation *)

(** C1, as the code has it: with two distinct one-byte separators, for every
    non-empty sequence of units free of both, decoding the encoding from an
    empty buffer yields exactly the one record [units], and the buffer is
    empty again (the state is the one before the call). *)
Theorem roundtrip_nonempty (st : State) (s : Socket_id) (units : list string) :
  distinct_single_bytes (config st) = true ->
  separator_free (config st) units = true ->
  (0 < length units)%nat ->
  priv_buffer st !! s = Some [] ->
  decode s (encode (config st) units) st = Ok [units] st
  /\ priv_buffer st !! s = Some [].
Proof.
  intros Hcfg Hfree Hlen Hb. split; [|assumption].
  destruct (distinct_single_bytes_spec _ Hcfg) as (c & u & Hc & Hu & Hne).
  destruct (encode_one_frame _ c u units Hc Hu Hne Hfree) as [Henc Hin].
  rewrite (decode_frames s c st [] _ Hc Hb). cbn [app].
  rewrite Henc.
  rewrite (frames_found _ _ [] Hin). cbn [frames fst snd map].
  rewrite (units_of_join _ c u) by assumption.
  now rewrite set_priv_buffer_insert_id.
Qed.

Lemma roundtrip_nonempty_witness :
  let st := init 0%nat (new_Channel None) in
  decode 0%nat (encode (config st) ["client"; "test"; "123"]) st
    = Ok [["client"; "test"; "123"]] st
  /\ priv_buffer st !! 0%nat = Some [].
Proof.
  apply (roundtrip_nonempty (init 0%nat (new_Channel None)) 0%nat
           ["client"; "test"; "123"]).
  - reflexivity.
  - reflexivity.
  - simpl. lia.
  - reflexivity.
Defined.

(** C1 as stated fails for the empty sequence of units: its encoding decodes
    to the record with one empty unit. *)
Lemma roundtrip_empty_units_differs :
  let st := init 0%nat (new_Channel None) in
  distinct_single_bytes (config st) = true
  /\ separator_free (config st) [] = true
  /\ priv_buffer st !! 0%nat = Some []
  /\ decode 0%nat (encode (config st) []) st = Ok [[""]] st
  /\ decode 0%nat (encode (config st) []) st ≠ Ok [[]] st.
Proof.
  repeat split; try reflexivity.
  vm_compute. discriminate.
Qed.

(** ** [buffer] emits what [decode] yields *)

Section BufferDecode.

Variable s : Socket_id.

Lemma decode_next_set_emitted f (st : State) :
  decode_next s (set_emitted f st) = map_state (set_emitted f) (decode_next s st).
Proof.
  unfold decode_next, priv_findRecordSeparator. destruct st as [cfg pb sk pr em wi].
  cbn [set_emitted priv_buffer config].
  destruct (pb !! s) as [b|] eqn:E; cbn [and_then map_state]; [|reflexivity].
  destruct (Buffer_indexOf b (RECORD_SEPARATOR cfg) =? -1); [reflexivity|].
  cbv beta iota delta [priv_buffer set_emitted]. rewrite E. reflexivity.
Qed.

Lemma decode_loop_set_emitted f (fuel : nat) (st : State) :
  decode_loop fuel s (set_emitted f st)
  = map_state (set_emitted f) (decode_loop fuel s st).
Proof.
  revert st. induction fuel as [|fuel IH]; intros st; [reflexivity|].
  cbn [decode_loop]. rewrite decode_next_set_emitted.
  destruct (decode_next s st) as [[units|] st1 | e st1 |]; cbn [map_state and_then];
    try reflexivity.
  rewrite IH. now destruct (decode_loop fuel s st1).
Qed.

Lemma buffer_loop_decode_loop (fuel : nat) (st st' : State) recs :
  decode_loop fuel s st = Ok recs st' ->
  buffer_loop fuel s st
  = Ok tt (set_emitted (fun l => l ++ notifications s recs) st').
Proof.
  revert st st' recs. induction fuel as [|fuel IH]; intros st st' recs; [discriminate|].
  cbn [decode_loop buffer_loop].
  destruct (decode_next s st) as [[units|] st1 | e st1 |]; cbn [and_then];
    try discriminate.
  - destruct (decode_loop fuel s st1) as [rest st2 | |] eqn:E; cbn [and_then];
      try discriminate.
    intros [= <- <-].
    rewrite (IH (emit_record units s st1) (emit_record units s st2) rest).
    + f_equal. destruct st2. unfold set_emitted, emit_record. cbn.
      now rewrite <- app_assoc.
    + unfold emit_record. now rewrite decode_loop_set_emitted, E.
  - intros [= <- <-]. f_equal. destruct st1. unfold set_emitted. cbn.
    now rewrite app_nil_r.
Qed.

Lemma buffer_decode (chunk : Buffer) (st st' : State) recs :
  decode s chunk st = Ok recs st' ->
  buffer s chunk st = Ok tt (set_emitted (fun l => l ++ notifications s recs) st').
Proof.
  unfold decode, buffer.
  destruct (decode_enter s chunk st) as [[] st1 | |]; cbn [and_then]; try discriminate.
  apply buffer_loop_decode_loop.
Qed.

End BufferDecode.

(** C4, as the code has it: [encode([])] is the record separator alone, one
    byte; decoded from an empty buffer it yields one record, and that record
    has one unit, the empty string. *)
Theorem zero_units_decode_to_one_empty_unit (st : State) (s : Socket_id) :
  String.length (RECORD_SEPARATOR (config st)) = 1%nat ->
  UNIT_SEPARATOR (config st) ≠ "" ->
  priv_buffer st !! s = Some [] ->
  encode (config st) [] = Buffer_from (RECORD_SEPARATOR (config st))
  /\ length (encode (config st) []) = 1%nat
  /\ decode s (encode (config st) []) st = Ok [[""]] st.
Proof.
  intros Hlen Hus Hb.
  destruct (length_string_1 _ Hlen) as [c Hc].
  split; [reflexivity|]. split.
  - unfold encode. cbn [Array_join]. now rewrite Hc.
  - rewrite (decode_frames s c st [] _ Hc Hb). unfold encode. cbn [Array_join app].
    rewrite Hc. change (Buffer_from ("" +:+ String c "")) with ([] ++ [byte_of_ascii c]).
    rewrite frames_found by apply not_elem_of_nil.
    cbn [frames fst snd map]. rewrite set_priv_buffer_insert_id by assumption.
    unfold units_of, String_split. cbn.
    destruct (UNIT_SEPARATOR (config st)); [congruence | reflexivity].
Qed.

Lemma zero_units_decode_to_one_empty_unit_witness :
  let st := init 7%nat (new_Channel None) in
  encode (config st) [] = Buffer_from (RECORD_SEPARATOR (config st))
  /\ length (encode (config st) []) = 1%nat
  /\ decode 7%nat (encode (config st) []) st = Ok [[""]] st.
Proof.
  apply (zero_units_decode_to_one_empty_unit (init 7%nat (new_Channel None)) 7%nat).
  - reflexivity.
  - discriminate.
  - reflexivity.
Defined.

(** C4 as stated fails: the record decoded from [encode([])] is not the
    record without units. *)
Lemma zero_units_do_not_round_trip :
  let st := init 0%nat (new_Channel None) in
  priv_buffer st !! 0%nat = Some []
  /\ encode (config st) [] = Buffer_from (RECORD_SEPARATOR (config st))
  /\ forall st', decode 0%nat (encode (config st) []) st ≠ Ok [[]] st'.
Proof.
  repeat split. intros st'. vm_compute. discriminate.
Qed.

(** ** The layout of an encoded record *)

Section EncodeFacts.

Lemma length_string_app (a b : string) :
  String.length (a +:+ b) = (String.length a + String.length b)%nat.
Proof. induction a as [|c a IH]; simpl; [reflexivity | now rewrite IH]. Qed.

Lemma length_Array_join (sep : string) (units : list string) :
  (0 < length units)%nat ->
  String.length (Array_join sep units)
  = (sum_list (map String.length units) + (length units - 1) * String.length sep)%nat.
Proof.
  induction units as [|x units IH]; simpl length; [lia|]. intros _.
  destruct units as [|y units].
  - simpl. lia.
  - change (Array_join sep (x :: y :: units))
      with (x +:+ sep +:+ Array_join sep (y :: units)).
    rewrite !length_string_app, IH by (simpl; lia).
    cbn [map sum_list length]. unfold id.
    replace (S (S (length units)) - 1)%nat with (S (length units)) by lia.
    replace (S (length units) - 1)%nat with (length units) by lia.
    rewrite Nat.mul_succ_l. lia.
Qed.

End EncodeFacts.

(** C5: [encode(units)] is the units joined by the unit separator, followed
    by one record separator, and depends on nothing but the configuration and
    the units.  With one-byte separators its length is the sum of the lengths
    of the units, plus one byte between any two neighbours, plus the
    terminator; without units it is the terminator alone. *)
Theorem encode_layout (cfg : Config) (units : list string) :
  String.length (RECORD_SEPARATOR cfg) = 1%nat ->
  String.length (UNIT_SEPARATOR cfg) = 1%nat ->
  encode cfg units
  = Buffer_from (Array_join (UNIT_SEPARATOR cfg) units)
    ++ Buffer_from (RECORD_SEPARATOR cfg)
  /\ (units = [] ->
      encode cfg units = Buffer_from (RECORD_SEPARATOR cfg)
      /\ length (encode cfg units) = 1%nat)
  /\ ((0 < length units)%nat ->
      Z.of_nat (length (encode cfg units))
      = Z.of_nat (sum_list (map String.length units))
        + (Z.of_nat (length units) - 1) + 1).
Proof.
  intros Hr Hu. split; [apply Buffer_from_app|]. split.
  - intros ->. split; [reflexivity|].
    unfold encode. cbn [Array_join]. now rewrite length_Buffer_from.
  - intros Hlen. unfold encode.
    rewrite length_Buffer_from, length_string_app, length_Array_join by assumption.
    rewrite Hr, Hu. lia.
Qed.

Lemma encode_layout_witness :
  let cfg := default_config in
  let units := ["client"; "test"; "123"] in
  encode cfg units
  = Buffer_from (Array_join (UNIT_SEPARATOR cfg) units)
    ++ Buffer_from (RECORD_SEPARATOR cfg)
  /\ (units = [] ->
      encode cfg units = Buffer_from (RECORD_SEPARATOR cfg)
      /\ length (encode cfg units) = 1%nat)
  /\ ((0 < length units)%nat ->
      Z.of_nat (length (encode cfg units))
      = Z.of_nat (sum_list (map String.length units))
        + (Z.of_nat (length units) - 1) + 1).
Proof.
  apply (encode_layout default_config ["client"; "test"; "123"]); reflexivity.
Defined.

(** ** Records have at least one unit *)

(** C10: every record [decode] yields, and so every 'record' event [buffer]
    emits, has at least one unit; [encode([])] and [encode([''])] are the same
    bytes, and both decode to the one record [['']]. *)
Theorem records_never_empty (st : State) (s : Socket_id) (b chunk : Buffer) :
  String.length (RECORD_SEPARATOR (config st)) = 1%nat ->
  UNIT_SEPARATOR (config st) ≠ "" ->
  priv_buffer st !! s = Some b ->
  (exists recs st',
      decode s chunk st = Ok recs st'
      /\ buffer s chunk st
         = Ok tt (set_emitted (fun l => l ++ notifications s recs) st')
      /\ Forall (fun units => (0 < length units)%nat) recs)
  /\ encode (config st) [] = encode (config st) [""]
  /\ (b = [] ->
      decode s (encode (config st) []) st = Ok [[""]] st
      /\ decode s (encode (config st) [""]) st = Ok [[""]] st).
Proof.
  intros Hlen Hus Hb.
  destruct (length_string_1 _ Hlen) as [c Hc].
  split; [|split; [reflexivity|]].
  - eexists _, _. split; [apply (decode_frames s c st b chunk Hc Hb)|].
    split; [apply buffer_decode, (decode_frames s c st b chunk Hc Hb)|].
    apply Forall_forall. intros units Hin.
    apply list_elem_of_fmap in Hin as (frame & -> & _). unfold units_of.
    pose proof (String_split_nonempty (Buffer_toString frame) _ Hus) as Hne.
    destruct (String_split _ _); [congruence | simpl; lia].
  - intros ->.
    assert (decode s (encode (config st) []) st = Ok [[""]] st) as H.
    { rewrite (decode_frames s c st [] _ Hc Hb). unfold encode. cbn [Array_join app].
      rewrite Hc. change (Buffer_from ("" +:+ String c "")) with ([] ++ [byte_of_ascii c]).
      rewrite frames_found by apply not_elem_of_nil.
      cbn [frames fst snd map]. rewrite set_priv_buffer_insert_id by assumption.
      unfold units_of, String_split. cbn.
      destruct (UNIT_SEPARATOR (config st)); [congruence | reflexivity]. }
    split; [exact H | exact H].
Qed.

Lemma records_never_empty_witness :
  let st := init 3%nat (new_Channel None) in
  let chunk := Buffer_from "a" ++ encode (config st) [] ++ encode (config st) ["b"; "c"] in
  (exists recs st',
      decode 3%nat chunk st = Ok recs st'
      /\ buffer 3%nat chunk st
         = Ok tt (set_emitted (fun l => l ++ notifications 3%nat recs) st')
      /\ Forall (fun units => (0 < length units)%nat) recs)
  /\ encode (config st) [] = encode (config st) [""]
  /\ (@nil byte = [] ->
      decode 3%nat (encode (config st) []) st = Ok [[""]] st
      /\ decode 3%nat (encode (config st) [""]) st = Ok [[""]] st).
Proof.
  intros st chunk.
  apply (records_never_empty (init 3%nat (new_Channel None)) 3%nat [] chunk).
  - reflexivity.
  - discriminate.
  - reflexivity.
Defined.

(** ** Several records, several chunks *)

Section Chunks.

Variable s : Socket_id.
Variable c : ascii.

Lemma Buffer_indexOf_absent (b : Buffer) :
  Buffer_indexOf b (String c EmptyString) = -1 <-> byte_of_ascii c ∉ b.
Proof.
  unfold Buffer_indexOf. rewrite Buffer_from_char. split.
  - intros H. destruct (first_occurrence (byte_of_ascii c) b) as [Hb | (p & t & -> & Hp)];
      [assumption|].
    rewrite indexOf_at_found in H by assumption. lia.
  - apply indexOf_at_absent.
Qed.

Lemma decode_each_concat (chunks : list Buffer) (st : State) (b : Buffer) :
  RECORD_SEPARATOR (config st) = String c EmptyString ->
  priv_buffer st !! s = Some b ->
  byte_of_ascii c ∉ b ->
  decode_each s chunks st = decode s (concat chunks) st.
Proof.
  revert st b. induction chunks as [|chunk rest IH]; intros st b Hc Hb Hfree.
  - cbn [decode_each concat]. rewrite (decode_frames s c st b [] Hc Hb).
    rewrite app_nil_r, frames_absent by assumption. cbn [fst snd map].
    now rewrite set_priv_buffer_insert_id.
  - cbn [decode_each concat].
    rewrite (decode_frames s c st b chunk Hc Hb). cbn [and_then].
    set (rem := (frames (byte_of_ascii c) (b ++ chunk)).2).
    rewrite (IH (set_priv_buffer <[s := rem]> st) rem).
    + rewrite (decode_frames s c _ rem (concat rest)).
      * cbn [and_then]. rewrite set_priv_buffer_insert_insert.
        rewrite (decode_frames s c st b (chunk ++ concat rest) Hc Hb).
        rewrite app_assoc, (frames_app _ (b ++ chunk)). cbn [fst snd].
        fold rem. rewrite map_app. now destruct st.
      * now destruct st.
      * destruct st; simpl. apply lookup_insert_eq.
    + now destruct st.
    + destruct st; simpl. apply lookup_insert_eq.
    + apply frames_rest_free.
Qed.

End Chunks.

(** C2: however the encoding of separator-free units is cut into chunks,
    decoding the chunks one call after the other from an empty buffer gives
    what decoding the whole encoding in one call gives, and that is a single
    record (the units themselves when there is at least one).  More generally
    a call that completes no record keeps every byte, and calls over chunks
    continue from what was kept: from any buffer left by earlier calls they
    yield what one call on the concatenation yields. *)
Theorem fragmentation_independence (st : State) (s : Socket_id)
    (units : list string) (chunks : list Buffer) :
  distinct_single_bytes (config st) = true ->
  separator_free (config st) units = true ->
  priv_buffer st !! s = Some [] ->
  concat chunks = encode (config st) units ->
  decode_each s chunks st = decode s (encode (config st) units) st
  /\ (exists r, decode s (encode (config st) units) st = Ok [r] st
               /\ ((0 < length units)%nat -> r = units))
  /\ (forall st1 b chunk,
        config st1 = config st ->
        priv_buffer st1 !! s = Some b ->
        Buffer_indexOf (b ++ chunk) (RECORD_SEPARATOR (config st)) = -1 ->
        decode s chunk st1 = Ok [] (set_priv_buffer <[s := b ++ chunk]> st1))
  /\ (forall st1 b more,
        config st1 = config st ->
        priv_buffer st1 !! s = Some b ->
        Buffer_indexOf b (RECORD_SEPARATOR (config st)) = -1 ->
        decode_each s more st1 = decode s (concat more) st1).
Proof.
  intros Hcfg Hfree Hb Hcat.
  destruct (distinct_single_bytes_spec _ Hcfg) as (c & u & Hc & Hu & Hne).
  destruct (encode_one_frame _ c u units Hc Hu Hne Hfree) as [Henc Hin].
  repeat split.
  - rewrite <- Hcat. apply (decode_each_concat s c chunks st [] Hc Hb).
    apply not_elem_of_nil.
  - exists (units_of (config st) (Buffer_from (Array_join (UNIT_SEPARATOR (config st)) units))).
    split.
    + rewrite (decode_frames s c st [] _ Hc Hb). cbn [app]. rewrite Henc.
      rewrite (frames_found _ _ [] Hin). cbn [frames fst snd map].
      now rewrite set_priv_buffer_insert_id.
    + intros Hlen. now apply (units_of_join _ c u).
  - intros st1 b chunk Hcfg1 Hb1 Hidx. rewrite Hc in Hidx.
    apply Buffer_indexOf_absent in Hidx.
    rewrite <- Hcfg1 in Hc.
    rewrite (decode_frames s c st1 b chunk Hc Hb1).
    now rewrite frames_absent.
  - intros st1 b more Hcfg1 Hb1 Hidx. rewrite Hc in Hidx.
    apply Buffer_indexOf_absent in Hidx.
    rewrite <- Hcfg1 in Hc.
    now apply (decode_each_concat s c more st1 b).
Qed.

Lemma fragmentation_independence_witness :
  let st := init 0%nat (new_Channel None) in
  let units := ["client"; "test"; "123"] in
  let chunks := [Buffer_from "cli";
                 Buffer_from "ent" ++ Buffer_from (UNIT_SEPARATOR (config st));
                 [];
                 Buffer_from "test" ++ Buffer_from (UNIT_SEPARATOR (config st))
                   ++ Buffer_from "12";
                 Buffer_from "3" ++ Buffer_from (RECORD_SEPARATOR (config st))] in
  decode_each 0%nat chunks st = decode 0%nat (encode (config st) units) st
  /\ (exists r, decode 0%nat (encode (config st) units) st = Ok [r] st
               /\ ((0 < length units)%nat -> r = units))
  /\ (forall st1 b chunk,
        config st1 = config st ->
        priv_buffer st1 !! 0%nat = Some b ->
        Buffer_indexOf (b ++ chunk) (RECORD_SEPARATOR (config st)) = -1 ->
        decode 0%nat chunk st1 = Ok [] (set_priv_buffer <[0%nat := b ++ chunk]> st1))
  /\ (forall st1 b more,
        config st1 = config st ->
        priv_buffer st1 !! 0%nat = Some b ->
        Buffer_indexOf b (RECORD_SEPARATOR (config st)) = -1 ->
        decode_each 0%nat more st1 = decode 0%nat (concat more) st1).
Proof.
  intros st units chunks.
  apply (fragmentation_independence st 0%nat units chunks); reflexivity.
Defined.

(** C3, as the code has it: for non-empty separator-free [A] and [B], one
    call of [decode] on [encode(A) + encode(B)] from an empty buffer yields
    [A] then [B], and [buffer] emits the two 'record' events in that order.
    More generally the records of a call are the units of the frames of the
    byte stream in the order of their terminating separators, and what
    follows the last separator is kept. *)
Theorem packing_in_order (st : State) (s : Socket_id) (A B : list string) :
  distinct_single_bytes (config st) = true ->
  separator_free (config st) A = true ->
  separator_free (config st) B = true ->
  (0 < length A)%nat ->
  (0 < length B)%nat ->
  priv_buffer st !! s = Some [] ->
  decode s (encode (config st) A ++ encode (config st) B) st = Ok [A; B] st
  /\ buffer s (encode (config st) A ++ encode (config st) B) st
     = Ok tt (set_emitted (fun l => l ++ [(A, s); (B, s)]) st)
  /\ (forall (ps : list Buffer) (rest : Buffer),
        Forall (fun p => Buffer_indexOf p (RECORD_SEPARATOR (config st)) = -1) ps ->
        Buffer_indexOf rest (RECORD_SEPARATOR (config st)) = -1 ->
        decode s (concat (map (fun p => p ++ Buffer_from (RECORD_SEPARATOR (config st))) ps)
                  ++ rest) st
        = Ok (map (units_of (config st)) ps) (set_priv_buffer <[s := rest]> st)).
Proof.
  intros Hcfg HA HB HlA HlB Hb.
  destruct (distinct_single_bytes_spec _ Hcfg) as (c & u & Hc & Hu & Hne).
  destruct (encode_one_frame _ c u A Hc Hu Hne HA) as [HencA HinA].
  destruct (encode_one_frame _ c u B Hc Hu Hne HB) as [HencB HinB].
  assert (decode s (encode (config st) A ++ encode (config st) B) st = Ok [A; B] st) as H.
  { rewrite (decode_frames s c st [] _ Hc Hb). cbn [app]. rewrite HencA, HencB.
    rewrite <- app_assoc. cbn [app].
    rewrite (frames_found _ _ _ HinA), (frames_found _ _ [] HinB).
    cbn [frames fst snd map].
    rewrite !(units_of_join _ c u) by assumption.
    now rewrite set_priv_buffer_insert_id. }
  split; [exact H|]. split; [exact (buffer_decode s _ _ _ _ H)|].
  intros ps rest Hps Hrest. rewrite Hc in *.
  apply Buffer_indexOf_absent in Hrest.
  rewrite (decode_frames s c st [] _ Hc Hb). cbn [app].
  rewrite Buffer_from_char, frames_concat; [reflexivity | | assumption].
  eapply Forall_impl; [exact Hps|]. intros p Hp. now apply Buffer_indexOf_absent.
Qed.

Lemma packing_in_order_witness :
  let st := init 0%nat (new_Channel None) in
  let A := ["client"; "test"; "123"] in
  let B := ["server"; ""; "456"] in
  decode 0%nat (encode (config st) A ++ encode (config st) B) st = Ok [A; B] st
  /\ buffer 0%nat (encode (config st) A ++ encode (config st) B) st
     = Ok tt (set_emitted (fun l => l ++ [(A, 0%nat); (B, 0%nat)]) st)
  /\ (forall (ps : list Buffer) (rest : Buffer),
        Forall (fun p => Buffer_indexOf p (RECORD_SEPARATOR (config st)) = -1) ps ->
        Buffer_indexOf rest (RECORD_SEPARATOR (config st)) = -1 ->
        decode 0%nat
          (concat (map (fun p => p ++ Buffer_from (RECORD_SEPARATOR (config st))) ps)
           ++ rest) st
        = Ok (map (units_of (config st)) ps) (set_priv_buffer <[0%nat := rest]> st)).
Proof.
  intros st A B.
  apply (packing_in_order st 0%nat A B); try reflexivity; simpl; lia.
Defined.

(** C3 as stated fails when one of the two records has no unit: the record
    decoded in its place has one empty unit. *)
Lemma packing_with_zero_units_differs :
  let st := init 0%nat (new_Channel None) in
  let A := [] in
  let B := ["x"] in
  distinct_single_bytes (config st) = true
  /\ separator_free (config st) A = true
  /\ separator_free (config st) B = true
  /\ priv_buffer st !! 0%nat = Some []
  /\ decode 0%nat (encode (config st) A ++ encode (config st) B) st = Ok [[""]; B] st
  /\ forall st', decode 0%nat (encode (config st) A ++ encode (config st) B) st
                 ≠ Ok [A; B] st'.
Proof.
  repeat split. intros st'. vm_compute. discriminate.
Qed.

(** ** Transmit and broadcast *)

(** C7: [transmit] throws the transmit error exactly when the socket is not
    writable at the call; the error then carries the socket in a
    non-enumerable property and the units in [record], and nothing is
    written.  On a writable socket the encoded record is written once and the
    call returns. *)
Theorem transmit_fails_iff_not_writable (st : State) (s : Socket_id) (sk : Socket)
    (units : list string) :
  sockets st !! s = Some sk ->
  (writable sk = true ->
     transmit s units st = Ok tt (socket_write s (encode (config st) units) st)
     /\ wire (socket_write s (encode (config st) units) st)
        = wire st ++ [(s, encode (config st) units)])
  /\ (writable sk = false ->
      exists e,
        transmit s units st = Throw e st
        /\ code e = Some E_TRANSMIT
        /\ record e = Some units
        /\ socket e = Some {| value := s; enumerable := false;
                              writable_flag := false; configurable := false |})
  /\ ((exists e st', transmit s units st = Throw e st' /\ code e = Some E_TRANSMIT)
      <-> writable sk = false).
Proof.
  intros Hs. unfold transmit, priv_transmit. rewrite Hs.
  destruct (writable sk) eqn:W.
  - split; [intros _; split; reflexivity|]. split; [discriminate|].
    split; [|discriminate]. intros (e & st' & H & _). discriminate.
  - split; [discriminate|]. split.
    + intros _. eexists. split; [reflexivity|]. repeat split.
    + split; [reflexivity|]. intros _. eexists _, _. split; reflexivity.
Qed.

Lemma transmit_fails_iff_not_writable_witness :
  let st := socket_destroy 1%nat (snd (connect (snd (connect (new_Channel None))))) in
  let sk := destroy_socket new_socket in
  let s := 1%nat in
  let units := ["client"; "test"; "123"] in
  (writable sk = true ->
     transmit s units st = Ok tt (socket_write s (encode (config st) units) st)
     /\ wire (socket_write s (encode (config st) units) st)
        = wire st ++ [(s, encode (config st) units)])
  /\ (writable sk = false ->
      exists e,
        transmit s units st = Throw e st
        /\ code e = Some E_TRANSMIT
        /\ record e = Some units
        /\ socket e = Some {| value := s; enumerable := false;
                              writable_flag := false; configurable := false |})
  /\ ((exists e st', transmit s units st = Throw e st' /\ code e = Some E_TRANSMIT)
      <-> writable sk = false).
Proof.
  intros st sk s units.
  apply (transmit_fails_iff_not_writable st s sk units).
  reflexivity.
Defined.

Section Broadcast.

Variable record_ : Buffer.

Lemma broadcast_loop_all (ss : list Socket_id) (reasons : list Error) (st : State) :
  forallb (is_socket st) ss = true ->
  broadcast_loop record_ ss reasons st
  = Ok (reasons ++ map transmit_error (filter (fun s => is_writable st s = false) ss))
       (set_wire
          (fun w => w ++ map (fun s => (s, record_))
                          (filter (fun s => is_writable st s = true) ss)) st).
Proof.
  revert reasons st. induction ss as [|s ss IH]; intros reasons st Hall.
  - cbn. rewrite app_nil_r. f_equal. destruct st. unfold set_wire. cbn.
    now rewrite app_nil_r.
  - cbn [forallb] in Hall. apply andb_prop in Hall as [Hs Hall].
    unfold is_socket in Hs.
    destruct (sockets st !! s) as [sk|] eqn:Es; [|discriminate].
    assert (is_writable st s = writable sk) as Hw
      by (unfold is_writable; now rewrite Es).
    cbn [broadcast_loop]. unfold priv_transmit. rewrite Es, !filter_cons.
    destruct (writable sk) eqn:W.
    + rewrite (decide_False (P := is_writable st s = false)) by congruence.
      rewrite (decide_True (P := is_writable st s = true)) by assumption.
      rewrite (IH reasons (socket_write s record_ st)) by exact Hall.
      f_equal. destruct st. unfold set_wire, socket_write. cbn.
      now rewrite <- app_assoc.
    + rewrite (decide_True (P := is_writable st s = false)) by assumption.
      rewrite (decide_False (P := is_writable st s = true)) by congruence.
      rewrite (IH (reasons ++ [transmit_error s]) st) by exact Hall.
      cbn [map]. now rewrite <- app_assoc.
Qed.

End Broadcast.

(** C6: [broadcast] encodes once and goes through all the sockets in the
    order given.  Each writable socket gets the encoded record, also after a
    failure on an earlier socket; each socket that is not writable
    contributes its transmit error.  With no failure the call returns; with
    one or more it throws one broadcast error whose [cause] is the list of
    the failures in the order of the sockets and whose [record] is the
    units. *)
Theorem broadcast_attempts_all (st : State) (ss : list Socket_id) (units : list string) :
  forallb (is_socket st) ss = true ->
  let record_ := encode (config st) units in
  let sent := filter (fun s => is_writable st s = true) ss in
  let failed := filter (fun s => is_writable st s = false) ss in
  let st' := set_wire (fun w => w ++ map (fun s => (s, record_)) sent) st in
  wire st' = wire st ++ map (fun s => (s, record_)) sent
  /\ (failed = [] -> broadcast ss units st = Ok tt st')
  /\ (failed ≠ [] ->
      broadcast ss units st
      = Throw (broadcast_error units (map transmit_error failed)) st'
      /\ code (broadcast_error units (map transmit_error failed)) = Some E_BROADCAST
      /\ cause (broadcast_error units (map transmit_error failed))
         = Some (CauseErrors (map transmit_error failed))
      /\ record (broadcast_error units (map transmit_error failed)) = Some units).
Proof.
  intros Hall record_ sent failed st'.
  split; [reflexivity|].
  unfold broadcast. fold record_.
  rewrite (broadcast_loop_all record_ ss [] st Hall). cbn [and_then app].
  fold failed sent st'. split.
  - intros ->. reflexivity.
  - intros Hne. split; [|repeat split].
    destruct (map transmit_error failed) eqn:E; [|reflexivity].
    destruct failed; [congruence | discriminate].
Qed.

(** Three destinations, the second of which is not writable. *)
Lemma broadcast_attempts_all_witness :
  let st := socket_destroy 1%nat
              (snd (connect (snd (connect (snd (connect (new_Channel None))))))) in
  let ss := [0%nat; 1%nat; 2%nat] in
  let units := ["server"; "test"; "456"] in
  let record_ := encode (config st) units in
  let st' := set_wire (fun w => w ++ [(0%nat, record_); (2%nat, record_)]) st in
  wire st' = [(0%nat, record_); (2%nat, record_)]
  /\ broadcast ss units st = Throw (broadcast_error units [transmit_error 1%nat]) st'.
Proof.
  intros st ss units record_ st'.
  destruct (broadcast_attempts_all st ss units) as (Hw & _ & Hthrow);
    [reflexivity|].
  split; [reflexivity|].
  apply Hthrow. discriminate.
Defined.

(** ** What a call may change *)

Section Frame.

Variable s' : Socket_id.

Lemma touches_only_refl (st : State) : touches_only s' st st.
Proof. repeat split. Qed.

Lemma touches_only_trans (st1 st2 st3 : State) :
  touches_only s' st1 st2 -> touches_only s' st2 st3 -> touches_only s' st1 st3.
Proof.
  intros (A1 & A2 & A3 & A4 & A5 & A6) (B1 & B2 & B3 & B4 & B5 & B6).
  repeat split; try congruence.
  - intros s Hs. now rewrite B5, A5.
  - intros s Hs. now rewrite B6, A6.
Qed.

Lemma touches_only_insert (b : Buffer) (st : State) :
  touches_only s' st (set_priv_buffer <[s' := b]> st).
Proof.
  repeat split. intros s Hs. cbn. now rewrite lookup_insert_ne.
Qed.

Lemma touches_only_emit (units : list string) (st : State) :
  touches_only s' st (emit_record units s' st).
Proof.
  repeat split. intros s Hs. cbn. unfold records_for.
  rewrite filter_app, filter_cons, filter_nil.
  rewrite decide_False by (cbn; congruence). now rewrite app_nil_r.
Qed.

Lemma decode_next_touches (st st' : State) :
  final_state (decode_next s' st) = Some st' -> touches_only s' st st'.
Proof.
  unfold decode_next, priv_findRecordSeparator.
  destruct (priv_buffer st !! s') as [b|] eqn:E; cbn [and_then final_state].
  - destruct (_ =? -1); cbn [final_state].
    + intros [= <-]. apply touches_only_refl.
    + rewrite E. cbn [final_state]. intros [= <-]. apply touches_only_insert.
  - intros [= <-]. apply touches_only_refl.
Qed.

Lemma buffer_loop_touches (fuel : nat) (st st' : State) :
  final_state (buffer_loop fuel s' st) = Some st' -> touches_only s' st st'.
Proof.
  revert st. induction fuel as [|fuel IH]; intros st; [discriminate|].
  cbn [buffer_loop].
  pose proof (decode_next_touches st) as Hnext.
  destruct (decode_next s' st) as [[units|] st1 | e st1 |]; cbn [and_then final_state] in *.
  - intros H. apply IH in H.
    eapply touches_only_trans; [apply Hnext; reflexivity|].
    eapply touches_only_trans; [apply touches_only_emit | exact H].
  - intros [= <-]. now apply Hnext.
  - intros [= <-]. now apply Hnext.
  - discriminate.
Qed.

Lemma buffer_touches (chunk : Buffer) (st st' : State) :
  final_state (buffer s' chunk st) = Some st' -> touches_only s' st st'.
Proof.
  unfold buffer, decode_enter.
  destruct (priv_buffer st !! s') as [b|] eqn:E; cbn [and_then final_state].
  - intros H. apply buffer_loop_touches in H.
    eapply touches_only_trans; [apply touches_only_insert | exact H].
  - intros [= <-]. apply touches_only_refl.
Qed.

(** Without [init] there is nothing to append to: the call throws at once. *)
Lemma buffer_without_init (chunk : Buffer) (st st' : State) :
  priv_buffer st !! s' = None ->
  final_state (buffer s' chunk st) = Some st' -> st' = st.
Proof.
  unfold buffer, decode_enter. intros ->. cbn. congruence.
Qed.

End Frame.

(** ** A connection that is refused *)

Section SocketUpdates.

Variable s : Socket_id.

Lemma is_socket_update (s' : Socket_id) (g : Socket -> Socket) (st : State) :
  is_socket (update_socket s' g st) s = is_socket st s.
Proof.
  unfold is_socket, update_socket. cbn.
  destruct (decide (s' = s)) as [->|Hne].
  - rewrite lookup_alter_eq. now destruct (sockets st !! s).
  - now rewrite lookup_alter_ne.
Qed.

Lemma dead_update (s' : Socket_id) (g : Socket -> Socket) (st : State) :
  keeps_dead g -> dead s st -> dead s (update_socket s' g st).
Proof.
  intros Hg (sk & Hsk & Hd & Hw). unfold dead, update_socket. cbn.
  destruct (decide (s' = s)) as [->|Hne].
  - exists (g sk). rewrite lookup_alter_eq, Hsk. split; [reflexivity|]. now apply Hg.
  - exists sk. now rewrite lookup_alter_ne.
Qed.

Lemma dead_update_other (s' : Socket_id) (g : Socket -> Socket) (st : State) :
  s' ≠ s -> dead s st -> dead s (update_socket s' g st).
Proof.
  intros Hne (sk & Hsk & Hd & Hw). exists sk. unfold update_socket. cbn.
  now rewrite lookup_alter_ne.
Qed.

Lemma keeps_dead_add_listener name once f : keeps_dead (add_listener name once f).
Proof.
  intros sk Hd Hw. unfold add_listener.
  destruct name, (readableFlowing sk) as [[]|]; cbn; auto.
Qed.

Lemma keeps_dead_with_listeners g : keeps_dead (with_listeners g).
Proof. intros sk Hd Hw. cbn. auto. Qed.

Lemma keeps_dead_with_flowing b : keeps_dead (with_flowing b).
Proof. intros sk Hd Hw. cbn. auto. Qed.

Lemma keeps_dead_with_unread g : keeps_dead (with_unread g).
Proof. intros sk Hd Hw. cbn. auto. Qed.

Lemma keeps_dead_destroy : keeps_dead destroy_socket.
Proof. intros sk Hd Hw. cbn. auto. Qed.

Lemma dead_setKeepAlive (s' : Socket_id) (delay : Z) (st : State) :
  dead s st -> dead s (socket_setKeepAlive s' delay st).
Proof. apply dead_update. intros sk Hd Hw. cbn. auto. Qed.

Lemma dead_destroyed (s' : Socket_id) (st : State) :
  is_socket st s = true -> dead s (socket_destroy s st).
Proof.
  unfold is_socket, dead, socket_destroy, update_socket. cbn.
  destruct (sockets st !! s) as [sk|] eqn:E; [|discriminate]. intros _.
  exists (destroy_socket sk). rewrite lookup_alter_eq, E. repeat split.
Qed.

End SocketUpdates.

Create HintDb channel.

#[local] Hint Resolve keeps_dead_add_listener keeps_dead_with_listeners
  keeps_dead_with_flowing keeps_dead_with_unread keeps_dead_destroy : channel.

Section Refused.

Variable s : Socket_id.

Lemma quiet_touches (s' : Socket_id) (st st' : State) :
  s' ≠ s -> touches_only s' st st' -> quiet s st -> quiet s st'.
Proof.
  intros Hne (_ & A2 & _ & _ & A5 & A6) (Q1 & Q2 & Q3).
  unfold quiet, is_socket. rewrite A2, A5, A6 by congruence. now repeat split.
Qed.

Lemma dead_touches (s' : Socket_id) (st st' : State) :
  touches_only s' st st' -> dead s st -> dead s st'.
Proof.
  intros (_ & A2 & _) H. unfold dead. now rewrite A2.
Qed.

Lemma quiet_update (s' : Socket_id) (g : Socket -> Socket) (st : State) :
  quiet s st -> quiet s (update_socket s' g st).
Proof.
  intros (Q1 & Q2 & Q3). unfold quiet. rewrite is_socket_update. now repeat split.
Qed.

Lemma buffer_quiet (s' : Socket_id) (chunk : Buffer) (st st' : State) :
  quiet s st -> final_state (buffer s' chunk st) = Some st' -> quiet s st'.
Proof.
  intros Hq H. destruct (decide (s' = s)) as [->|Hne].
  - apply buffer_without_init in H; [now subst | apply Hq].
  - apply buffer_touches in H. now apply (quiet_touches s' st).
Qed.

Lemma call_listener_quiet (f : Listener) (s' : Socket_id) (arg : Payload)
    (st st' : State) :
  quiet s st -> final_state (call_listener f s' arg st) = Some st' -> quiet s st'.
Proof.
  intros Hq. destruct f, arg; cbn [call_listener final_state];
    try (intros [= <-]; exact Hq); try (apply buffer_quiet; exact Hq).
  destruct (String.eqb _ _); cbn [final_state]; intros [= <-];
    unfold accept, reject, settle; repeat apply quiet_update; exact Hq.
Qed.

Lemma call_listener_dead (f : Listener) (s' : Socket_id) (arg : Payload)
    (st st' : State) :
  dead s st -> final_state (call_listener f s' arg st) = Some st' -> dead s st'.
Proof.
  intros Hd. destruct f, arg; cbn [call_listener final_state];
    try (intros [= <-]; exact Hd);
    try (intros H; apply buffer_touches in H; now apply (dead_touches s' st)).
  destruct (String.eqb _ _); cbn [final_state]; intros [= <-];
    unfold accept, reject, settle, socket_destroy, socket_resume, socket_on,
      socket_removeAllListeners, socket_pause;
    repeat (apply dead_update; [auto with channel|]); exact Hd.
Qed.

Lemma call_all_quiet (rs : list Registration) (s' : Socket_id) (arg : Payload)
    (st st' : State) :
  quiet s st -> final_state (call_all rs s' arg st) = Some st' -> quiet s st'.
Proof.
  revert st. induction rs as [|r rs IH]; intros st Hq; cbn [call_all final_state].
  - now intros [= <-].
  - set (st1 := if reg_once r then _ else st).
    assert (quiet s st1) as Hq1
      by (subst st1; destruct (reg_once r); [now apply quiet_update | exact Hq]).
    pose proof (call_listener_quiet (reg_listener r) s' arg st1) as Hcall.
    destruct (call_listener (reg_listener r) s' arg st1) as [[] st2 | e st2 |];
      cbn [and_then final_state] in *.
    + apply IH. now apply Hcall.
    + intros [= <-]. now apply Hcall.
    + discriminate.
Qed.

Lemma call_all_dead (rs : list Registration) (s' : Socket_id) (arg : Payload)
    (st st' : State) :
  dead s st -> final_state (call_all rs s' arg st) = Some st' -> dead s st'.
Proof.
  revert st. induction rs as [|r rs IH]; intros st Hd; cbn [call_all final_state].
  - now intros [= <-].
  - set (st1 := if reg_once r then _ else st).
    assert (dead s st1) as Hd1
      by (subst st1; destruct (reg_once r);
          [apply dead_update; auto with channel | exact Hd]).
    pose proof (call_listener_dead (reg_listener r) s' arg st1) as Hcall.
    destruct (call_listener (reg_listener r) s' arg st1) as [[] st2 | e st2 |];
      cbn [and_then final_state] in *.
    + apply IH. now apply Hcall.
    + intros [= <-]. now apply Hcall.
    + discriminate.
Qed.

Lemma socket_emit_quiet (s' : Socket_id) name (arg : Payload) (st st' : State) :
  quiet s st -> final_state (socket_emit s' name arg st) = Some st' -> quiet s st'.
Proof.
  intros Hq. unfold socket_emit. destruct (sockets st !! s').
  - now apply call_all_quiet.
  - cbn. now intros [= <-].
Qed.

Lemma socket_emit_dead (s' : Socket_id) name (arg : Payload) (st st' : State) :
  dead s st -> final_state (socket_emit s' name arg st) = Some st' -> dead s st'.
Proof.
  intros Hd. unfold socket_emit. destruct (sockets st !! s').
  - now apply call_all_dead.
  - cbn. now intros [= <-].
Qed.

End Refused.

Section RefusedRun.

Variable s : Socket_id.

Lemma priv_transmit_quiet (s' : Socket_id) (chunk : Buffer) (st st' : State) :
  quiet s st -> final_state (priv_transmit s' chunk st) = Some st' -> quiet s st'.
Proof.
  intros Hq. unfold priv_transmit.
  destruct (sockets st !! s') as [sk|]; [destruct (writable sk)|];
    cbn [final_state]; intros [= <-]; exact Hq.
Qed.

Lemma priv_transmit_dead (s' : Socket_id) (chunk : Buffer) (st st' : State) :
  dead s st -> final_state (priv_transmit s' chunk st) = Some st' -> dead s st'.
Proof.
  intros Hd. unfold priv_transmit.
  destruct (sockets st !! s') as [sk|]; [destruct (writable sk)|];
    cbn [final_state]; intros [= <-]; exact Hd.
Qed.

Lemma quiet_init (s' : Socket_id) (st : State) :
  s' ≠ s -> quiet s st -> quiet s (init s' st).
Proof.
  intros Hne. apply (quiet_touches s s'); [assumption|]. apply touches_only_insert.
Qed.

Lemma onConnection_quiet (plugin : option (Socket -> Socket)) (s' : Socket_id)
    (st st' : State) :
  s' ≠ s -> quiet s st ->
  final_state (onConnection plugin s' st) = Some st' -> quiet s st'.
Proof.
  intros Hne Hq. unfold onConnection.
  set (st1 := match plugin with Some f => _ | None => st end).
  assert (quiet s st1) as Hq1
    by (subst st1; destruct plugin; [now apply quiet_update | exact Hq]).
  destruct (sockets st1 !! s') as [sk|]; [|cbn; now intros [= <-]].
  destruct (authorized sk).
  - apply priv_transmit_quiet.
    unfold socket_resume, socket_setKeepAlive, socket_on.
    repeat apply quiet_update. now apply quiet_init.
  - cbn. intros [= <-]. now apply quiet_update.
Qed.

Lemma onConnection_dead (plugin : option (Socket -> Socket)) (s' : Socket_id)
    (st st' : State) :
  s' ≠ s -> dead s st ->
  final_state (onConnection plugin s' st) = Some st' -> dead s st'.
Proof.
  intros Hne Hd. unfold onConnection.
  set (st1 := match plugin with Some f => _ | None => st end).
  assert (dead s st1) as Hd1
    by (subst st1; destruct plugin; [now apply dead_update_other | exact Hd]).
  destruct (sockets st1 !! s') as [sk|]; [|cbn; now intros [= <-]].
  destruct (authorized sk).
  - apply priv_transmit_dead.
    unfold socket_resume, socket_setKeepAlive, socket_on.
    repeat (apply dead_update_other; [assumption|]). exact Hd1.
  - cbn. intros [= <-]. now apply dead_update_other.
Qed.

(** The refusal itself: the socket is destroyed, nothing else is done. *)
Lemma onConnection_refuse (f : Socket -> Socket) (st : State) :
  (forall sk, authorized (f sk) = false) ->
  is_socket st s = true ->
  onConnection (Some f) s st = Ok tt (socket_destroy s (update_socket s f st)).
Proof.
  intros Hf Hs. unfold onConnection, is_socket in *.
  unfold update_socket at 1 2. cbn [sockets set_sockets].
  rewrite lookup_alter_eq.
  destruct (sockets st !! s) as [sk|]; [|discriminate]. cbn. now rewrite Hf.
Qed.

Lemma step_quiet (ev : Transport) (st st' : State) :
  not_connection_for s ev -> quiet s st ->
  final_state (step ev st) = Some st' -> quiet s st'.
Proof.
  intros Hev Hq. destruct ev as [s' chunk | s' | s' | s' reason | plugin s'];
    cbn [step].
  - cbn. intros [= <-]. now apply quiet_update.
  - destruct (sockets st !! s') as [sk|]; [|cbn; now intros [= <-]].
    destruct (destroyed sk); [cbn; now intros [= <-]|].
    destruct (readableFlowing sk) as [[]|]; try (cbn; now intros [= <-]).
    destruct (unread sk); [cbn; now intros [= <-]|].
    apply socket_emit_quiet. now apply quiet_update.
  - apply socket_emit_quiet. now apply quiet_update.
  - apply socket_emit_quiet. now apply quiet_update.
  - now apply onConnection_quiet.
Qed.

Lemma step_dead (ev : Transport) (st st' : State) :
  not_connection_for s ev -> dead s st ->
  final_state (step ev st) = Some st' -> dead s st'.
Proof.
  intros Hev Hd. destruct ev as [s' chunk | s' | s' | s' reason | plugin s'];
    cbn [step].
  - cbn. intros [= <-]. apply dead_update; [|assumption].
    intros sk Hk Hw. rewrite Hk. auto.
  - destruct (sockets st !! s') as [sk|]; [|cbn; now intros [= <-]].
    destruct (destroyed sk); [cbn; now intros [= <-]|].
    destruct (readableFlowing sk) as [[]|]; try (cbn; now intros [= <-]).
    destruct (unread sk); [cbn; now intros [= <-]|].
    apply socket_emit_dead. apply dead_update; auto with channel.
  - apply socket_emit_dead. apply dead_update; auto with channel.
  - apply socket_emit_dead. apply dead_update; auto with channel.
  - now apply onConnection_dead.
Qed.

Lemma no_connection_cons (ev : Transport) (evs : list Transport) :
  no_connection s (ev :: evs) = true ->
  not_connection_for s ev /\ no_connection s evs = true.
Proof.
  unfold no_connection. cbn [forallb]. intros H. apply andb_prop in H as [Hev H].
  split; [|assumption]. destruct ev; cbn; try exact I.
  apply negb_true_iff, Nat.eqb_neq in Hev. exact Hev.
Qed.

Lemma run_quiet (evs : list Transport) (st st' : State) :
  no_connection s evs = true -> quiet s st ->
  final_state (run evs st) = Some st' -> quiet s st'.
Proof.
  revert st. induction evs as [|ev evs IH]; intros st Hno Hq; cbn [run final_state].
  - now intros [= <-].
  - apply no_connection_cons in Hno as [Hev Hno].
    pose proof (step_quiet ev st) as Hstep.
    destruct (step ev st) as [[] st1 | e st1 |]; cbn [and_then final_state] in *.
    + apply IH; [assumption|]. now apply Hstep.
    + intros [= <-]. now apply Hstep.
    + discriminate.
Qed.

Lemma run_dead (evs : list Transport) (st st' : State) :
  no_connection s evs = true -> dead s st ->
  final_state (run evs st) = Some st' -> dead s st'.
Proof.
  revert st. induction evs as [|ev evs IH]; intros st Hno Hd; cbn [run final_state].
  - now intros [= <-].
  - apply no_connection_cons in Hno as [Hev Hno].
    pose proof (step_dead ev st) as Hstep.
    destruct (step ev st) as [[] st1 | e st1 |]; cbn [and_then final_state] in *.
    + apply IH; [assumption|]. now apply Hstep.
    + intros [= <-]. now apply Hstep.
    + discriminate.
Qed.

End RefusedRun.

Lemma run_app (evs1 evs2 : list Transport) (st : State) :
  run (evs1 ++ evs2) st = and_then (run evs1 st) (fun _ st => run evs2 st).
Proof.
  revert st. induction evs1 as [|ev evs1 IH]; intros st; [reflexivity|].
  cbn [app run]. destruct (step ev st) as [[] st1 | |]; cbn [and_then]; auto.
Qed.

(** C9: take a connection a server has accepted, for which the channel has
    no buffer and has emitted nothing, and whose authorization callback
    leaves [authorized] false.  Whatever the transport does before and after
    the server's connection event (chunks arriving, flowing, the socket
    closing or failing, events of other sockets), in any state the program
    reaches no 'record' event has been emitted for the connection and no
    reassembly buffer has been made for it; and once the connection event has
    been handled the socket is destroyed and not writable, for good. *)
Theorem refused_connection_is_discarded (st : State) (s : Socket_id)
    (f : Socket -> Socket) (before after : list Transport) (st' : State) :
  is_socket st s = true ->
  priv_buffer st !! s = None ->
  records_for s (emitted st) = [] ->
  (forall sk, authorized (f sk) = false) ->
  no_connection s before = true ->
  no_connection s after = true ->
  final_state (run (before ++ Connection (Some f) s :: after) st) = Some st' ->
  records_for s (emitted st') = []
  /\ priv_buffer st' !! s = None
  /\ ((exists st1, run before st = Ok tt st1) ->
        is_writable st' s = false
        /\ exists sk, sockets st' !! s = Some sk /\ destroyed sk = true).
Proof.
  intros Hs Hb Hr Hf Hbefore Hafter Hrun.
  assert (quiet s st) as Hq by (repeat split; assumption).
  rewrite run_app in Hrun.
  pose proof (run_quiet s before st) as Hq1.
  destruct (run before st) as [[] st1 | e st1 |]; cbn [and_then final_state] in *.
  - specialize (Hq1 st1 Hbefore Hq eq_refl).
    cbn [run step] in Hrun.
    rewrite (onConnection_refuse s f st1 Hf) in Hrun by apply Hq1.
    cbn [and_then] in Hrun.
    assert (quiet s (socket_destroy s (update_socket s f st1))) as Hq2
      by (unfold socket_destroy; now repeat apply quiet_update).
    assert (dead s (socket_destroy s (update_socket s f st1))) as Hd2.
    { apply dead_destroyed; [exact s|]. rewrite is_socket_update. apply Hq1. }
    pose proof (run_quiet s after _ st' Hafter Hq2 Hrun) as (_ & Q2 & Q3).
    pose proof (run_dead s after _ st' Hafter Hd2 Hrun) as (sk & Hsk & Hd & Hw).
    split; [assumption|]. split; [assumption|]. intros _.
    split; [unfold is_writable; now rewrite Hsk | now exists sk].
  - injection Hrun as <-. destruct (Hq1 st1 Hbefore Hq eq_refl) as (_ & Q2 & Q3).
    split; [assumption|]. split; [assumption|]. intros [st2 [=]].
  - discriminate.
Qed.

(** Bytes arrive while the callback decides and after the refusal; the
    socket even closes. *)
Lemma refused_connection_is_discarded_witness :
  let st := snd (connect (new_Channel None)) in
  let s := 0%nat in
  let f := set_authorized false in
  let before := [Arrive s (encode default_config ["early"]); Flow s] in
  let after := [Arrive s (encode default_config ["late"]); Flow s; Close s; Flow s] in
  exists st',
    final_state (run (before ++ Connection (Some f) s :: after) st) = Some st'
    /\ records_for s (emitted st') = []
    /\ priv_buffer st' !! s = None
    /\ is_writable st' s = false
    /\ exists sk, sockets st' !! s = Some sk /\ destroyed sk = true.
Proof.
  intros st s f before after.
  assert (exists st', final_state (run (before ++ Connection (Some f) s :: after) st)
                      = Some st') as [st' Hrun]
    by (eexists; vm_compute; reflexivity).
  exists st'. split; [exact Hrun|].
  destruct (refused_connection_is_discarded st s f before after st') as (H1 & H2 & H3);
    try reflexivity; try exact Hrun.
  split; [exact H1|]. split; [exact H2|].
  apply H3. eexists. vm_compute. reflexivity.
Defined.

(** ** Connecting as a client: the first event decides *)

Section ClientScenarios.

Variable st0 : State.

Let s : Socket_id := fresh (dom (sockets st0)).

Lemma priv_createClient_state :
  priv_createClient connect st0
  = (s, with_client s (connecting_socket (config st0)) Pending st0).
Proof. subst s. exec. reflexivity. Qed.

Lemma and_then_ret (r : Result unit) : and_then r (fun _ st => Ok tt st) = r.
Proof. destruct r as [[] st | |]; reflexivity. Qed.

Lemma marker_accepted (chunk : Buffer) :
  Buffer_toString chunk = START_OF_TRANSMISSION (config st0) ->
  run [Arrive s chunk; Flow s] (with_client s (connecting_socket (config st0)) Pending st0)
  = Ok tt (with_client s (ready_socket (config st0)) (Fulfilled s) st0).
Proof.
  intros Hm. exec. rewrite Hm, String.eqb_refl. exec. reflexivity.
Qed.

Lemma ready_routes_to_buffer (more : Buffer) :
  run [Arrive s more; Flow s] (with_client s (ready_socket (config st0)) (Fulfilled s) st0)
  = buffer s more (with_client s (ready_socket (config st0)) (Fulfilled s) st0).
Proof.
  exec. rewrite and_then_ret. exec. now rewrite and_then_ret.
Qed.

Lemma mismatch_rejected (chunk : Buffer) :
  Buffer_toString chunk ≠ START_OF_TRANSMISSION (config st0) ->
  exists st2,
    run [Arrive s chunk; Flow s] (with_client s (connecting_socket (config st0)) Pending st0)
    = Ok tt st2
    /\ promises st2 !! s
       = Some (Rejected (client_connect_error "Server not ready"
                           (invalid_ready_signal chunk)))
    /\ dead s st2.
Proof.
  intros Hm. exec. apply not_eq_sym, String.eqb_neq in Hm. rewrite Hm. exec.
  eexists. split; [reflexivity|]. exec. split; [reflexivity|].
  eexists. exec. split; [reflexivity|]. split; reflexivity.
Qed.

Lemma close_rejected :
  exists st2,
    run [Close s] (with_client s (connecting_socket (config st0)) Pending st0) = Ok tt st2
    /\ promises st2 !! s
       = Some (Rejected (client_connect_error "Could not connect to server"
                           closed_before_ready)).
Proof.
  exec. eexists. split; [reflexivity|]. exec. reflexivity.
Qed.

Lemma fail_rejected (reason : Error) :
  exists st2,
    run [Fail s reason] (with_client s (connecting_socket (config st0)) Pending st0)
    = Ok tt st2
    /\ promises st2 !! s
       = Some (Rejected (client_connect_error "Error when connecting to server" reason)).
Proof.
  exec. eexists. split; [reflexivity|]. exec. reflexivity.
Qed.

End ClientScenarios.

(** ** What the server's connection event leaves alone *)

Section ConnectionEvent.

Variable s : Socket_id.

Lemma onConnection_promises (plugin : option (Socket -> Socket)) (s' : Socket_id)
    (st st' : State) :
  final_state (onConnection plugin s' st) = Some st' -> promises st' = promises st.
Proof.
  unfold onConnection.
  destruct plugin; (destruct (sockets _ !! s') as [sk|];
    [destruct (authorized sk); [unfold priv_transmit;
       destruct (sockets _ !! s') as [sk'|]; [destruct (writable sk')|]|]|]);
    cbn; now intros [= <-].
Qed.

Lemma onConnection_sockets (plugin : option (Socket -> Socket)) (s' : Socket_id)
    (st st' : State) :
  s' ≠ s ->
  final_state (onConnection plugin s' st) = Some st' ->
  sockets st' !! s = sockets st !! s.
Proof.
  intros Hne. unfold onConnection.
  destruct plugin; (destruct (sockets _ !! s') as [sk|];
    [destruct (authorized sk); [unfold priv_transmit;
       destruct (sockets _ !! s') as [sk'|]; [destruct (writable sk')|]|]|]);
    cbn [final_state]; intros [= <-];
    unfold socket_write, socket_resume, socket_setKeepAlive, socket_on, init,
      socket_destroy, update_socket;
    cbn [sockets set_sockets set_wire set_priv_buffer];
    now rewrite ?lookup_alter_ne by assumption.
Qed.

End ConnectionEvent.

(** ** A settled promise stays as it is *)

Section Final.

Variable s : Socket_id.
Variable p : Promise.
Hypothesis p_settled : p ≠ Pending.

Lemma settle_keeps (s' : Socket_id) (outcome : Promise) (st : State) :
  promises st !! s = Some p -> promises (settle s' outcome st) !! s = Some p.
Proof.
  intros Hp. unfold settle. cbn [promises set_promises].
  destruct (decide (s' = s)) as [->|Hne].
  - rewrite lookup_alter_eq, Hp. cbn. now destruct p.
  - now rewrite lookup_alter_ne.
Qed.

Lemma call_listener_keeps (f : Listener) (s' : Socket_id) (arg : Payload)
    (st st' : State) :
  promises st !! s = Some p ->
  final_state (call_listener f s' arg st) = Some st' ->
  promises st' !! s = Some p.
Proof.
  intros Hp. destruct f, arg; cbn [call_listener final_state];
    try (intros [= <-]; exact Hp);
    try (intros [= <-]; now apply settle_keeps);
    try (intros H; apply buffer_touches in H as (_ & _ & A3 & _); now rewrite A3).
  destruct (String.eqb _ _); cbn [final_state]; intros [= <-];
    now apply settle_keeps.
Qed.

Lemma call_all_keeps (rs : list Registration) (s' : Socket_id) (arg : Payload)
    (st st' : State) :
  promises st !! s = Some p ->
  final_state (call_all rs s' arg st) = Some st' ->
  promises st' !! s = Some p.
Proof.
  revert st. induction rs as [|r rs IH]; intros st Hp; cbn [call_all final_state].
  - now intros [= <-].
  - set (st1 := if reg_once r then _ else st).
    assert (promises st1 !! s = Some p) as Hp1
      by (subst st1; now destruct (reg_once r)).
    pose proof (call_listener_keeps (reg_listener r) s' arg st1) as Hcall.
    destruct (call_listener (reg_listener r) s' arg st1) as [[] st2 | e st2 |];
      cbn [and_then final_state] in *.
    + apply IH. now apply Hcall.
    + intros [= <-]. now apply Hcall.
    + discriminate.
Qed.

Lemma step_keeps (ev : Transport) (st st' : State) :
  promises st !! s = Some p ->
  final_state (step ev st) = Some st' ->
  promises st' !! s = Some p.
Proof.
  intros Hp. destruct ev as [s' chunk | s' | s' | s' reason | plugin s']; cbn [step].
  - cbn. now intros [= <-].
  - unfold socket_emit.
    destruct (sockets st !! s') as [sk|]; [|cbn; now intros [= <-]].
    destruct (destroyed sk); [cbn; now intros [= <-]|].
    destruct (readableFlowing sk) as [[]|]; try (cbn; now intros [= <-]).
    destruct (unread sk); [cbn; now intros [= <-]|].
    destruct (sockets _ !! s'); [now apply call_all_keeps | cbn; now intros [= <-]].
  - unfold socket_emit.
    destruct (sockets _ !! s'); [now apply call_all_keeps | cbn; now intros [= <-]].
  - unfold socket_emit.
    destruct (sockets _ !! s'); [now apply call_all_keeps | cbn; now intros [= <-]].
  - intros H. apply onConnection_promises in H. now rewrite H.
Qed.

Lemma run_keeps (evs : list Transport) (st st' : State) :
  promises st !! s = Some p ->
  final_state (run evs st) = Some st' ->
  promises st' !! s = Some p.
Proof.
  revert st. induction evs as [|ev evs IH]; intros st Hp; cbn [run final_state].
  - now intros [= <-].
  - pose proof (step_keeps ev st) as Hstep.
    destruct (step ev st) as [[] st1 | e st1 |]; cbn [and_then final_state] in *.
    + apply IH. now apply Hstep.
    + intros [= <-]. now apply Hstep.
    + discriminate.
Qed.

End Final.

(** ** Connecting as a client: what the events of other sockets leave alone *)

Section OtherSockets.

Variable s : Socket_id.

Lemma leaves_alone_refl (st : State) : leaves_alone s st st.
Proof. now repeat split. Qed.

Lemma leaves_alone_trans (st1 st2 st3 : State) :
  leaves_alone s st1 st2 -> leaves_alone s st2 st3 -> leaves_alone s st1 st3.
Proof. intros (A1 & A2 & A3) (B1 & B2 & B3). repeat split; congruence. Qed.

Lemma leaves_alone_update (s' : Socket_id) (g : Socket -> Socket) (st : State) :
  s' ≠ s -> leaves_alone s st (update_socket s' g st).
Proof.
  intros Hne. repeat split. unfold update_socket. cbn [sockets set_sockets].
  now rewrite lookup_alter_ne.
Qed.

Lemma leaves_alone_settle (s' : Socket_id) (outcome : Promise) (st : State) :
  s' ≠ s -> leaves_alone s st (settle s' outcome st).
Proof.
  intros Hne. repeat split. unfold settle. cbn [promises set_promises].
  now rewrite lookup_alter_ne.
Qed.

Lemma leaves_alone_touches (s' : Socket_id) (st st' : State) :
  touches_only s' st st' -> leaves_alone s st st'.
Proof. intros (A1 & A2 & A3 & _). repeat split; congruence. Qed.

Lemma call_listener_other (f : Listener) (s' : Socket_id) (arg : Payload)
    (st st' : State) :
  s' ≠ s -> final_state (call_listener f s' arg st) = Some st' -> leaves_alone s st st'.
Proof.
  intros Hne. destruct f, arg; cbn [call_listener final_state];
    try (intros [= <-]; apply leaves_alone_refl);
    try (intros [= <-]; now apply leaves_alone_settle);
    try (intros H; apply buffer_touches in H; now apply (leaves_alone_touches s')).
  destruct (String.eqb _ _); cbn [final_state]; intros [= <-];
    unfold accept, reject, socket_resume, socket_on, socket_removeAllListeners,
      socket_destroy, socket_pause;
    repeat (eapply leaves_alone_trans;
            [|first [now apply leaves_alone_settle | now apply leaves_alone_update]]);
    apply leaves_alone_refl.
Qed.

Lemma call_all_other (rs : list Registration) (s' : Socket_id) (arg : Payload)
    (st st' : State) :
  s' ≠ s -> final_state (call_all rs s' arg st) = Some st' -> leaves_alone s st st'.
Proof.
  intros Hne. revert st. induction rs as [|r rs IH]; intros st; cbn [call_all final_state].
  - intros [= <-]. apply leaves_alone_refl.
  - set (st1 := if reg_once r then _ else st).
    assert (leaves_alone s st st1) as H1
      by (subst st1; destruct (reg_once r);
          [now apply leaves_alone_update | apply leaves_alone_refl]).
    pose proof (call_listener_other (reg_listener r) s' arg st1) as Hcall.
    destruct (call_listener (reg_listener r) s' arg st1) as [[] st2 | e st2 |];
      cbn [and_then final_state] in *.
    + intros H. apply IH in H. eapply leaves_alone_trans; [exact H1|].
      eapply leaves_alone_trans; [now apply Hcall | exact H].
    + intros [= <-]. eapply leaves_alone_trans; [exact H1 | now apply Hcall].
    + discriminate.
Qed.

Lemma socket_emit_other (s' : Socket_id) name (arg : Payload) (st st' : State) :
  s' ≠ s -> final_state (socket_emit s' name arg st) = Some st' -> leaves_alone s st st'.
Proof.
  intros Hne. unfold socket_emit. destruct (sockets st !! s').
  - now apply call_all_other.
  - cbn. intros [= <-]. apply leaves_alone_refl.
Qed.

Lemma onConnection_config (plugin : option (Socket -> Socket)) (s' : Socket_id)
    (st st' : State) :
  final_state (onConnection plugin s' st) = Some st' -> config st' = config st.
Proof.
  unfold onConnection.
  destruct plugin; (destruct (sockets _ !! s') as [sk|];
    [destruct (authorized sk); [unfold priv_transmit;
       destruct (sockets _ !! s') as [sk'|]; [destruct (writable sk')|]|]|]);
    cbn; now intros [= <-].
Qed.

Lemma call_listener_config (f : Listener) (s' : Socket_id) (arg : Payload)
    (st st' : State) :
  final_state (call_listener f s' arg st) = Some st' -> config st' = config st.
Proof.
  destruct f, arg; cbn [call_listener final_state];
    try (intros [= <-]; reflexivity);
    try (intros H; apply buffer_touches in H; now destruct H).
  destruct (String.eqb _ _); cbn [final_state]; intros [= <-]; reflexivity.
Qed.

Lemma call_all_config (rs : list Registration) (s' : Socket_id) (arg : Payload)
    (st st' : State) :
  final_state (call_all rs s' arg st) = Some st' -> config st' = config st.
Proof.
  revert st. induction rs as [|r rs IH]; intros st; cbn [call_all final_state].
  - now intros [= <-].
  - set (st1 := if reg_once r then _ else st).
    assert (config st1 = config st) as H1 by (subst st1; now destruct (reg_once r)).
    pose proof (call_listener_config (reg_listener r) s' arg st1) as Hcall.
    destruct (call_listener (reg_listener r) s' arg st1) as [[] st2 | e st2 |];
      cbn [and_then final_state] in *.
    + intros H. apply IH in H. rewrite H, (Hcall st2 eq_refl). exact H1.
    + intros [= <-]. now rewrite (Hcall st2 eq_refl).
    + discriminate.
Qed.

Lemma step_config (ev : Transport) (st st' : State) :
  final_state (step ev st) = Some st' -> config st' = config st.
Proof.
  destruct ev as [s' chunk | s' | s' | s' reason | plugin s']; cbn [step].
  - cbn. now intros [= <-].
  - unfold socket_emit.
    destruct (sockets st !! s') as [sk|]; [|cbn; now intros [= <-]].
    destruct (destroyed sk); [cbn; now intros [= <-]|].
    destruct (readableFlowing sk) as [[]|]; try (cbn; now intros [= <-]).
    destruct (unread sk); [cbn; now intros [= <-]|].
    destruct (sockets _ !! s'); [|cbn; now intros [= <-]].
    intros H. now apply call_all_config in H.
  - unfold socket_emit.
    destruct (sockets _ !! s'); [|cbn; now intros [= <-]].
    intros H. now apply call_all_config in H.
  - unfold socket_emit.
    destruct (sockets _ !! s'); [|cbn; now intros [= <-]].
    intros H. now apply call_all_config in H.
  - apply onConnection_config.
Qed.

Lemma step_other (ev : Transport) (st st' : State) :
  event_socket ev ≠ s -> final_state (step ev st) = Some st' -> leaves_alone s st st'.
Proof.
  destruct ev as [s' chunk | s' | s' | s' reason | plugin s'];
    cbn [step event_socket]; intros Hne.
  - cbn [final_state]. intros [= <-]. now apply leaves_alone_update.
  - destruct (sockets st !! s') as [sk|]; [|cbn; intros [= <-]; apply leaves_alone_refl].
    destruct (destroyed sk); [cbn; intros [= <-]; apply leaves_alone_refl|].
    destruct (readableFlowing sk) as [[]|];
      try (cbn; intros [= <-]; apply leaves_alone_refl).
    destruct (unread sk); [cbn; intros [= <-]; apply leaves_alone_refl|].
    intros H. apply socket_emit_other in H; [|assumption].
    eapply leaves_alone_trans; [|exact H]. now apply leaves_alone_update.
  - intros H. apply socket_emit_other in H; [|assumption].
    eapply leaves_alone_trans; [|exact H]. now apply leaves_alone_update.
  - intros H. apply socket_emit_other in H; [|assumption].
    eapply leaves_alone_trans; [|exact H]. now apply leaves_alone_update.
  - intros H. repeat split.
    + now apply (onConnection_config plugin s' st).
    + now apply (onConnection_sockets s plugin s' st).
    + now rewrite (onConnection_promises plugin s' st st' H).
Qed.

End OtherSockets.

(** ** Connecting as a client: how the promise can settle *)

Section ClientInvariant.

Variable s : Socket_id.
Variable cfg : Config.

Lemma arrivals_app (seen more : list Transport) :
  arrivals s (seen ++ more) = arrivals s seen ++ arrivals s more.
Proof.
  induction seen as [|ev seen IH]; [reflexivity|].
  destruct ev; cbn [app arrivals]; try exact IH.
  destruct (decide _); [cbn [app]; now rewrite IH | exact IH].
Qed.

Lemma arrivals_other (seen : list Transport) (ev : Transport) :
  (forall chunk, ev ≠ Arrive s chunk) -> arrivals s (seen ++ [ev]) = arrivals s seen.
Proof.
  intros Hev. rewrite arrivals_app.
  destruct ev as [s' chunk | | | |]; cbn [arrivals]; try apply app_nil_r.
  destruct (decide (s' = s)) as [->|Hne]; [now destruct (Hev chunk) | apply app_nil_r].
Qed.

Lemma first_arrival_later (seen more : list Transport) (chunk : Buffer) :
  head (arrivals s seen) = Some chunk -> head (arrivals s (seen ++ more)) = Some chunk.
Proof. rewrite arrivals_app. now destruct (arrivals s seen). Qed.

Lemma no_end_later (seen : list Transport) (ev : Transport) :
  ~ ends s ev ->
  Forall (fun ev => ~ ends s ev) seen -> Forall (fun ev => ~ ends s ev) (seen ++ [ev]).
Proof.
  intros Hev Hseen. apply Forall_app. split; [assumption|]. now repeat constructor.
Qed.

Lemma other_socket_no_end (ev : Transport) : event_socket ev ≠ s -> ~ ends s ev.
Proof.
  intros Hne [-> | [reason ->]]; now apply Hne.
Qed.

Lemma rejection_ok_later (seen more : list Transport) (st st' : State) (e : Error) :
  (dead s st -> dead s st') ->
  rejection_ok s cfg seen st e -> rejection_ok s cfg (seen ++ more) st' e.
Proof.
  intros Hd [(He & Hin) | [(chunk & He & Hfirst & Hne & Hdead) | (reason & He & Hin)]].
  - left. split; [assumption|]. apply elem_of_app. now left.
  - right; left. exists chunk. repeat split; auto. now apply first_arrival_later.
  - right; right. exists reason. split; [assumption|]. apply elem_of_app. now left.
Qed.

(** Once the promise is settled, an event changes neither the promise nor
    what is known of it. *)
Lemma step_client_settled (seen : list Transport) (ev : Transport) (st st' : State)
    (p : Promise) :
  p ≠ Pending ->
  not_connection_for s ev ->
  promises st !! s = Some p ->
  promise_ok s cfg seen st p ->
  final_state (step ev st) = Some st' ->
  promises st' !! s = Some p /\ promise_ok s cfg (seen ++ [ev]) st' p.
Proof.
  intros Hne Hev Hp Hok Hstep. split; [now apply (step_keeps s p Hne ev st)|].
  destruct p as [|s0|e]; [congruence| |].
  - destruct Hok as (-> & chunk & Hfirst & Hm). split; [reflexivity|].
    exists chunk. split; [now apply first_arrival_later | assumption].
  - apply (rejection_ok_later seen [ev] st st'); [|exact Hok].
    intros Hd. now apply (step_dead s ev st).
Qed.

(** While the promise is pending, an event of another socket changes
    nothing of the client socket. *)
Lemma step_client_other (seen : list Transport) (ev : Transport) (st st' : State) :
  event_socket ev ≠ s ->
  promises st !! s = Some Pending ->
  promise_ok s cfg seen st Pending ->
  final_state (step ev st) = Some st' ->
  promises st' !! s = Some Pending /\ promise_ok s cfg (seen ++ [ev]) st' Pending.
Proof.
  intros Hne Hp (Hs & Hno) Hstep.
  apply (step_other s) in Hstep as (B1 & B2 & B3); [|assumption].
  split; [now rewrite B3|]. split.
  - rewrite B2, Hs, arrivals_other; [reflexivity|].
    intros chunk ->. now apply Hne.
  - apply no_end_later; [|assumption]. now apply other_socket_no_end.
Qed.

(** While the promise is pending, the first chunk handed to the 'data'
    listener, a close or a failure settles it; a chunk that arrives is
    queued. *)
Lemma step_client_pending (seen : list Transport) (ev : Transport) (st st' : State) :
  not_connection_for s ev ->
  config st = cfg ->
  promises st !! s = Some Pending ->
  promise_ok s cfg seen st Pending ->
  final_state (step ev st) = Some st' ->
  exists p, promises st' !! s = Some p /\ promise_ok s cfg (seen ++ [ev]) st' p.
Proof.
  intros Hev Hc Hp Hok Hstep.
  destruct (decide (event_socket ev = s)) as [Heq|Hne];
    [|exists Pending; now apply (step_client_other seen ev st st')].
  destruct Hok as (Hs & Hno).
  destruct ev as [s' chunk | s' | s' | s' reason | plugin s'];
    cbn [event_socket not_connection_for] in Heq, Hev; [subst s' ..|congruence].
  - revert Hstep. exec_on Hs Hp. intros [= <-]. exists Pending.
    split; [exec_on Hs Hp; reflexivity|]. split.
    + exec_on Hs Hp. rewrite arrivals_app. cbn [arrivals].
      rewrite decide_True by reflexivity. reflexivity.
    + apply no_end_later; [|assumption]. intros [H | [reason H]]; discriminate.
  - assert (arrivals s (seen ++ [Flow s]) = arrivals s seen) as Hsame
      by (apply arrivals_other; discriminate).
    assert (~ ends s (Flow s)) as Hflow by (intros [H | [reason H]]; discriminate).
    revert Hstep. cbn [step]. rewrite Hs.
    cbn [connecting_with connecting_socket with_unread destroyed readableFlowing unread].
    destruct (arrivals s seen) as [|chunk rest] eqn:Hq.
    + cbn [final_state]. intros [= <-]. exists Pending. split; [assumption|]. split.
      * now rewrite Hsame.
      * now apply no_end_later.
    + exec_on Hs Hp. rewrite Hc.
      destruct (String.eqb_spec (START_OF_TRANSMISSION cfg) (Buffer_toString chunk))
        as [Hm|Hm]; exec_on Hs Hp; intros [= <-].
      * exists (Fulfilled s). split; [exec_on Hs Hp; reflexivity|].
        split; [reflexivity|]. exists chunk. rewrite Hsame. now split.
      * exists (Rejected (invalid_rejection chunk)).
        split; [exec_on Hs Hp; reflexivity|].
        right; left. exists chunk. rewrite Hsame.
        repeat split; [congruence|].
        eexists. exec_on Hs Hp. repeat split.
  - revert Hstep. exec_on Hs Hp. intros [= <-].
    exists (Rejected closed_rejection). split; [exec_on Hs Hp; reflexivity|].
    left. split; [reflexivity|]. apply elem_of_app. right. apply list_elem_of_here.
  - revert Hstep. exec_on Hs Hp. intros [= <-].
    exists (Rejected (failed_rejection reason)). split; [exec_on Hs Hp; reflexivity|].
    right; right. exists reason. split; [reflexivity|].
    apply elem_of_app. right. apply list_elem_of_here.
Qed.

Lemma step_client (seen : list Transport) (ev : Transport) (st st' : State) :
  not_connection_for s ev ->
  client_inv s cfg seen st ->
  final_state (step ev st) = Some st' ->
  client_inv s cfg (seen ++ [ev]) st'.
Proof.
  intros Hev (Hc & p & Hp & Hok) Hstep.
  split; [now rewrite (step_config ev st st' Hstep)|].
  destruct p as [|s0|e].
  - now apply (step_client_pending seen ev st st').
  - exists (Fulfilled s0). now apply (step_client_settled seen ev st st').
  - exists (Rejected e). now apply (step_client_settled seen ev st st').
Qed.

Lemma promise_ok_later (seen more : list Transport) (st : State) (p : Promise) :
  p ≠ Pending -> promise_ok s cfg seen st p -> promise_ok s cfg (seen ++ more) st p.
Proof.
  intros Hne Hok. destruct p as [|s0|e]; [congruence| |].
  - destruct Hok as (-> & chunk & Hfirst & Hm). split; [reflexivity|].
    exists chunk. split; [now apply first_arrival_later | assumption].
  - now apply (rejection_ok_later seen more st st).
Qed.

(** A run handles its events in order, up to the first that throws. *)
Lemma run_client (evs seen : list Transport) (st st' : State) :
  no_connection s evs = true ->
  client_inv s cfg seen st ->
  final_state (run evs st) = Some st' ->
  exists handled rest,
    evs = handled ++ rest
    /\ (run evs st = Ok tt st' -> rest = [])
    /\ client_inv s cfg (seen ++ handled) st'.
Proof.
  revert seen st. induction evs as [|ev evs IH]; intros seen st Hno Hinv;
    cbn [run final_state].
  - intros [= <-]. exists [], [].
    split; [reflexivity|]. split; [reflexivity|]. now rewrite app_nil_r.
  - apply no_connection_cons in Hno as [Hev Hno].
    pose proof (step_client seen ev st) as Hstep.
    destruct (step ev st) as [[] st1 | e st1 |]; cbn [and_then final_state] in *.
    + intros Hrun.
      destruct (IH (seen ++ [ev]) st1 Hno (Hstep st1 Hev Hinv eq_refl) Hrun)
        as (handled & rest & -> & Hrest & Hinv').
      exists (ev :: handled), rest. split; [reflexivity|]. split; [exact Hrest|].
      now rewrite <- app_assoc in Hinv'.
    + intros [= <-]. exists [ev], evs. split; [reflexivity|]. split; [discriminate|].
      now apply Hstep.
    + discriminate.
Qed.

(** What is known of the promise when the run has ended: all of it when
    the promise is settled or no event has thrown. *)
Lemma run_client_promise (evs : list Transport) (st st' : State) :
  no_connection s evs = true ->
  client_inv s cfg [] st ->
  final_state (run evs st) = Some st' ->
  exists p, promises st' !! s = Some p
            /\ (p ≠ Pending \/ run evs st = Ok tt st' -> promise_ok s cfg evs st' p).
Proof.
  intros Hno Hinv Hrun.
  destruct (run_client evs [] st st' Hno Hinv Hrun)
    as (handled & rest & -> & Hrest & _ & p & Hp & Hok).
  cbn [app] in Hok. exists p. split; [assumption|]. intros [Hne | Hall].
  - now apply promise_ok_later.
  - rewrite (Hrest Hall), app_nil_r in *. assumption.
Qed.

End ClientInvariant.

(** ** Connecting as a client: once ready, every chunk goes to [buffer] *)

Section Routing.

Variable s : Socket_id.
Variable cfg : Config.

Lemma update_socket_back (g1 g2 : Socket -> Socket) (sk : Socket) (st : State) :
  sockets st !! s = Some sk -> g2 (g1 sk) = sk ->
  update_socket s g2 (update_socket s g1 st) = st.
Proof.
  intros Hs Hg. destruct st as [c b m p e w]. unfold update_socket, set_sockets.
  cbn in *. f_equal. rewrite alter_alter_eq. apply alter_id.
  intros x Hx. rewrite Hs in Hx. injection Hx as <-. exact Hg.
Qed.

Lemma ready_delivery (chunk : Buffer) (evs : list Transport) (st : State) :
  sockets st !! s = Some (ready_socket cfg) ->
  run (Arrive s chunk :: Flow s :: evs) st
  = and_then (buffer s chunk st) (fun _ st' => run evs st').
Proof.
  intros Hs. cbn [run and_then]. unfold step at 1. cbn [and_then].
  set (queue := fun sk => if destroyed sk then sk
                          else with_unread (fun q => q ++ [chunk]) sk).
  assert (sockets (update_socket s queue st) !! s
          = Some (with_unread (fun _ => [chunk]) (ready_socket cfg))) as Hq
    by (unfold update_socket; cbn [sockets set_sockets];
        rewrite lookup_alter_eq, Hs; reflexivity).
  unfold step at 1. rewrite Hq.
  cbn [with_unread ready_socket destroyed readableFlowing unread].
  rewrite (update_socket_back queue _ (ready_socket cfg)); [|assumption|reflexivity].
  unfold socket_emit. rewrite Hs. cbn [listeners ready_socket].
  rewrite filter_cons, filter_nil, decide_True by reflexivity.
  cbn [call_all reg_once reg_listener buffer_registration call_listener].
  now destruct (buffer s chunk st) as [[] st1 | e st1 |].
Qed.

Lemma ready_deliveries (chunks : list Buffer) (st : State) :
  sockets st !! s = Some (ready_socket cfg) ->
  run (deliveries s chunks) st = buffer_each s chunks st.
Proof.
  revert st. induction chunks as [|chunk rest IH]; intros st Hs; [reflexivity|].
  cbn [deliveries buffer_each]. rewrite ready_delivery by assumption.
  pose proof (buffer_touches s chunk st) as Ht.
  destruct (buffer s chunk st) as [[] st1 | e st1 |]; cbn [and_then]; try reflexivity.
  apply IH. destruct (Ht st1 eq_refl) as (_ & A2 & _). now rewrite A2.
Qed.

End Routing.

(** C8: [#createClient] makes a socket and a pending promise.  Whatever the
    transport then does, the promise is pending, fulfilled or rejected, and:
    an error it is rejected with is the client-connect error
    (code E_TCP_RECORD_CHANNEL_CLIENT_CONNECT) whose cause is the
    closed-before-ready error (code E_TCP_RECORD_CHANNEL_CLOSED_BEFORE_READY),
    the socket having closed; or the one whose cause is the
    invalid-ready-signal error (code E_TCP_RECORD_CHANNEL_INVALID_READY_SIGNAL)
    for the first chunk that arrived, which differs from the marker, the
    socket being destroyed; or the one whose cause is a reason the transport
    reported for the socket, unchanged.  The three are different errors.  A
    fulfilled promise holds the socket, and the first chunk that arrived was
    the marker.  While the promise is pending the socket has neither closed
    nor failed and every chunk that arrived is still queued; so once the
    socket has closed or failed the promise is settled.  The first event
    decides: a first chunk equal to the marker fulfils the promise with the
    socket, is not decoded, and from then on every chunk delivered goes
    through [buffer], one after the other; a first chunk that differs rejects
    with the invalid-ready-signal cause and destroys the socket; a close
    rejects with the closed-before-ready cause; a failure rejects with its
    reason as the cause. *)
Theorem client_connect_outcomes (st0 : State) (evs : list Transport) (st' : State) :
  let s := fst (priv_createClient connect st0) in
  let st1 := snd (priv_createClient connect st0) in
  no_connection s evs = true ->
  final_state (run evs st1) = Some st' ->
  (exists p, promises st' !! s = Some p
             /\ (p ≠ Pending \/ run evs st1 = Ok tt st' ->
                 promise_ok s (config st0) evs st' p))
  /\ (forall e, promises st' !! s = Some (Rejected e) ->
                rejection_ok s (config st0) evs st' e)
  /\ (forall chunk reason,
        closed_rejection ≠ invalid_rejection chunk
        /\ closed_rejection ≠ failed_rejection reason
        /\ invalid_rejection chunk ≠ failed_rejection reason)
  /\ (Exists (ends s) evs -> run evs st1 = Ok tt st' -> settled s st')
  /\ (forall chunk,
        Buffer_toString chunk = START_OF_TRANSMISSION (config st0) ->
        exists st2,
          run [Arrive s chunk; Flow s] st1 = Ok tt st2
          /\ promises st2 !! s = Some (Fulfilled s)
          /\ priv_buffer st2 !! s = Some []
          /\ emitted st2 = emitted st0
          /\ (forall more, run [Arrive s more; Flow s] st2 = buffer s more st2)
          /\ (forall chunks, run (deliveries s chunks) st2 = buffer_each s chunks st2))
  /\ (forall chunk,
        Buffer_toString chunk ≠ START_OF_TRANSMISSION (config st0) ->
        exists st2,
          run [Arrive s chunk; Flow s] st1 = Ok tt st2
          /\ promises st2 !! s = Some (Rejected (invalid_rejection chunk))
          /\ dead s st2)
  /\ (exists st2,
        run [Close s] st1 = Ok tt st2
        /\ promises st2 !! s = Some (Rejected closed_rejection))
  /\ (forall reason,
        exists st2,
          run [Fail s reason] st1 = Ok tt st2
          /\ promises st2 !! s = Some (Rejected (failed_rejection reason))).
Proof.
  rewrite priv_createClient_state. cbn [fst snd].
  set (s := fresh (dom (sockets st0))).
  set (st1 := with_client s (connecting_socket (config st0)) Pending st0).
  intros Hno Hrun.
  assert (promises st1 !! s = Some Pending) as Hp
    by (subst st1; unfold with_client; cbn [promises]; apply lookup_insert_eq).
  assert (sockets st1 !! s = Some (connecting_socket (config st0))) as Hs
    by (subst st1; unfold with_client; cbn [sockets]; apply lookup_insert_eq).
  assert (client_inv s (config st0) [] st1) as Hinv.
  { split; [reflexivity|]. exists Pending. split; [assumption|].
    split; [exact Hs | constructor]. }
  destruct (run_client_promise s (config st0) evs st1 st' Hno Hinv Hrun)
    as (p & Hp' & Hok).
  split; [now exists p|].
  split; [intros e He; rewrite He in Hp'; injection Hp' as <-;
          apply Hok; left; discriminate|].
  split; [intros chunk reason; repeat split; discriminate|].
  split; [|split; [|split; [|split]]].
  - intros Hex Hall. exists p. split; [assumption|]. intros ->.
    destruct (Hok (or_intror Hall)) as (_ & Hnoend).
    apply Exists_exists in Hex as (ev & Hin & Hev).
    rewrite Forall_forall in Hnoend. now apply (Hnoend ev).
  - intros chunk Hm. eexists. split; [now apply marker_accepted|].
    unfold with_client. cbn [promises priv_buffer emitted].
    rewrite !lookup_insert_eq. repeat split.
    + intros more. apply ready_routes_to_buffer.
    + intros chunks. apply (ready_deliveries s (config st0)).
      cbn [sockets]. apply lookup_insert_eq.
  - intros chunk Hm. exact (mismatch_rejected st0 chunk Hm).
  - exact (close_rejected st0).
  - intros reason. exact (fail_rejected st0 reason).
Qed.

(** A chunk that is not the marker arrives, the transport then reports a
    trust-chain failure, the socket closes, and only then is the chunk
    handed out: the reported reason is the cause, and stays. *)
Lemma client_connect_outcomes_witness :
  let st0 := new_Channel None in
  let s := fst (priv_createClient connect st0) in
  let st1 := snd (priv_createClient connect st0) in
  let reason := mkError "unable to verify the first certificate"
                  (Some "UNABLE_TO_VERIFY_LEAF_SIGNATURE") None None None in
  let evs := [Arrive s (Buffer_from "hello"); Fail s reason; Close s; Flow s] in
  exists st',
    run evs st1 = Ok tt st'
    /\ promises st' !! s = Some (Rejected (failed_rejection reason))
    /\ rejection_ok s (config st0) evs st' (failed_rejection reason)
    /\ settled s st'.
Proof.
  intros st0 s st1 reason evs.
  assert (exists st', run evs st1 = Ok tt st'
                      /\ promises st' !! s = Some (Rejected (failed_rejection reason)))
    as (st' & Hrun & Hp)
    by (eexists; split; vm_compute; reflexivity).
  exists st'. split; [exact Hrun|]. split; [exact Hp|].
  destruct (client_connect_outcomes st0 evs st') as (_ & H1 & _ & H2 & _).
  - reflexivity.
  - fold st1. now rewrite Hrun.
  - split.
    + apply H1. exact Hp.
    + apply H2; [|exact Hrun].
      apply Exists_cons_tl, Exists_cons_hd. right. now exists reason.
Defined.

(** * Further properties of the code *)

(** ** Where the record separator is found *)

Section IndexOf.

Lemma bytes_startWith_prefix (b needle : Buffer) :
  bytes_startWith b needle = true <-> exists t, b = needle ++ t.
Proof.
  revert b. induction needle as [|x needle IH]; intros b.
  - split; [intros _; now exists b | intros _; now destruct b].
  - destruct b as [|y b]; cbn [bytes_startWith].
    + split; [discriminate | intros [t Ht]; discriminate].
    + destruct (Byte.eqb x y) eqn:E.
      * apply byte_dec_bl in E. subst y. rewrite IH. split.
        -- intros [t ->]. now exists t.
        -- intros [t [= ->]]. now exists t.
      * apply eqb_false in E. split; [discriminate|].
        intros [t [= -> _]]. congruence.
Qed.

Lemma occurs_at_bound (needle b : Buffer) (i : nat) :
  needle ≠ [] -> occurs_at needle b i -> (i + length needle <= length b)%nat.
Proof.
  intros Hne [t Ht]. assert (length (drop i b) = length (needle ++ t)) as H by now rewrite Ht.
  rewrite length_drop, length_app in H.
  destruct needle; [congruence|]. simpl in *. lia.
Qed.

(** The search returns [-1] when the separator occurs nowhere, and else the
    index of its first occurrence. *)
Lemma indexOf_at_spec (needle b : Buffer) (off : Z) :
  (indexOf_at needle b off = -1 /\ forall i, ~ occurs_at needle b i)
  \/ (exists i : nat,
        indexOf_at needle b off = off + Z.of_nat i
        /\ (i <= length b)%nat
        /\ occurs_at needle b i
        /\ forall j, (j < i)%nat -> ~ occurs_at needle b j).
Proof.
  revert off. induction b as [|x b IH]; intros off; cbn [indexOf_at].
  - destruct (bytes_startWith [] needle) eqn:E.
    + right. exists O. rewrite Z.add_0_r. repeat split; [lia | | lia].
      now apply bytes_startWith_prefix.
    + left. split; [reflexivity|]. intros i Hi. unfold occurs_at in Hi.
      rewrite drop_nil in Hi. apply bytes_startWith_prefix in Hi. congruence.
  - destruct (bytes_startWith (x :: b) needle) eqn:E.
    + right. exists O. rewrite Z.add_0_r. repeat split; [simpl; lia | | lia].
      now apply bytes_startWith_prefix.
    + assert (~ occurs_at needle (x :: b) 0) as H0.
      { intros H. apply bytes_startWith_prefix in H. cbn [drop] in H. congruence. }
      destruct (IH (off + 1)) as [[Hm Hno] | (i & Hi & Hlen & Hocc & Hfirst)].
      * left. split; [assumption|]. intros [|i]; [assumption | apply Hno].
      * right. exists (S i). repeat split; [lia | simpl; lia | exact Hocc |].
        intros [|j] Hj; [assumption|]. apply Hfirst. lia.
Qed.

Lemma Buffer_slice_take (b : Buffer) (n : nat) :
  (n <= length b)%nat -> Buffer_slice b 0 (Z.of_nat n) = take n b.
Proof.
  intros Hn. unfold Buffer_slice. rewrite !clamp_index_inside by lia.
  rewrite Z.sub_0_r, Nat2Z.id. change (Z.to_nat 0) with O. now rewrite drop_0.
Qed.

Lemma Buffer_slice_from_drop (b : Buffer) (n : nat) :
  Buffer_slice_from b (Z.of_nat n) = drop n b.
Proof.
  unfold Buffer_slice_from, Buffer_slice.
  rewrite (clamp_index_inside _ (Z.of_nat (length b))) by lia.
  unfold clamp_index. destruct (Z.ltb_spec (Z.of_nat n) 0) as [|_]; [lia|].
  destruct (Nat.le_gt_cases n (length b)) as [Hle | Hgt].
  - rewrite Z.min_l by lia. rewrite Nat2Z.id.
    rewrite take_ge; [reflexivity|]. rewrite length_drop. lia.
  - rewrite Z.min_r by lia. rewrite Z.sub_diag. change (Z.to_nat 0) with O.
    rewrite take_0. symmetry. apply drop_ge. lia.
Qed.

End IndexOf.

(** ** One turn of the loop, for any record separator *)

Section AnySeparator.

Variable s : Socket_id.

Lemma decode_next_cases (st : State) (b : Buffer) :
  priv_buffer st !! s = Some b ->
  (decode_next s st = Ok None st
   /\ priv_findRecordSeparator s st = Ok (-1) st
   /\ forall i, ~ occurs_at (Buffer_from (RECORD_SEPARATOR (config st))) b i)
  \/ (exists i : nat,
        (i <= length b)%nat
        /\ occurs_at (Buffer_from (RECORD_SEPARATOR (config st))) b i
        /\ (forall j, (j < i)%nat ->
                      ~ occurs_at (Buffer_from (RECORD_SEPARATOR (config st))) b j)
        /\ priv_findRecordSeparator s st = Ok (Z.of_nat i) st
        /\ decode_next s st
           = Ok (Some (units_of (config st) (take i b)))
                (set_priv_buffer <[s := drop (S i) b]> st)).
Proof.
  intros Hb. unfold decode_next, priv_findRecordSeparator. rewrite Hb.
  cbn [and_then]. unfold Buffer_indexOf.
  destruct (indexOf_at_spec (Buffer_from (RECORD_SEPARATOR (config st))) b 0)
    as [[E Hno] | (i & E & Hlen & Hocc & Hfirst)]; rewrite E.
  - left. now repeat split.
  - right. exists i. rewrite Z.add_0_l. repeat split; try assumption.
    destruct (Z.eqb_spec (Z.of_nat i) (-1)) as [|_]; [lia|].
    rewrite Hb, Buffer_slice_take by assumption.
    replace (Z.of_nat i + 1) with (Z.of_nat (S i)) by lia.
    now rewrite Buffer_slice_from_drop.
Qed.

Lemma Buffer_from_nonempty (sep : string) : sep ≠ "" -> Buffer_from sep ≠ [].
Proof. destruct sep; [congruence | discriminate]. Qed.

(** With a non-empty separator the loop ends within [length b + 1] turns. *)
Lemma decode_loop_returns (fuel : nat) (st : State) (b : Buffer) :
  RECORD_SEPARATOR (config st) ≠ "" ->
  priv_buffer st !! s = Some b ->
  (length b < fuel)%nat ->
  exists recs st' rest,
    decode_loop fuel s st = Ok recs st'
    /\ st' = set_priv_buffer <[s := rest]> st
    /\ priv_findRecordSeparator s st' = Ok (-1) st'
    /\ (length recs + length rest <= length b)%nat.
Proof.
  revert st b. induction fuel as [|fuel IH]; intros st b Hne Hb Hlen; [lia|].
  cbn [decode_loop].
  destruct (decode_next_cases st b Hb)
    as [(E & Hfind & _) | (i & Hi & Hocc & _ & _ & E)]; rewrite E; cbn [and_then].
  - exists [], st, b. rewrite set_priv_buffer_insert_id by assumption.
    repeat split; [assumption | simpl; lia].
  - pose proof (occurs_at_bound _ _ _ (Buffer_from_nonempty _ Hne) Hocc) as Hbound.
    assert (length (Buffer_from (RECORD_SEPARATOR (config st))) <> 0)%nat as Hpos.
    { intros H0. apply (Buffer_from_nonempty _ Hne). now apply length_zero_iff_nil. }
    destruct (IH (set_priv_buffer <[s := drop (S i) b]> st) (drop (S i) b))
      as (recs & st' & rest & Hloop & Hst' & Hfind & Hcount).
    + exact Hne.
    + cbn [priv_buffer set_priv_buffer]. apply lookup_insert_eq.
    + rewrite length_drop. lia.
    + rewrite Hloop. cbn [and_then]. eexists _, st', rest.
      split; [reflexivity|]. split.
      * rewrite Hst'. apply set_priv_buffer_insert_insert.
      * split; [assumption|]. rewrite length_drop in Hcount. simpl. lia.
Qed.

(** With the empty separator every turn yields. *)
Lemma decode_next_empty_separator (st : State) (b : Buffer) :
  RECORD_SEPARATOR (config st) = "" ->
  priv_buffer st !! s = Some b ->
  decode_next s st
  = Ok (Some (units_of (config st) [])) (set_priv_buffer <[s := drop 1 b]> st).
Proof.
  intros Hrs Hb.
  assert (occurs_at (Buffer_from (RECORD_SEPARATOR (config st))) b 0) as H0
    by (rewrite Hrs; now exists b).
  destruct (decode_next_cases st b Hb) as [(_ & _ & Hno) | (i & _ & _ & Hfirst & _ & E)].
  - now destruct (Hno O).
  - destruct i as [|i]; [exact E|]. destruct (Hfirst O); [lia | exact H0].
Qed.

End AnySeparator.

(** X1: on a socket [init] was never called for, [#findRecordSeparator],
    [decode] and [buffer] throw, [buffer] what [decode] throws (the runtime's
    TypeError for reading a property of [undefined]); the state is left as
    it was, so nothing is stored and no record is emitted. *)
Theorem decode_without_init_throws (st : State) (s : Socket_id) (chunk : Buffer) :
  priv_buffer st !! s = None ->
  (exists e, priv_findRecordSeparator s st = Throw e st)
  /\ (exists e, decode s chunk st = Throw e st /\ buffer s chunk st = Throw e st).
Proof.
  intros Hb. unfold priv_findRecordSeparator, decode, buffer, decode_enter.
  rewrite Hb. cbn [and_then]. split; eexists; repeat split.
Qed.

Lemma decode_without_init_throws_witness :
  let st := snd (connect (new_Channel None)) in
  (exists e, priv_findRecordSeparator 0%nat st = Throw e st)
  /\ (exists e, decode 0%nat (encode (config st) ["a"]) st = Throw e st
                /\ buffer 0%nat (encode (config st) ["a"]) st = Throw e st).
Proof.
  intros st.
  apply (decode_without_init_throws st 0%nat (encode (config st) ["a"])).
  reflexivity.
Defined.

(** X2: [#findRecordSeparator] returns [-1] exactly when the record
    separator occurs nowhere in the buffer of the socket, and otherwise the
    index of its first occurrence, which lies inside the buffer (with room
    for the whole separator). *)
Theorem findRecordSeparator_first_occurrence (st : State) (s : Socket_id) (b : Buffer) :
  priv_buffer st !! s = Some b ->
  exists index,
    priv_findRecordSeparator s st = Ok index st
    /\ (index = -1 <->
        forall i, ~ occurs_at (Buffer_from (RECORD_SEPARATOR (config st))) b i)
    /\ (index ≠ -1 ->
        0 <= index <= Z.of_nat (length b)
        /\ occurs_at (Buffer_from (RECORD_SEPARATOR (config st))) b (Z.to_nat index)
        /\ (forall j, (j < Z.to_nat index)%nat ->
                      ~ occurs_at (Buffer_from (RECORD_SEPARATOR (config st))) b j)
        /\ (RECORD_SEPARATOR (config st) ≠ "" ->
            index + Z.of_nat (String.length (RECORD_SEPARATOR (config st)))
            <= Z.of_nat (length b))).
Proof.
  intros Hb.
  destruct (decode_next_cases s st b Hb)
    as [(_ & Hfind & Hno) | (i & Hi & Hocc & Hfirst & Hfind & _)].
  - exists (-1). split; [assumption|]. split; [tauto | congruence].
  - exists (Z.of_nat i). split; [assumption|]. split.
    + split; [lia|]. intros Hno. now destruct (Hno i).
    + intros _. rewrite Nat2Z.id. repeat split; try assumption; try lia.
      intros Hne. pose proof (occurs_at_bound _ _ _ (Buffer_from_nonempty _ Hne) Hocc).
      rewrite length_Buffer_from in *. lia.
Qed.

Lemma findRecordSeparator_first_occurrence_witness :
  let st := set_priv_buffer <[0%nat := encode default_config ["ab"; "c"] ++ Buffer_from "d"]>
              (new_Channel None) in
  priv_findRecordSeparator 0%nat st = Ok 4 st.
Proof.
  intros st.
  destruct (findRecordSeparator_first_occurrence st 0%nat
              (encode default_config ["ab"; "c"] ++ Buffer_from "d"))
    as (index & Hfind & _); [reflexivity|].
  rewrite Hfind. vm_compute in Hfind. now injection Hfind as <-.
Defined.

(** X3: with a non-empty record separator, whatever its length and whatever
    the bytes, [decode] on an initialised socket returns: it neither throws
    nor loops.  [buffer] returns too and emits exactly the records [decode]
    yields, in order; a call yields at most one record per byte it had to
    work on, and what it keeps is never longer than that. *)
Theorem decode_always_returns (st : State) (s : Socket_id) (b chunk : Buffer) :
  RECORD_SEPARATOR (config st) ≠ "" ->
  priv_buffer st !! s = Some b ->
  exists recs rest,
    decode s chunk st = Ok recs (set_priv_buffer <[s := rest]> st)
    /\ buffer s chunk st
       = Ok tt (set_emitted (fun l => l ++ notifications s recs)
                  (set_priv_buffer <[s := rest]> st))
    /\ (length recs + length rest <= length b + length chunk)%nat.
Proof.
  intros Hne Hb.
  assert (exists recs rest,
             decode s chunk st = Ok recs (set_priv_buffer <[s := rest]> st)
             /\ (length recs + length rest <= length b + length chunk)%nat)
    as (recs & rest & Hdec & Hcount).
  { unfold decode, decode_enter. rewrite Hb. cbn [and_then].
    unfold Buffer_concat. cbn [concat]. rewrite app_nil_r.
    destruct (decode_loop_returns s
                (turns s (set_priv_buffer <[s := b ++ chunk]> st))
                (set_priv_buffer <[s := b ++ chunk]> st) (b ++ chunk))
      as (recs & st' & rest & Hloop & Hst' & _ & Hcount).
    - exact Hne.
    - cbn [priv_buffer set_priv_buffer]. apply lookup_insert_eq.
    - unfold turns. cbn [priv_buffer set_priv_buffer]. rewrite lookup_insert_eq.
      simpl. lia.
    - exists recs, rest. rewrite Hloop, Hst', set_priv_buffer_insert_insert.
      split; [reflexivity|]. now rewrite length_app in Hcount. }
  exists recs, rest. split; [exact Hdec|]. split; [|exact Hcount].
  now apply buffer_decode.
Qed.

(** A separator of two bytes, and bytes that hold it twice. *)
Lemma decode_always_returns_witness :
  let cfg := {| opt_START_OF_TRANSMISSION := None; opt_RECORD_SEPARATOR := Some ";;";
                opt_UNIT_SEPARATOR := None; opt_KEEP_ALIVE := None |} in
  let st := init 0%nat (new_Channel (Some cfg)) in
  exists recs rest,
    decode 0%nat (Buffer_from "a;;b;;") st = Ok recs (set_priv_buffer <[0%nat := rest]> st)
    /\ buffer 0%nat (Buffer_from "a;;b;;") st
       = Ok tt (set_emitted (fun l => l ++ notifications 0%nat recs)
                  (set_priv_buffer <[0%nat := rest]> st))
    /\ (length recs + length rest <= length (@nil byte) + length (Buffer_from "a;;b;;"))%nat.
Proof.
  intros cfg st.
  apply (decode_always_returns st 0%nat [] (Buffer_from "a;;b;;")).
  - discriminate.
  - reflexivity.
Defined.

(** X4: with the empty string as record separator the loop of [decode]
    never ends on an initialised socket: however many turns it is given,
    every turn yields a record, so neither [decode] run to its end nor
    [buffer] returns. *)
Theorem empty_separator_never_returns (st : State) (s : Socket_id) (chunk : Buffer) :
  RECORD_SEPARATOR (config st) = "" ->
  is_Some (priv_buffer st !! s) ->
  (forall fuel, decode_loop fuel s st = Diverges /\ buffer_loop fuel s st = Diverges)
  /\ (exists st1, decode_next s st = Ok (Some (units_of (config st) [])) st1)
  /\ decode s chunk st = Diverges
  /\ buffer s chunk st = Diverges.
Proof.
  intros Hrs Hsome.
  assert (forall fuel st, RECORD_SEPARATOR (config st) = "" ->
            is_Some (priv_buffer st !! s) ->
            decode_loop fuel s st = Diverges /\ buffer_loop fuel s st = Diverges) as Hloop.
  { induction fuel as [|fuel IH]; intros st1 Hrs1 [b Hb]; [split; reflexivity|].
    cbn [decode_loop buffer_loop].
    rewrite (decode_next_empty_separator s st1 b Hrs1 Hb). cbn [and_then].
    destruct (IH (set_priv_buffer <[s := drop 1 b]> st1)) as [H1 _].
    { exact Hrs1. }
    { cbn [priv_buffer set_priv_buffer]. rewrite lookup_insert_eq. eauto. }
    destruct (IH (emit_record (units_of (config st1) []) s
                    (set_priv_buffer <[s := drop 1 b]> st1))) as [_ H2].
    { exact Hrs1. }
    { cbn [priv_buffer set_priv_buffer emit_record set_emitted].
      rewrite lookup_insert_eq. eauto. }
    rewrite H1, H2. split; reflexivity. }
  split; [intros fuel; now apply Hloop|]. destruct Hsome as [b Hb]. split.
  - eexists. apply (decode_next_empty_separator s st b Hrs Hb).
  - unfold decode, buffer, decode_enter. rewrite Hb. cbn [and_then].
    apply Hloop; [exact Hrs|].
    cbn [priv_buffer set_priv_buffer]. rewrite lookup_insert_eq. eauto.
Qed.

Lemma empty_separator_never_returns_witness :
  let cfg := {| opt_START_OF_TRANSMISSION := None; opt_RECORD_SEPARATOR := Some "";
                opt_UNIT_SEPARATOR := None; opt_KEEP_ALIVE := None |} in
  let st := init 0%nat (new_Channel (Some cfg)) in
  decode 0%nat (Buffer_from "abc") st = Diverges
  /\ buffer 0%nat (Buffer_from "abc") st = Diverges.
Proof.
  intros cfg st.
  destruct (empty_separator_never_returns st 0%nat (Buffer_from "abc"))
    as (_ & _ & H1 & H2).
  - reflexivity.
  - cbn. rewrite lookup_insert_eq. eauto.
  - split; assumption.
Defined.

(** X5: when [decode] has returned, the buffer it keeps holds no record
    separator any more, for any non-empty separator: [#findRecordSeparator]
    gives [-1], and a further call that brings no byte yields no record and
    changes nothing. *)
Theorem decode_leaves_no_separator (st : State) (s : Socket_id) (b chunk : Buffer) :
  RECORD_SEPARATOR (config st) ≠ "" ->
  priv_buffer st !! s = Some b ->
  exists recs st',
    decode s chunk st = Ok recs st'
    /\ priv_findRecordSeparator s st' = Ok (-1) st'
    /\ decode s [] st' = Ok [] st'
    /\ buffer s [] st' = Ok tt st'.
Proof.
  intros Hne Hb.
  destruct (decode_loop_returns s
              (turns s (set_priv_buffer <[s := b ++ chunk]> st))
              (set_priv_buffer <[s := b ++ chunk]> st) (b ++ chunk))
    as (recs & st' & rest & Hloop & Hst' & Hfind & _).
  { exact Hne. }
  { cbn [priv_buffer set_priv_buffer]. apply lookup_insert_eq. }
  { unfold turns. cbn [priv_buffer set_priv_buffer]. rewrite lookup_insert_eq.
    simpl. lia. }
  assert (priv_buffer st' !! s = Some rest) as Hrest
    by (rewrite Hst'; cbn [priv_buffer set_priv_buffer]; apply lookup_insert_eq).
  assert (decode_next s st' = Ok None st') as Hnext.
  { unfold decode_next. rewrite Hfind. reflexivity. }
  exists recs, st'. split; [|split; [exact Hfind|split]].
  - unfold decode, decode_enter. rewrite Hb. cbn [and_then].
    unfold Buffer_concat. cbn [concat]. rewrite app_nil_r. exact Hloop.
  - unfold decode, decode_enter. rewrite Hrest. cbn [and_then].
    unfold Buffer_concat. cbn [concat]. rewrite !app_nil_r.
    rewrite set_priv_buffer_insert_id by assumption.
    unfold turns. rewrite Hrest. cbn [decode_loop default]. now rewrite Hnext.
  - unfold buffer, decode_enter. rewrite Hrest. cbn [and_then].
    unfold Buffer_concat. cbn [concat]. rewrite !app_nil_r.
    rewrite set_priv_buffer_insert_id by assumption.
    unfold turns. rewrite Hrest. cbn [buffer_loop default]. now rewrite Hnext.
Qed.

Lemma decode_leaves_no_separator_witness :
  let st := init 0%nat (new_Channel None) in
  let chunk := encode (config st) ["a"; "b"] ++ Buffer_from "partial" in
  exists recs st',
    decode 0%nat chunk st = Ok recs st'
    /\ priv_findRecordSeparator 0%nat st' = Ok (-1) st'
    /\ decode 0%nat [] st' = Ok [] st'
    /\ buffer 0%nat [] st' = Ok tt st'.
Proof.
  intros st chunk.
  apply (decode_leaves_no_separator st 0%nat [] chunk).
  - discriminate.
  - reflexivity.
Defined.

(** X6: a turn of the loop that yields takes the bytes before the first
    occurrence of the record separator as the record and removes them and
    one byte more.  So of a separator longer than one byte everything after
    its first byte stays at the head of the buffer, in front of the bytes
    of the next record. *)
Theorem yield_consumes_one_separator_byte (st st' : State) (s : Socket_id)
    (b : Buffer) (units : list string) :
  RECORD_SEPARATOR (config st) ≠ "" ->
  priv_buffer st !! s = Some b ->
  decode_next s st = Ok (Some units) st' ->
  exists frame t,
    b = frame ++ Buffer_from (RECORD_SEPARATOR (config st)) ++ t
    /\ (forall j, (j < length frame)%nat ->
                  ~ occurs_at (Buffer_from (RECORD_SEPARATOR (config st))) b j)
    /\ units = units_of (config st) frame
    /\ priv_buffer st' !! s
       = Some (drop 1 (Buffer_from (RECORD_SEPARATOR (config st))) ++ t).
Proof.
  intros Hne Hb Hnext.
  destruct (decode_next_cases s st b Hb)
    as [(E & _) | (i & Hi & [t Ht] & Hfirst & _ & E)]; rewrite E in Hnext;
    [discriminate|].
  injection Hnext as <- <-.
  exists (take i b), t. rewrite length_take, Nat.min_l by assumption.
  split; [now rewrite <- Ht, take_drop|]. split; [assumption|].
  split; [reflexivity|].
  cbn [priv_buffer set_priv_buffer]. rewrite lookup_insert_eq. f_equal.
  change (S i) with (1 + i)%nat. rewrite Nat.add_comm, <- drop_drop, Ht.
  pose proof (Buffer_from_nonempty _ Hne) as Hn.
  destruct (Buffer_from (RECORD_SEPARATOR (config st))); [congruence | reflexivity].
Qed.

(** With [";;"] as separator the second record comes out with a [";"] in
    front, and one [";"] is left over. *)
Lemma yield_consumes_one_separator_byte_witness :
  let cfg := {| opt_START_OF_TRANSMISSION := None; opt_RECORD_SEPARATOR := Some ";;";
                opt_UNIT_SEPARATOR := None; opt_KEEP_ALIVE := None |} in
  let st := set_priv_buffer <[0%nat := Buffer_from "a;;b;;"]> (new_Channel (Some cfg)) in
  (exists frame t st',
      decode_next 0%nat st = Ok (Some (units_of (config st) frame)) st'
      /\ Buffer_from "a;;b;;" = frame ++ Buffer_from ";;" ++ t
      /\ priv_buffer st' !! 0%nat = Some (Buffer_from ";" ++ t))
  /\ decode 0%nat [] st
     = Ok [["a"]; [";b"]] (set_priv_buffer <[0%nat := Buffer_from ";"]> st).
Proof.
  intros cfg st. split; [|vm_compute; reflexivity].
  assert (exists units st', decode_next 0%nat st = Ok (Some units) st')
    as (units & st' & Hnext) by (eexists _, _; vm_compute; reflexivity).
  destruct (yield_consumes_one_separator_byte st st' 0%nat (Buffer_from "a;;b;;") units)
    as (frame & t & H1 & _ & H3 & H4).
  - discriminate.
  - reflexivity.
  - exact Hnext.
  - exists frame, t, st'. rewrite Hnext, H3. repeat split; assumption.
Defined.

(** ** Decoding loses nothing *)

Section Lossless.

Lemma Array_join_cons_char (sep : string) (a : ascii) (piece : string)
    (pieces : list string) :
  Array_join sep (String a piece :: pieces)
  = String a (Array_join sep (piece :: pieces)).
Proof. destruct pieces; reflexivity. Qed.

(** Joining what [split] has cut gives the string back. *)
Lemma Array_join_split (u : ascii) (x : string) :
  Array_join (String u EmptyString) (String_split x (String u EmptyString)) = x.
Proof.
  unfold String_split. induction x as [|a x IH]; [reflexivity|].
  cbn [split_scan startsWith String.length Nat.pred].
  destruct (Ascii.eqb_spec u a) as [->|Hne].
  - replace (startsWith x "") with true by (now destruct x).
    pose proof (split_scan_nonempty (String a "") 0 x) as Hnil.
    destruct (split_scan (String a "") 0 x) as [|p ps] eqn:E; [congruence|].
    change (Array_join (String a "") ("" :: p :: ps))
      with ("" +:+ String a "" +:+ Array_join (String a "") (p :: ps)).
    now rewrite IH.
  - pose proof (split_scan_nonempty (String u "") 0 x) as Hnil.
    destruct (split_scan (String u "") 0 x) as [|p ps] eqn:E; [congruence|].
    now rewrite Array_join_cons_char, IH.
Qed.

Lemma frames_rebuild (r : byte) (b : Buffer) :
  concat (map (fun p => p ++ [r]) (frames r b).1) ++ (frames r b).2 = b.
Proof.
  induction b as [|x b IH]; [reflexivity|].
  cbn [frames]. destruct (frames r b) as [ps rest]. cbn [fst snd] in IH.
  destruct (Byte.eqb x r) eqn:E.
  - apply byte_dec_bl in E. subst x. cbn. now rewrite IH.
  - destruct ps as [|p ps]; cbn in *; now rewrite IH.
Qed.

Lemma encode_units_of (cfg : Config) (c u : ascii) (frame : Buffer) :
  RECORD_SEPARATOR cfg = String c EmptyString ->
  UNIT_SEPARATOR cfg = String u EmptyString ->
  encode cfg (units_of cfg frame) = frame ++ [byte_of_ascii c].
Proof.
  intros Hc Hu. unfold encode, units_of. rewrite Hu, Array_join_split, Hc.
  rewrite Buffer_from_app, Buffer_from_char. f_equal.
  apply list_byte_of_string_of_list_byte.
Qed.

Lemma ascii_not_in_range (r : byte) (lo hi : N) :
  is_ascii r = true -> (0x80 <= lo)%N -> in_range lo hi r = false.
Proof.
  unfold is_ascii, in_range. intros H Hlo.
  apply andb_true_iff in H as [_ H]. apply N.leb_le in H.
  apply andb_false_iff. left. apply N.leb_gt. lia.
Qed.

Lemma ascii_not_continuation (r : byte) : is_ascii r = true -> continuation r = false.
Proof. intros Hr. apply ascii_not_in_range; [assumption | lia]. Qed.

Lemma ascii_not_second_of_three (r x : byte) : is_ascii r = true -> lead3 x r = false.
Proof.
  intros Hr. unfold lead3, continuation.
  rewrite !(ascii_not_in_range r) by (assumption || lia).
  now rewrite !andb_false_r.
Qed.

Lemma ascii_not_second_of_four (r x : byte) : is_ascii r = true -> lead4 x r = false.
Proof.
  intros Hr. unfold lead4, continuation.
  rewrite !(ascii_not_in_range r) by (assumption || lia).
  now rewrite !andb_false_r.
Qed.

(** An ASCII byte ends the sequence before it: cutting well-formed text at
    an ASCII byte leaves well-formed text on both sides. *)
Lemma well_formed_cut (r : byte) (p t : Buffer) :
  is_ascii r = true ->
  well_formed_utf8 (p ++ r :: t) = true ->
  well_formed_utf8 p = true /\ well_formed_utf8 t = true.
Proof.
  intros Hr.
  pose proof (ascii_not_continuation r Hr) as Hc.
  pose proof (fun x => ascii_not_second_of_three r x Hr) as H3.
  pose proof (fun x => ascii_not_second_of_four r x Hr) as H4.
  induction p as [p IH] using (induction_ltof1 _ (@length byte)). unfold ltof in IH.
  destruct p as [|x p1]; cbn [app well_formed_utf8].
  { rewrite Hr. auto. }
  destruct (is_ascii x); [intros H; apply IH in H; [exact H | cbn; lia]|].
  destruct p1 as [|y p2]; cbn [app].
  { rewrite Hc. destruct (lead2 x); [discriminate|].
    destruct t as [|z t]; [discriminate|]. rewrite H3.
    destruct t as [|w t]; [discriminate|]. rewrite H4. discriminate. }
  destruct (lead2 x).
  { intros H. apply andb_true_iff in H as [Hy H]. rewrite Hy.
    apply IH in H; [exact H | cbn; lia]. }
  destruct p2 as [|z p3]; cbn [app].
  { destruct (lead3 x y); [rewrite Hc; discriminate|].
    destruct t as [|w t]; [discriminate|]. rewrite Hc, andb_false_r. discriminate. }
  destruct (lead3 x y).
  { intros H. apply andb_true_iff in H as [Hz H]. rewrite Hz.
    apply IH in H; [exact H | cbn; lia]. }
  destruct p3 as [|w p4]; cbn [app].
  { rewrite Hc, andb_false_r. discriminate. }
  intros H. apply andb_true_iff in H as [Hlead H]. rewrite Hlead.
  apply IH in H; [exact H | cbn; lia].
Qed.

Lemma well_formed_frames (r : byte) (ps : list Buffer) (rest : Buffer) :
  is_ascii r = true ->
  well_formed_utf8 (concat (map (fun p => p ++ [r]) ps) ++ rest) = true ->
  Forall (fun p => well_formed_utf8 p = true) ps /\ well_formed_utf8 rest = true.
Proof.
  intros Hr. induction ps as [|p ps IH]; cbn [map concat app]; [auto|].
  rewrite <- !app_assoc. cbn [app]. intros H.
  apply well_formed_cut in H as [Hp H]; [|assumption].
  apply IH in H as [Hps Hrest]. split; [now constructor | assumption].
Qed.

Lemma well_formed_joined (u : ascii) (pieces : list string) :
  is_ascii (byte_of_ascii u) = true ->
  well_formed_utf8 (Buffer_from (Array_join (String u EmptyString) pieces)) = true ->
  Forall (fun piece => well_formed_utf8 (Buffer_from piece) = true) pieces.
Proof.
  intros Hu. induction pieces as [|p [|q pieces] IH]; intros H.
  - constructor.
  - now repeat constructor.
  - change (Array_join (String u "") (p :: q :: pieces))
      with (p +:+ String u "" +:+ Array_join (String u "") (q :: pieces)) in H.
    rewrite !Buffer_from_app, Buffer_from_char in H. cbn [app] in H.
    apply well_formed_cut in H as [Hp H]; [|assumption].
    constructor; [assumption | now apply IH].
Qed.

Lemma well_formed_units (cfg : Config) (u : ascii) (frame : Buffer) :
  UNIT_SEPARATOR cfg = String u EmptyString ->
  is_ascii (byte_of_ascii u) = true ->
  well_formed_utf8 frame = true ->
  Forall (fun unit => well_formed_utf8 (Buffer_from unit) = true) (units_of cfg frame).
Proof.
  intros Hu Ha Hf. unfold units_of. rewrite Hu.
  apply (well_formed_joined u); [assumption|].
  rewrite Array_join_split. unfold Buffer_from, Buffer_toString.
  now rewrite list_byte_of_string_of_list_byte.
Qed.

Lemma single_ascii_char (sep : string) :
  single_ascii sep = true ->
  exists c, sep = String c EmptyString /\ is_ascii (byte_of_ascii c) = true.
Proof.
  destruct sep as [|c [|]]; try discriminate. intros H. now exists c.
Qed.

End Lossless.

(** X7: with separators of one ASCII character each, on well-formed UTF-8
    (the old buffer followed by the chunk) [decode] loses no byte and adds
    none: every unit it yields is well-formed text, what it keeps is
    well-formed, and encoding the records it yields, in order, and appending
    what it keeps gives back exactly the bytes it had.  This holds whether or
    not the bytes came from [encode]. *)
Theorem decode_loses_no_byte (st : State) (s : Socket_id) (b chunk : Buffer) :
  single_ascii (RECORD_SEPARATOR (config st)) = true ->
  single_ascii (UNIT_SEPARATOR (config st)) = true ->
  well_formed_utf8 (b ++ chunk) = true ->
  priv_buffer st !! s = Some b ->
  exists recs rest,
    decode s chunk st = Ok recs (set_priv_buffer <[s := rest]> st)
    /\ well_formed_records recs
    /\ well_formed_utf8 rest = true
    /\ concat (map (encode (config st)) recs) ++ rest = b ++ chunk.
Proof.
  intros Hr Hu Hwf Hb.
  destruct (single_ascii_char _ Hr) as (c & Hc & Hca).
  destruct (single_ascii_char _ Hu) as (u & Hu' & Hua).
  pose proof (frames_rebuild (byte_of_ascii c) (b ++ chunk)) as Hre.
  rewrite <- Hre in Hwf. apply well_formed_frames in Hwf as [Hps Hrest]; [|assumption].
  eexists _, _. split; [apply (decode_frames s c st b chunk Hc Hb)|].
  split; [|split; [exact Hrest|]].
  - unfold well_formed_records. apply Forall_map.
    eapply Forall_impl; [exact Hps|]. intros p Hp. now apply (well_formed_units _ u).
  - rewrite map_map.
    rewrite (map_ext _ (fun p => p ++ [byte_of_ascii c]))
      by (intros p; now apply (encode_units_of _ c u)).
    exact Hre.
Qed.

(** Text outside ASCII, a record of no unit, an empty unit, and an
    unfinished tail. *)
Lemma decode_loses_no_byte_witness :
  let st := set_priv_buffer <[0%nat := Buffer_from "par"]> (new_Channel None) in
  let chunk := Buffer_from "tial" ++ encode (config st) [] ++ encode (config st) ["x"; ""]
               ++ [x63; xc3; xa9; xe2; x82; xac; xf0; x9f; x98; x80]
               ++ encode (config st) ["y"] ++ Buffer_from "z" in
  exists recs rest,
    decode 0%nat chunk st = Ok recs (set_priv_buffer <[0%nat := rest]> st)
    /\ well_formed_records recs
    /\ well_formed_utf8 rest = true
    /\ concat (map (encode (config st)) recs) ++ rest = Buffer_from "par" ++ chunk.
Proof.
  intros st chunk.
  apply (decode_loses_no_byte st 0%nat (Buffer_from "par") chunk); reflexivity.
Defined.

(** ** A connection that is admitted *)

Section Admission.

(** The state [onConnection] is in when it comes to write the marker. *)
Lemma onConnection_admission (plugin : option (Socket -> Socket)) (s : Socket_id)
    (sk : Socket) (st : State) :
  sockets st !! s = Some sk ->
  authorized (apply_plugin plugin sk) = true ->
  exists st1,
    onConnection plugin s st
    = priv_transmit s (Buffer_from (START_OF_TRANSMISSION (config st))) st1
    /\ config st1 = config st
    /\ priv_buffer st1 = <[s := []]> (priv_buffer st)
    /\ sockets st1 = <[s := admitted_socket (config st) (apply_plugin plugin sk)]> (sockets st)
    /\ promises st1 = promises st
    /\ emitted st1 = emitted st
    /\ wire st1 = wire st.
Proof.
  intros Hs Hauth. unfold onConnection.
  destruct plugin as [f|]; cbn [apply_plugin] in *.
  - unfold update_socket at 1 2. cbn [sockets set_sockets].
    rewrite lookup_alter_eq, Hs. cbn [fmap option_fmap option_map]. rewrite Hauth.
    eexists. split; [reflexivity|]. repeat split.
    unfold socket_resume, socket_setKeepAlive, socket_on, init, update_socket.
    cbn [config priv_buffer sockets promises emitted wire set_sockets set_priv_buffer].
    rewrite (alter_alt_Some f _ s sk) by assumption.
    rewrite !alter_insert_eq. f_equal.
    unfold admitted_socket, add_listener, with_flowing, with_listeners.
    destruct (readableFlowing (f sk)) as [[]|]; reflexivity.
  - rewrite Hs, Hauth. eexists. split; [reflexivity|]. repeat split.
    unfold socket_resume, socket_setKeepAlive, socket_on, init, update_socket.
    cbn [config priv_buffer sockets promises emitted wire set_sockets set_priv_buffer].
    rewrite (alter_alt_Some (add_listener ev_data false buffer_bound) _ s sk)
      by assumption.
    rewrite !alter_insert_eq. f_equal.
    unfold admitted_socket, add_listener, with_flowing, with_listeners.
    destruct (readableFlowing sk) as [[]|]; reflexivity.
Qed.

End Admission.

(** X8: for a socket whose [authorized] is true once the plugin has
    completed, [onConnection] gives the socket an empty reassembly buffer,
    appends [buffer] to its 'data' listeners, sets the keep-alive delay of
    the configuration and starts the flow.  If the socket is writable the
    call returns, having written the marker and nothing else; if it is not,
    the call throws the transmit error, without [record], and what it has
    done before stays done.  No other socket, no promise and no emitted
    record is touched. *)
Theorem onConnection_admits (st : State) (s : Socket_id) (sk : Socket)
    (plugin : option (Socket -> Socket)) :
  sockets st !! s = Some sk ->
  authorized (apply_plugin plugin sk) = true ->
  exists st1,
    config st1 = config st
    /\ priv_buffer st1 = <[s := []]> (priv_buffer st)
    /\ sockets st1
       = <[s := admitted_socket (config st) (apply_plugin plugin sk)]> (sockets st)
    /\ promises st1 = promises st
    /\ emitted st1 = emitted st
    /\ wire st1 = wire st
    /\ (writable (apply_plugin plugin sk) = true ->
        onConnection plugin s st
        = Ok tt (socket_write s (Buffer_from (START_OF_TRANSMISSION (config st))) st1))
    /\ (writable (apply_plugin plugin sk) = false ->
        onConnection plugin s st = Throw (transmit_error s) st1
        /\ record (transmit_error s) = None).
Proof.
  intros Hs Hauth.
  destruct (onConnection_admission plugin s sk st Hs Hauth)
    as (st1 & Hon & H1 & H2 & H3 & H4 & H5 & H6).
  exists st1. repeat split; try assumption.
  - intros Hw. rewrite Hon. unfold priv_transmit.
    rewrite H3, lookup_insert_eq. cbn [writable admitted_socket]. now rewrite Hw.
  - rewrite Hon. unfold priv_transmit.
    rewrite H3, lookup_insert_eq. cbn [writable admitted_socket]. now rewrite H.
Qed.

Lemma onConnection_admits_witness :
  let st := snd (connect (new_Channel None)) in
  let s := 0%nat in
  let plugin := Some (set_authorized true) in
  exists st1,
    priv_buffer st1 !! s = Some []
    /\ sockets st1 !! s = Some (admitted_socket (config st) (set_authorized true new_socket))
    /\ onConnection plugin s st
       = Ok tt (socket_write s (Buffer_from (START_OF_TRANSMISSION (config st))) st1).
Proof.
  intros st s plugin.
  destruct (onConnection_admits st s new_socket plugin)
    as (st1 & _ & H2 & H3 & _ & _ & _ & Hok & _).
  - reflexivity.
  - reflexivity.
  - exists st1. rewrite H2, H3, !lookup_insert_eq.
    split; [reflexivity|]. split; [reflexivity|]. apply Hok. reflexivity.
Defined.

(** ** From one end to the other *)

Section EndToEnd.

Lemma buffer_of_encode (st : State) (s : Socket_id) (units : list string) :
  distinct_single_bytes (config st) = true ->
  separator_free (config st) units = true ->
  (0 < length units)%nat ->
  priv_buffer st !! s = Some [] ->
  buffer s (encode (config st) units) st = Ok tt (emit_record units s st).
Proof.
  intros Hcfg Hfree Hlen Hb.
  destruct (distinct_single_bytes_spec _ Hcfg) as (c & u & Hc & Hu & Hne).
  destruct (encode_one_frame _ c u units Hc Hu Hne Hfree) as [Henc Hin].
  apply (buffer_decode s _ st st [units]).
  rewrite (decode_frames s c st [] _ Hc Hb). cbn [app]. rewrite Henc.
  rewrite (frames_found _ _ [] Hin). cbn [frames fst snd map].
  rewrite (units_of_join _ c u) by assumption.
  now rewrite set_priv_buffer_insert_id.
Qed.

Lemma same_separators (cfg cfg' : Config) (units : list string) :
  RECORD_SEPARATOR cfg' = RECORD_SEPARATOR cfg ->
  UNIT_SEPARATOR cfg' = UNIT_SEPARATOR cfg ->
  encode cfg' units = encode cfg units
  /\ distinct_single_bytes cfg' = distinct_single_bytes cfg
  /\ separator_free cfg' units = separator_free cfg units.
Proof.
  intros Hr Hu. unfold encode, distinct_single_bytes, separator_free.
  now rewrite Hr, Hu.
Qed.

Lemma Buffer_toString_app (a b : Buffer) :
  Buffer_toString (a ++ b) = Buffer_toString a +:+ Buffer_toString b.
Proof.
  unfold Buffer_toString, string_of_list_byte.
  induction a as [|x a IH]; cbn; [reflexivity | now rewrite IH].
Qed.

Lemma string_app_same (x y : string) : x +:+ y = x -> y = "".
Proof.
  induction x as [|a x IH]; cbn; [easy|]. intros [= H]. now apply IH.
Qed.

Lemma Buffer_toString_empty (b : Buffer) : Buffer_toString b = "" -> b = [].
Proof.
  intros H. rewrite <- (list_byte_of_string_of_list_byte b).
  unfold Buffer_toString in H. now rewrite H.
Qed.

End EndToEnd.

(** X9: what [transmit] writes on one end, [buffer] turns into the record
    on the other.  For non-empty separator-free units, a writable socket on
    the sending channel and an initialised socket with an empty buffer on a
    receiving channel with the same two separators, the chunk written is
    the one chunk [transmit] adds to the transport, and [buffer] on that
    chunk emits exactly one 'record' event, with the units sent. *)
Theorem transmit_then_receive (st_a st_b : State) (a b : Socket_id) (sk : Socket)
    (units : list string) :
  sockets st_a !! a = Some sk ->
  writable sk = true ->
  distinct_single_bytes (config st_a) = true ->
  separator_free (config st_a) units = true ->
  (0 < length units)%nat ->
  RECORD_SEPARATOR (config st_b) = RECORD_SEPARATOR (config st_a) ->
  UNIT_SEPARATOR (config st_b) = UNIT_SEPARATOR (config st_a) ->
  priv_buffer st_b !! b = Some [] ->
  exists chunk st_a',
    transmit a units st_a = Ok tt st_a'
    /\ wire st_a' = wire st_a ++ [(a, chunk)]
    /\ buffer b chunk st_b = Ok tt (emit_record units b st_b)
    /\ emitted (emit_record units b st_b) = emitted st_b ++ [(units, b)]
    /\ priv_buffer (emit_record units b st_b) !! b = Some [].
Proof.
  intros Hs Hw Hcfg Hfree Hlen Hr Hu Hb.
  exists (encode (config st_a) units), (socket_write a (encode (config st_a) units) st_a).
  split; [|split; [reflexivity|split; [|split; [reflexivity | exact Hb]]]].
  - unfold transmit, priv_transmit. now rewrite Hs, Hw.
  - destruct (same_separators (config st_a) (config st_b) units Hr Hu) as (He & Hd & Hf).
    rewrite <- He. apply buffer_of_encode; try assumption; congruence.
Qed.

Lemma transmit_then_receive_witness :
  let st_a := snd (connect (new_Channel None)) in
  let st_b := init 5%nat (new_Channel None) in
  let units := ["client"; "test"; "123"] in
  exists chunk st_a',
    transmit 0%nat units st_a = Ok tt st_a'
    /\ wire st_a' = wire st_a ++ [(0%nat, chunk)]
    /\ buffer 5%nat chunk st_b = Ok tt (emit_record units 5%nat st_b)
    /\ emitted (emit_record units 5%nat st_b) = emitted st_b ++ [(units, 5%nat)]
    /\ priv_buffer (emit_record units 5%nat st_b) !! 5%nat = Some [].
Proof.
  intros st_a st_b units.
  apply (transmit_then_receive st_a st_b 0%nat 5%nat new_socket units);
    try reflexivity.
  simpl. lia.
Defined.

(** X10: the handshake goes through.  The marker an admitting server
    writes in [onConnection] is, when it reaches as one chunk a client
    socket made by [#createClient] of a channel with the same marker, what
    fulfils the client's promise with that socket; the marker is not
    decoded and no record is emitted for it. *)
Theorem handshake_completes (st_s st_c : State) (a : Socket_id) (sk : Socket)
    (plugin : option (Socket -> Socket)) :
  let s := fst (priv_createClient connect st_c) in
  let st1 := snd (priv_createClient connect st_c) in
  sockets st_s !! a = Some sk ->
  authorized (apply_plugin plugin sk) = true ->
  writable (apply_plugin plugin sk) = true ->
  START_OF_TRANSMISSION (config st_c) = START_OF_TRANSMISSION (config st_s) ->
  exists chunk st_s' st2,
    onConnection plugin a st_s = Ok tt st_s'
    /\ wire st_s' = wire st_s ++ [(a, chunk)]
    /\ run [Arrive s chunk; Flow s] st1 = Ok tt st2
    /\ promises st2 !! s = Some (Fulfilled s)
    /\ priv_buffer st2 !! s = Some []
    /\ emitted st2 = emitted st_c.
Proof.
  rewrite priv_createClient_state. cbn [fst snd].
  intros Hs Hauth Hw Hsot.
  destruct (onConnection_admission plugin a sk st_s Hs Hauth)
    as (st1 & Hon & H1 & H2 & H3 & H4 & H5 & H6).
  exists (Buffer_from (START_OF_TRANSMISSION (config st_s))).
  eexists _, _. split; [|split; [|split]].
  - rewrite Hon. unfold priv_transmit.
    rewrite H3, lookup_insert_eq. cbn [writable admitted_socket]. rewrite Hw.
    reflexivity.
  - cbn [wire socket_write set_wire]. now rewrite H6.
  - apply marker_accepted. rewrite Buffer_toString_from. now symmetry.
  - unfold with_client. cbn [promises priv_buffer emitted].
    rewrite !lookup_insert_eq. repeat split.
Qed.

Lemma handshake_completes_witness :
  let st_s := snd (connect (new_Channel None)) in
  let st_c := new_Channel None in
  let s := fst (priv_createClient connect st_c) in
  let st1 := snd (priv_createClient connect st_c) in
  exists chunk st_s' st2,
    onConnection (Some (set_authorized true)) 0%nat st_s = Ok tt st_s'
    /\ wire st_s' = wire st_s ++ [(0%nat, chunk)]
    /\ run [Arrive s chunk; Flow s] st1 = Ok tt st2
    /\ promises st2 !! s = Some (Fulfilled s)
    /\ priv_buffer st2 !! s = Some []
    /\ emitted st2 = emitted st_c.
Proof.
  intros st_s st_c.
  apply (handshake_completes st_s st_c 0%nat new_socket (Some (set_authorized true)));
    reflexivity.
Defined.

(** X11: a first chunk that holds the marker and more (the marker and the
    first bytes of a record that the transport has delivered together) is
    not the marker: the client socket is destroyed, the promise is rejected
    with the invalid-ready-signal cause, and the bytes after the marker are
    neither decoded nor stored. *)
Theorem marker_with_more_is_rejected (st0 : State) (more : Buffer) :
  let s := fst (priv_createClient connect st0) in
  let st1 := snd (priv_createClient connect st0) in
  let chunk := Buffer_from (START_OF_TRANSMISSION (config st0)) ++ more in
  more ≠ [] ->
  exists st2,
    run [Arrive s chunk; Flow s] st1 = Ok tt st2
    /\ promises st2 !! s
       = Some (Rejected (client_connect_error "Server not ready"
                           (invalid_ready_signal chunk)))
    /\ dead s st2
    /\ emitted st2 = emitted st0
    /\ priv_buffer st2 !! s = Some [].
Proof.
  rewrite priv_createClient_state. cbn [fst snd]. intros Hmore.
  set (s := fresh (dom (sockets st0))).
  assert (String.eqb (START_OF_TRANSMISSION (config st0))
            (Buffer_toString (Buffer_from (START_OF_TRANSMISSION (config st0)) ++ more))
          = false) as Hneq.
  { apply String.eqb_neq. rewrite Buffer_toString_app, Buffer_toString_from.
    intros H. symmetry in H. apply string_app_same, Buffer_toString_empty in H.
    congruence. }
  exec. rewrite Hneq. exec.
  eexists. split; [reflexivity|]. exec. split; [reflexivity|]. split.
  - eexists. exec. split; [reflexivity|]. split; reflexivity.
  - split; reflexivity.
Qed.

Lemma marker_with_more_is_rejected_witness :
  let st0 := new_Channel None in
  let s := fst (priv_createClient connect st0) in
  let st1 := snd (priv_createClient connect st0) in
  let chunk := Buffer_from (START_OF_TRANSMISSION (config st0))
               ++ encode (config st0) ["server"; "test"; "456"] in
  exists st2,
    run [Arrive s chunk; Flow s] st1 = Ok tt st2
    /\ promises st2 !! s
       = Some (Rejected (client_connect_error "Server not ready"
                           (invalid_ready_signal chunk)))
    /\ dead s st2
    /\ emitted st2 = emitted st0
    /\ priv_buffer st2 !! s = Some [].
Proof.
  intros st0.
  apply (marker_with_more_is_rejected st0 (encode (config st0) ["server"; "test"; "456"])).
  discriminate.
Defined.

(** X12: the first settlement of the promise of [#createClient] is the
    last.  Once the promise of a client socket is fulfilled or rejected, no
    event of the transport changes it: a 'close' after an 'error' leaves the
    transport's reason as the cause, and a marker that arrives after a
    rejection does not fulfil it. *)
Theorem settled_promise_is_final (st st' : State) (s : Socket_id) (p : Promise)
    (evs : list Transport) :
  promises st !! s = Some p ->
  p ≠ Pending ->
  final_state (run evs st) = Some st' ->
  promises st' !! s = Some p.
Proof.
  intros Hp Hne. now apply run_keeps.
Qed.

(** A promise rejected with the transport's reason; then the socket closes
    and the marker is delivered after all. *)
Lemma settled_promise_is_final_witness :
  let st0 := new_Channel None in
  let s := fst (priv_createClient connect st0) in
  let reason := mkError "socket hang up" (Some "ECONNRESET") None None None in
  let rejected := Rejected (client_connect_error "Error when connecting to server" reason) in
  let st := reject s (client_connect_error "Error when connecting to server" reason)
              (snd (priv_createClient connect st0)) in
  let evs := [Close s; Arrive s (Buffer_from (START_OF_TRANSMISSION (config st0)));
              Flow s] in
  exists st',
    final_state (run evs st) = Some st' /\ promises st' !! s = Some rejected.
Proof.
  intros st0 s reason rejected st evs.
  assert (exists st', final_state (run evs st) = Some st') as (st' & Hrun)
    by (eexists; vm_compute; reflexivity).
  exists st'. split; [exact Hrun|].
  apply (settled_promise_is_final st st' s rejected evs);
    [reflexivity | discriminate | exact Hrun].
Defined.

(** ** What [broadcast] and [buffer] leave alone *)

Section BroadcastFrame.

Variable record_ : Buffer.

Lemma broadcast_loop_any (ss : list Socket_id) (reasons : list Error) (st : State) :
  exists written failures,
    broadcast_loop record_ ss reasons st
    = Ok (reasons ++ failures) (set_wire (fun w => w ++ written) st)
    /\ Forall (fun w => w.1 ∈ ss /\ w.2 = record_) written
    /\ Forall (fun e => record e = None) failures
    /\ (length written + length failures = length ss)%nat.
Proof.
  revert reasons st. induction ss as [|s ss IH]; intros reasons st.
  - exists [], []. cbn [broadcast_loop]. rewrite app_nil_r. repeat split; auto.
    f_equal. destruct st. unfold set_wire. cbn. now rewrite app_nil_r.
  - cbn [broadcast_loop]. unfold priv_transmit.
    destruct (sockets st !! s) as [sk|]; [destruct (writable sk)|].
    + destruct (IH reasons (socket_write s record_ st))
        as (written & failures & Hloop & Hw & Hf & Hlen).
      exists ((s, record_) :: written), failures. rewrite Hloop.
      split; [|split; [|split; [assumption | simpl; lia]]].
      * f_equal. destruct st. unfold set_wire, socket_write. cbn.
        now rewrite <- app_assoc.
      * constructor; [split; [apply list_elem_of_here | reflexivity]|].
        eapply Forall_impl; [exact Hw|]. intros w [H1 H2].
        split; [now apply list_elem_of_further | assumption].
    + destruct (IH (reasons ++ [transmit_error s]) st)
        as (written & failures & Hloop & Hw & Hf & Hlen).
      exists written, (transmit_error s :: failures). rewrite Hloop, <- app_assoc.
      split; [reflexivity|]. split; [|split; [now constructor | simpl; lia]].
      eapply Forall_impl; [exact Hw|]. intros w [H1 H2].
      split; [now apply list_elem_of_further | assumption].
    + destruct (IH (reasons ++ [TypeError
                      "Cannot read properties of undefined (reading 'writable')"]) st)
        as (written & failures & Hloop & Hw & Hf & Hlen).
      exists written, (TypeError
                         "Cannot read properties of undefined (reading 'writable')"
                       :: failures).
      rewrite Hloop, <- app_assoc.
      split; [reflexivity|]. split; [|split; [now constructor | simpl; lia]].
      eapply Forall_impl; [exact Hw|]. intros w [H1 H2].
      split; [now apply list_elem_of_further | assumption].
Qed.

End BroadcastFrame.

(** X13: [broadcast], whatever it is given, changes nothing but the chunks
    written: buffers, sockets, promises and emitted records are as before,
    whether it returns or throws.  Every chunk it writes is the encoding of
    the units, to one of the sockets given; writes and failures together are
    as many as the sockets given (one attempt each, also for a socket given
    twice); it throws exactly when there is a failure; and the failures in
    the [cause] of its error carry no [record] of their own. *)
Theorem broadcast_only_writes (st : State) (ss : list Socket_id) (units : list string) :
  exists written failures,
    broadcast ss units st
    = match failures with
      | [] => Ok tt (set_wire (fun w => w ++ written) st)
      | _ :: _ => Throw (broadcast_error units failures)
                        (set_wire (fun w => w ++ written) st)
      end
    /\ Forall (fun w => w.1 ∈ ss /\ w.2 = encode (config st) units) written
    /\ Forall (fun e => record e = None) failures
    /\ (length written + length failures = length ss)%nat.
Proof.
  destruct (broadcast_loop_any (encode (config st) units) ss [] st)
    as (written & failures & Hloop & Hw & Hf & Hlen).
  exists written, failures. unfold broadcast. rewrite Hloop. cbn [and_then app].
  split; [now destruct failures | now repeat split].
Qed.

(** X14: [buffer] for one socket leaves every other connection alone: the
    reassembly buffer of any other socket and the records emitted for it
    are as before, and so are the configuration, the sockets, the promises
    and the chunks written, whether the call returns or throws. *)
Theorem buffer_touches_one_connection (st st' : State) (s' : Socket_id)
    (chunk : Buffer) :
  final_state (buffer s' chunk st) = Some st' ->
  config st' = config st
  /\ sockets st' = sockets st
  /\ promises st' = promises st
  /\ wire st' = wire st
  /\ forall s, s ≠ s' ->
       priv_buffer st' !! s = priv_buffer st !! s
       /\ records_for s (emitted st') = records_for s (emitted st).
Proof.
  intros H. apply buffer_touches in H as (A1 & A2 & A3 & A4 & A5 & A6).
  repeat split; try assumption; [now apply A5 | now apply A6].
Qed.

Lemma buffer_touches_one_connection_witness :
  let st := set_priv_buffer <[1%nat := Buffer_from "half"]> (init 0%nat (new_Channel None)) in
  let chunk := encode (config st) ["a"] ++ Buffer_from "b" in
  exists st',
    final_state (buffer 0%nat chunk st) = Some st'
    /\ priv_buffer st' !! 1%nat = Some (Buffer_from "half")
    /\ records_for 1%nat (emitted st') = [].
Proof.
  intros st chunk.
  assert (exists st', final_state (buffer 0%nat chunk st) = Some st') as (st' & H)
    by (eexists; vm_compute; reflexivity).
  exists st'. split; [exact H|].
  destruct (buffer_touches_one_connection st st' 0%nat chunk H) as (_ & _ & _ & _ & Hs).
  destruct (Hs 1%nat) as [H1 H2]; [discriminate|].
  rewrite H1, H2. split; reflexivity.
Defined.

(** ** The earlier variant, and the two variants together *)

Section ImmediateClient.

Variable st0 : State.
Variable s : Socket_id.

Lemma Immediate_createTlsClient_state :
  Immediate.createTlsClient st0
  = (fresh (dom (sockets st0)),
     with_socket (fresh (dom (sockets st0))) (ready_socket (config st0)) [] st0).
Proof.
  unfold Immediate.createTlsClient, with_socket. exec. reflexivity.
Qed.

Lemma ready_flow (cfg : Config) (b chunk : Buffer) :
  run [Arrive s chunk; Flow s] (with_socket s (ready_socket cfg) b st0)
  = buffer s chunk (with_socket s (ready_socket cfg) b st0).
Proof.
  unfold with_socket. exec. rewrite and_then_ret. exec. now rewrite and_then_ret.
Qed.

Lemma with_socket_lookup (sk : Socket) (b : Buffer) :
  priv_buffer (with_socket s sk b st0) !! s = Some b.
Proof. unfold with_socket. cbn [priv_buffer]. apply lookup_insert_eq. Qed.

Lemma with_socket_stored (sk : Socket) (b rest : Buffer) :
  set_emitted (fun l => l ++ notifications s [])
    (set_priv_buffer <[s := rest]> (with_socket s sk b st0))
  = with_socket s sk rest st0.
Proof.
  unfold with_socket, set_emitted, set_priv_buffer. cbn.
  now rewrite app_nil_r, insert_insert_eq.
Qed.

End ImmediateClient.

Section StringAppend.

Lemma string_app_assoc (a b c : string) : (a +:+ b) +:+ c = a +:+ (b +:+ c).
Proof.
  induction a as [|x a IH]; [reflexivity|].
  change (String x ((a +:+ b) +:+ c) = String x (a +:+ (b +:+ c))).
  now rewrite IH.
Qed.

Lemma Array_join_prepend (sep a u0 : string) (rest : list string) :
  Array_join sep ((a +:+ u0) :: rest) = a +:+ Array_join sep (u0 :: rest).
Proof.
  destruct rest as [|u1 rest]; [reflexivity|].
  change (Array_join sep ((a +:+ u0) :: u1 :: rest))
    with ((a +:+ u0) +:+ sep +:+ Array_join sep (u1 :: rest)).
  change (Array_join sep (u0 :: u1 :: rest))
    with (u0 +:+ sep +:+ Array_join sep (u1 :: rest)).
  apply string_app_assoc.
Qed.

Lemma not_in_string_app (c : ascii) (a b : string) :
  c ∉ list_ascii_of_string a -> c ∉ list_ascii_of_string b ->
  c ∉ list_ascii_of_string (a +:+ b).
Proof.
  intros Ha Hb. rewrite list_ascii_app. apply not_elem_of_app. now split.
Qed.

End StringAppend.

(** X15: in the earlier variant a client socket is usable at once:
    [createTlsClient] and [createNetClient] do the same; they return a new
    socket with an empty buffer and make no promise; and the first chunk
    that arrives, like every later one, goes through [buffer], so a record
    sent straight away is emitted. *)
Theorem immediate_client_is_ready (st0 : State) :
  let s := fst (Immediate.createTlsClient st0) in
  let st1 := snd (Immediate.createTlsClient st0) in
  Immediate.createNetClient st0 = Immediate.createTlsClient st0
  /\ sockets st0 !! s = None
  /\ priv_buffer st1 !! s = Some []
  /\ promises st1 = promises st0
  /\ (forall chunk, run [Arrive s chunk; Flow s] st1 = buffer s chunk st1)
  /\ (forall units,
        distinct_single_bytes (config st0) = true ->
        separator_free (config st0) units = true ->
        (0 < length units)%nat ->
        run [Arrive s (encode (config st0) units); Flow s] st1
        = Ok tt (emit_record units s st1)).
Proof.
  split; [reflexivity|].
  rewrite Immediate_createTlsClient_state. cbn [fst snd]. split.
  - apply not_elem_of_dom. apply is_fresh.
  - split; [apply with_socket_lookup|]. split; [reflexivity|]. split.
    + intros chunk. apply ready_flow.
    + intros units Hcfg Hfree Hlen. rewrite ready_flow.
      apply (buffer_of_encode (with_socket _ _ [] st0)); try assumption.
      apply with_socket_lookup.
Qed.

Section Glued.

Variable st0 : State.
Variable s : Socket_id.

Lemma marker_then_record (u0 : string) (rest : list string) :
  distinct_single_bytes (config st0) = true ->
  separator_free (config st0) (START_OF_TRANSMISSION (config st0) :: u0 :: rest) = true ->
  exists st2,
    run [Arrive s (Buffer_from (START_OF_TRANSMISSION (config st0))); Flow s;
         Arrive s (encode (config st0) (u0 :: rest)); Flow s]
      (with_socket s (ready_socket (config st0)) [] st0) = Ok tt st2
    /\ emitted st2
       = emitted st0 ++ [((START_OF_TRANSMISSION (config st0) +:+ u0) :: rest, s)]
    /\ priv_buffer st2 !! s = Some [].
Proof.
  intros Hcfg Hfree.
  destruct (distinct_single_bytes_spec _ Hcfg) as (c & u & Hc & Hu & Hne).
  destruct (separator_free_spec (config st0) c u _ Hc Hu Hfree) as [Hfc Hfu].
  apply Forall_cons in Hfc as [Hmc Hfc]. apply Forall_cons in Hfc as [H0c Hfc].
  apply Forall_cons in Hfu as [Hmu Hfu]. apply Forall_cons in Hfu as [H0u Hfu].
  change [Arrive s (Buffer_from (START_OF_TRANSMISSION (config st0))); Flow s;
          Arrive s (encode (config st0) (u0 :: rest)); Flow s]
    with ([Arrive s (Buffer_from (START_OF_TRANSMISSION (config st0))); Flow s]
          ++ [Arrive s (encode (config st0) (u0 :: rest)); Flow s]).
  rewrite run_app, ready_flow.
  assert (byte_of_ascii c ∉ Buffer_from (START_OF_TRANSMISSION (config st0))) as Hm
    by (rewrite elem_of_Buffer_from; exact Hmc).
  rewrite (buffer_decode s _ _
             (set_priv_buffer <[s := Buffer_from (START_OF_TRANSMISSION (config st0))]>
                (with_socket s (ready_socket (config st0)) [] st0)) []).
  2:{ rewrite (decode_frames s c (with_socket s (ready_socket (config st0)) [] st0)
                 [] _ Hc (with_socket_lookup st0 s _ _)).
      cbn [app]. now rewrite frames_absent. }
  cbn [and_then]. rewrite with_socket_stored, ready_flow.
  assert (encode (config st0) (u0 :: rest)
          = Buffer_from (Array_join (UNIT_SEPARATOR (config st0)) (u0 :: rest))
            ++ [byte_of_ascii c])
    as Henc by (unfold encode; now rewrite Buffer_from_app, Hc, Buffer_from_char).
  rewrite (buffer_decode s _ _ (with_socket s (ready_socket (config st0)) [] st0)
             [(START_OF_TRANSMISSION (config st0) +:+ u0) :: rest]).
  - eexists. split; [reflexivity|]. split; [reflexivity|].
    cbn [priv_buffer set_emitted]. apply with_socket_lookup.
  - rewrite (decode_frames s c
               (with_socket s (ready_socket (config st0))
                  (Buffer_from (START_OF_TRANSMISSION (config st0))) st0)
               _ _ Hc (with_socket_lookup st0 s _ _)).
    rewrite Henc, app_assoc, <- Buffer_from_app, <- Array_join_prepend.
    rewrite frames_found.
    + cbn [frames fst snd map]. unfold units_of. rewrite Buffer_toString_from.
      change (config (with_socket s (ready_socket (config st0))
                        (Buffer_from (START_OF_TRANSMISSION (config st0))) st0))
        with (config st0).
      rewrite Hu, String_split_join; [|discriminate|].
      * f_equal. unfold with_socket, set_priv_buffer. cbn. now rewrite insert_insert_eq.
      * constructor; [now apply not_in_string_app | assumption].
    + rewrite elem_of_Buffer_from, Hu. apply Array_join_free; [assumption|].
      constructor; [now apply not_in_string_app | assumption].
Qed.

End Glued.

(** X16: the two variants do not go together.  A client of the earlier
    variant that receives what a server of the later variant sends first,
    the marker and then a record, decodes the marker as part of the record:
    the one record it emits has the marker in front of its first unit. *)
Theorem marker_glued_to_first_unit (st0 : State) (u0 : string) (rest : list string) :
  let s := fst (Immediate.createTlsClient st0) in
  let st1 := snd (Immediate.createTlsClient st0) in
  let marker := START_OF_TRANSMISSION (config st0) in
  distinct_single_bytes (config st0) = true ->
  separator_free (config st0) (marker :: u0 :: rest) = true ->
  exists st2,
    run [Arrive s (Buffer_from marker); Flow s;
         Arrive s (encode (config st0) (u0 :: rest)); Flow s] st1 = Ok tt st2
    /\ emitted st2 = emitted st0 ++ [((marker +:+ u0) :: rest, s)]
    /\ priv_buffer st2 !! s = Some [].
Proof.
  rewrite Immediate_createTlsClient_state. cbn [fst snd].
  apply marker_then_record.
Qed.

Lemma marker_glued_to_first_unit_witness :
  let st0 := new_Channel None in
  let s := fst (Immediate.createTlsClient st0) in
  let st1 := snd (Immediate.createTlsClient st0) in
  let marker := START_OF_TRANSMISSION (config st0) in
  exists st2,
    run [Arrive s (Buffer_from marker); Flow s;
         Arrive s (encode (config st0) ["server"; "test"; "456"]); Flow s] st1 = Ok tt st2
    /\ emitted st2 = emitted st0 ++ [((marker +:+ "server") :: ["test"; "456"], s)]
    /\ priv_buffer st2 !! s = Some [].
Proof.
  intros st0.
  apply (marker_glued_to_first_unit st0 "server" ["test"; "456"]); reflexivity.
Defined.

(** X17: the other way round.  A client made by [#createClient] that is
    sent a record before any marker (by a server of the earlier variant,
    which writes none) takes the record for the ready signal: whenever the
    marker does not contain the one-byte record separator, the encoding of
    any units differs from it, so the promise is rejected with the
    invalid-ready-signal cause, the socket is destroyed and the record is
    never emitted. *)
Theorem record_before_marker_is_rejected (st0 : State) (units : list string) :
  let s := fst (priv_createClient connect st0) in
  let st1 := snd (priv_createClient connect st0) in
  let chunk := encode (config st0) units in
  String.length (RECORD_SEPARATOR (config st0)) = 1%nat ->
  String_includes (START_OF_TRANSMISSION (config st0)) (RECORD_SEPARATOR (config st0))
    = false ->
  exists st2,
    run [Arrive s chunk; Flow s] st1 = Ok tt st2
    /\ promises st2 !! s
       = Some (Rejected (client_connect_error "Server not ready"
                           (invalid_ready_signal chunk)))
    /\ dead s st2
    /\ emitted st2 = emitted st0.
Proof.
  rewrite priv_createClient_state. cbn [fst snd]. intros Hlen Hinc.
  destruct (length_string_1 _ Hlen) as [c Hc]. rewrite Hc in Hinc.
  apply String_includes_char in Hinc.
  assert (String.eqb (START_OF_TRANSMISSION (config st0))
            (Buffer_toString (encode (config st0) units)) = false) as Hneq.
  { apply String.eqb_neq. unfold encode. rewrite Buffer_toString_from, Hc.
    intros H. apply Hinc. rewrite H, list_ascii_app. apply elem_of_app. right.
    apply list_elem_of_here. }
  exec. rewrite Hneq. exec.
  eexists. split; [reflexivity|]. exec. split; [reflexivity|]. split.
  - eexists. exec. split; [reflexivity|]. split; reflexivity.
  - reflexivity.
Qed.

Lemma record_before_marker_is_rejected_witness :
  let st0 := new_Channel None in
  let s := fst (priv_createClient connect st0) in
  let st1 := snd (priv_createClient connect st0) in
  let chunk := encode (config st0) ["server"; "test"; "456"] in
  exists st2,
    run [Arrive s chunk; Flow s] st1 = Ok tt st2
    /\ promises st2 !! s
       = Some (Rejected (client_connect_error "Server not ready"
                           (invalid_ready_signal chunk)))
    /\ dead s st2
    /\ emitted st2 = emitted st0.
Proof.
  intros st0.
  apply (record_before_marker_is_rejected st0 ["server"; "test"; "456"]); reflexivity.
Defined.

(** X18: bytes that reach an accepted connection while its plugin has not
    completed are not lost when the connection is admitted.  For a socket
    the server has just accepted, a chunk that arrives before the connection
    event is handled is, once [onConnection] has admitted the socket and the
    flow has started, handed to [buffer] in the very state an admission
    without early bytes leaves. *)
Theorem early_bytes_are_decoded_after_admission (st0 : State) (s : Socket_id)
    (chunk : Buffer) :
  let st := set_sockets <[s := new_socket]> st0 in
  let plugin := Some (set_authorized true) in
  exists st_a,
    run [Connection plugin s] st = Ok tt st_a
    /\ priv_buffer st_a !! s = Some []
    /\ wire st_a = wire st0 ++ [(s, Buffer_from (START_OF_TRANSMISSION (config st0)))]
    /\ run [Arrive s chunk; Connection plugin s; Flow s] st = buffer s chunk st_a.
Proof.
  intros st plugin. subst st plugin.
  unfold onConnection, priv_transmit, socket_write, set_authorized, set_wire.
  exec. cbn [step]. unfold onConnection, priv_transmit, socket_write, set_authorized,
    set_wire. exec.
  eexists. split; [reflexivity|]. exec. split; [reflexivity|]. split; [reflexivity|].
  cbn [step]. unfold onConnection, priv_transmit, socket_write, set_authorized, set_wire.
  exec. rewrite and_then_ret. exec. now rewrite and_then_ret.
Qed.

(** X19: [onConnection] of the earlier variant writes nothing and does not
    throw for a socket of the store, writable or not.  A socket whose
    [authorized] is true once the plugin has completed gets its empty
    buffer, the [buffer] listener, the keep-alive delay and the flow; any
    other socket is destroyed and gets no buffer.  Promises and emitted
    records are not touched. *)
Theorem immediate_onConnection_writes_nothing (st : State) (s : Socket_id) (sk : Socket)
    (plugin : option (Socket -> Socket)) :
  sockets st !! s = Some sk ->
  exists st',
    Immediate.onConnection plugin s st = Ok tt st'
    /\ config st' = config st
    /\ wire st' = wire st
    /\ emitted st' = emitted st
    /\ promises st' = promises st
    /\ (authorized (apply_plugin plugin sk) = true ->
        priv_buffer st' = <[s := []]> (priv_buffer st)
        /\ sockets st'
           = <[s := admitted_socket (config st) (apply_plugin plugin sk)]> (sockets st))
    /\ (authorized (apply_plugin plugin sk) = false ->
        priv_buffer st' = priv_buffer st
        /\ sockets st' = <[s := destroy_socket (apply_plugin plugin sk)]> (sockets st)).
Proof.
  intros Hs. unfold Immediate.onConnection.
  destruct plugin as [f|]; cbn [apply_plugin].
  - unfold update_socket at 1 2 3. cbn [sockets set_sockets].
    rewrite lookup_alter_eq, Hs. cbn [fmap option_fmap option_map].
    destruct (authorized (f sk)) eqn:Hauth; eexists; (split; [reflexivity|]);
      repeat split; try discriminate;
      unfold socket_resume, socket_setKeepAlive, socket_on, init, socket_destroy,
        update_socket;
      cbn [config priv_buffer sockets promises emitted wire set_sockets set_priv_buffer];
      rewrite (alter_alt_Some f _ s sk) by assumption;
      rewrite !alter_insert_eq; f_equal.
    unfold admitted_socket, add_listener, with_flowing, with_listeners.
    destruct (readableFlowing (f sk)) as [[]|]; reflexivity.
  - rewrite Hs.
    destruct (authorized sk) eqn:Hauth; eexists; (split; [reflexivity|]);
      repeat split; try discriminate;
      unfold socket_resume, socket_setKeepAlive, socket_on, init, socket_destroy,
        update_socket;
      cbn [config priv_buffer sockets promises emitted wire set_sockets set_priv_buffer].
    + rewrite (alter_alt_Some (add_listener ev_data false buffer_bound) _ s sk)
        by assumption.
      rewrite !alter_insert_eq. f_equal.
      unfold admitted_socket, add_listener, with_flowing, with_listeners.
      destruct (readableFlowing sk) as [[]|]; reflexivity.
    + now apply alter_alt_Some.
Qed.

(** A socket that is authorized but no longer writable: the later variant
    throws here, the earlier one returns. *)
Lemma immediate_onConnection_writes_nothing_witness :
  let st := socket_destroy 0%nat (snd (connect (new_Channel None))) in
  let plugin := Some (set_authorized true) in
  (exists st', Immediate.onConnection plugin 0%nat st = Ok tt st' /\ wire st' = wire st)
  /\ exists st', onConnection plugin 0%nat st = Throw (transmit_error 0%nat) st'.
Proof.
  intros st plugin. split.
  - destruct (immediate_onConnection_writes_nothing st 0%nat (destroy_socket new_socket)
                plugin) as (st' & H & _ & Hw & _); [reflexivity|].
    now exists st'.
  - eexists. vm_compute. reflexivity.
Defined.
